(** * gescript: the lexical scanner and the stack machine, embedded in Rocq

    The development follows the Go sources:
    - [Types]   the value variants of package [types];
    - [Engine]  [Process], [OpCode], [Function] and [Function.Exec];
    - [Strconv] the two conversions the scanner takes from Go's [strconv];
    - [Parser]  [gesLex], its [lex]/[Lex] methods and [Parse].

    Go's [int64] is [Z] with the wrap-around written out; offsets, line
    numbers and stack pointers (Go's [int]) are [Z] as they stand, far from
    their bounds.  Byte slices are [list Z], Go strings are [string], and a
    run-time panic of the Go program is a result of its own ([Panicked]),
    never an error value. *)

From Stdlib Require Import ZArith List String Ascii Bool Lia SpecFloat.
Import ListNotations.

Local Open Scope Z_scope.

(** ** Results of running Go code *)

(** The run-time panics the embedded code can raise. *)
Inductive Panic :=
| IndexOutOfRange
| SliceOutOfRange
| NilDereference
| BadTypeAssertion.

(** A call either returns, panics, or (for the two loops whose bound is
    shown sufficient below) exhausts the iteration bound of the model. *)
Inductive Run (A : Type) :=
| Done (a : A)
| Panicked (p : Panic)
| Starved.

Arguments Done {A} a.
Arguments Panicked {A} p.
Arguments Starved {A}.

Definition bind {A B : Type} (m : Run A) (k : A -> Run B) : Run B :=
  match m with
  | Done a => k a
  | Panicked p => Panicked p
  | Starved => Starved
  end.

Declare Scope run_scope.
Delimit Scope run_scope with run.
Notation "x <- m ;; k" := (bind m (fun x => k))
  (at level 61, m at next level, right associativity) : run_scope.
Notation "' p <- m ;; k" := (bind m (fun x => match x with p => k end))
  (at level 61, p pattern, m at next level, right associativity) : run_scope.
Local Open Scope run_scope.

(** [s[i]] on a slice: a panic outside [0, len s). *)
Definition idx {A : Type} (s : list A) (i : Z) : Run A :=
  if i <? 0 then Panicked IndexOutOfRange
  else match nth_error s (Z.to_nat i) with
       | Some a => Done a
       | None => Panicked IndexOutOfRange
       end.

Fixpoint set_nth {A : Type} (s : list A) (n : nat) (v : A) : option (list A) :=
  match s, n with
  | [], _ => None
  | _ :: t, O => Some (v :: t)
  | a :: t, S n' => option_map (cons a) (set_nth t n' v)
  end.

(** [s[i] = v] on a slice: a panic outside [0, len s). *)
Definition upd {A : Type} (s : list A) (i : Z) (v : A) : Run (list A) :=
  if i <? 0 then Panicked IndexOutOfRange
  else match set_nth s (Z.to_nat i) v with
       | Some s' => Done s'
       | None => Panicked IndexOutOfRange
       end.

Definition len {A : Type} (s : list A) : Z := Z.of_nat (List.length s).

(** [s[lo:hi]] on a slice whose capacity is its length. *)
Definition slice {A : Type} (s : list A) (lo hi : Z) : Run (list A) :=
  if (lo <? 0) || (hi <? lo) || (len s <? hi) then Panicked SliceOutOfRange
  else Done (firstn (Z.to_nat (hi - lo)) (skipn (Z.to_nat lo) s)).

(** The two's-complement value of the low 64 bits: Go's [int64] arithmetic. *)
Definition wrap64 (z : Z) : Z := (z + 2 ^ 63) mod 2 ^ 64 - 2 ^ 63.

(** The two sentinel errors of [strconv] and its [*NumError]. *)
Inductive NumErrKind := ErrSyntax | ErrRange.

Record NumError := { Func : string; Num : list Z; Err : NumErrKind }.

(** A Go error string.  [TextNumError s e] is [s + e.Error()]; the rendering
    of a [*NumError] (which quotes [Num]) is left to Go. *)
Inductive message :=
| Text (s : string)
| TextNumError (s : string) (e : NumError).

(** A value of Go's [error] interface, as [errors.New(msg)] makes it. *)
Definition goError := message.

(** ** Package types *)

Module Types.

(** Modelled from the spec: package [types] is not part of the sources at
    hand; its value variants are those of the data model (Undefined, Null,
    Boolean, Integer as a 64-bit signed integer, Number as a binary64,
    String), a Number being kept as the IEEE value [spec_float]. *)
Inductive DataType :=
| UndefinedType
| NullType
| BooleanType (b : bool)
| IntegerType (i : Z)
| NumberType (f : spec_float)
| StringType (s : string).

Definition Undefined : DataType := UndefinedType.

End Types.
Import Types.

(** ** Package engine *)

Module Engine.

(** [OpCodeFn] is [func(prc *Process, op *OpCode) error].  The fields of
    [Process] are unexported, so the behaviours that can read or write a
    process are the functions of package [engine] itself; a behaviour defined
    elsewhere sees the exported fields of the opcode only.  The function
    values are therefore named: the two of the package, and [Foreign f] for
    any other, with [f] given the opcode's line and operand and either
    panicking ([inl]) or returning its error result ([inr]). *)
Inductive OpCodeFn :=
| PushLiteralValueFn
| AdditionOperationFn
| Foreign (f : Z -> option DataType -> Panic + option goError).

(** [OpData] is [interface{}]; the compiler stores a [*types.DataType] or
    leaves it nil ([None]). *)
Record OpCode := {
  LineNumber : Z;
  ExecFn : OpCodeFn;
  OpData : option DataType
}.

Record Function := {
  Name : string;
  Code : list OpCode
}.

(** [stack] is [[]*types.DataType]: a slot is a nil pointer ([None]) or
    points to a value; [sp] is the next free slot. *)
Record Process := {
  body : option Function;
  pc : Z;
  stack : list (option DataType);
  sp : Z
}.

(** [&engine.Process{}] *)
Definition newProcess : Process :=
  {| body := None; pc := 0; stack := []; sp := 0 |}.

Definition set_stack (prc : Process) (st : list (option DataType)) : Process :=
  {| body := body prc; pc := pc prc; stack := st; sp := sp prc |}.

Definition set_sp (prc : Process) (n : Z) : Process :=
  {| body := body prc; pc := pc prc; stack := stack prc; sp := n |}.

Definition set_pc (prc : Process) (n : Z) : Process :=
  {| body := body prc; pc := n; stack := stack prc; sp := sp prc |}.

(** [func (prc *Process) push(val *types.DataType) (err error)] *)
Definition push (prc : Process) (val : option DataType)
  : Run (Process * option goError) :=
  st <- upd (stack prc) (sp prc) val ;;
  let prc := set_stack prc st in
  let prc := set_sp prc (sp prc + 1) in
  Done (prc, None).

(** [func (prc *Process) peek() (val *types.DataType, err error)] *)
Definition peek (prc : Process)
  : Run (Process * option DataType * option goError) :=
  v <- idx (stack prc) (sp prc - 1) ;;
  Done (prc, v, None).

(** [func (prc *Process) pop() (val *types.DataType, err error)] *)
Definition pop (prc : Process)
  : Run (Process * option DataType * option goError) :=
  let prc := set_sp prc (sp prc - 1) in
  v <- idx (stack prc) (sp prc) ;;
  Done (prc, v, None).

(** [*p] for a pointer [p]. *)
Definition deref {A : Type} (p : option A) : Run A :=
  match p with
  | Some a => Done a
  | None => Panicked NilDereference
  end.

(** [func PushLiteralValue(prc *Process, op *OpCode) (err error)] *)
Definition PushLiteralValue (prc : Process) (op : OpCode)
  : Run (Process * option goError) :=
  match OpData op with
  | None => Panicked BadTypeAssertion
  | Some v => push prc (Some v)
  end.

(** [func AdditionOperation(prc *Process, op *OpCode) (err error)];
    [left_] and [right_] are the [left] and [right] of the source. *)
Definition AdditionOperation (prc : Process) (op : OpCode)
  : Run (Process * option goError) :=
  '(prc, left_, err) <- pop prc ;;
  match err with
  | Some e => Done (prc, Some e)
  | None =>
    '(prc, right_, err) <- pop prc ;;
    match err with
    | Some e => Done (prc, Some e)
    | None =>
      l <- deref left_ ;;
      res <- match l with
             | IntegerType a =>
               r <- deref right_ ;;
               match r with
               | IntegerType b => Done (IntegerType (wrap64 (a + b)))
               | _ => Done UndefinedType
               end
             | _ => Done UndefinedType
             end ;;
      push prc (Some res)
    end
  end.

(** [op.ExecFn(prc, op)] *)
Definition call (fn : OpCodeFn) (prc : Process) (op : OpCode)
  : Run (Process * option goError) :=
  match fn with
  | PushLiteralValueFn => PushLiteralValue prc op
  | AdditionOperationFn => AdditionOperation prc op
  | Foreign f =>
    match f (LineNumber op) (OpData op) with
    | inl p => Panicked p
    | inr err => Done (prc, err)
    end
  end.

(** How the loop of [Exec] ends: it runs out of runway, or a behaviour
    returns an error. *)
Inductive LoopEnd :=
| Break (prc : Process)
| Failed (e : goError).

(** The [for] loop of [Exec].  [ran] records, in order, the program counter
    of every instruction invoked so far; it is not part of the Go state. *)
Fixpoint ExecLoop (fuel : nat) (prc : Process) (ran : list Z)
  : list Z * Run LoopEnd :=
  match fuel with
  | O => (ran, Starved)
  | S fuel' =>
    let pc0 := pc prc in
    match deref (body prc) with
    | Done b =>
      if (pc0 <? 0) || (pc0 >=? len (Code b)) then (ran, Done (Break prc))
      else
        match idx (Code b) pc0 with
        | Done op =>
          match call (ExecFn op) prc op with
          | Done (prc', Some e) => (ran ++ [pc0], Done (Failed e))
          | Done (prc', None) =>
            ExecLoop fuel' (set_pc prc' (pc prc' + 1)) (ran ++ [pc0])
          | Panicked p => (ran ++ [pc0], Panicked p)
          | Starved => (ran ++ [pc0], Starved)
          end
        | Panicked p => (ran, Panicked p)
        | Starved => (ran, Starved)
        end
    | Panicked p => (ran, Panicked p)
    | Starved => (ran, Starved)
    end
  end.

(** The process as [Exec] sets it up before the loop. *)
Definition start (fn : Function) (prc : Process) : Process :=
  {| body := Some fn; pc := 0; stack := repeat None 16; sp := 0 |}.

(** [func (body *Function) Exec(prc *Process) (ret types.DataType, err error)],
    together with the instructions it invoked.  Every pass of the loop but the
    last invokes one instruction of [Code], so [length Code + 1] passes are
    enough ([Exec_not_starved]). *)
Definition ExecTrace (fn : Function) (prc : Process)
  : list Z * Run (option DataType * option goError) :=
  let prc := start fn prc in
  let '(ran, r) := ExecLoop (S (List.length (Code fn))) prc [] in
  (ran,
   e <- r ;;
   match e with
   | Failed err => Done (None, Some err)
   | Break prc =>
     if sp prc >? 0 then
       p <- idx (stack prc) (sp prc - 1) ;;
       v <- deref p ;;
       Done (Some v, None)
     else Done (Some Undefined, None)
   end).

Definition Exec (fn : Function) (prc : Process)
  : Run (option DataType * option goError) :=
  snd (ExecTrace fn prc).

End Engine.

(** ** Bytes and Go strings *)

Definition Z_of_char (b : Byte.byte) : Z := Z.of_N (Byte.to_N b).

Definition char_of_Z (z : Z) : option Byte.byte :=
  if (0 <=? z) && (z <? 256) then Byte.of_N (Z.to_N z) else None.

(** ["a"%c] is the byte of the character, as Go's ['a']. *)
Declare Scope gochar_scope.
Delimit Scope gochar_scope with c.
String Notation Z Z_of_char char_of_Z : gochar_scope.

Abbreviation NUL := 0 (only parsing).
Abbreviation BS := 8 (only parsing).
Abbreviation TAB := 9 (only parsing).
Abbreviation LF := 10 (only parsing).
Abbreviation VT := 11 (only parsing).
Abbreviation FF := 12 (only parsing).
Abbreviation CR := 13 (only parsing).
Abbreviation DQUOTE := 34 (only parsing).

(** [[]byte(s)] *)
Fixpoint bytesOf (s : string) : list Z :=
  match s with
  | EmptyString => []
  | String a t => Z.of_N (N_of_ascii a) :: bytesOf t
  end.

(** [string(b)] for a byte slice [b] *)
Fixpoint stringOf (b : list Z) : string :=
  match b with
  | [] => EmptyString
  | c :: t => String (ascii_of_N (Z.to_N c)) (stringOf t)
  end.

(** [bytes.Equal] *)
Fixpoint bytesEqual (a b : list Z) : bool :=
  match a, b with
  | [], [] => true
  | x :: a', y :: b' => (x =? y) && bytesEqual a' b'
  | _, _ => false
  end.

(** The part of [s] from index [i] on, for the loops that read [s[i]],
    [s[i+1]], ... in turn; empty where [s[i]] is out of range. *)
Definition from (s : list Z) (i : Z) : list Z :=
  if i <? 0 then [] else skipn (Z.to_nat i) s.

(** [[]byte(string(r))] for a rune [r]: its UTF-8 encoding, U+FFFD for a
    surrogate or a value outside Unicode. *)
Definition utf8 (r : Z) : list Z :=
  if (r <? 0) || (r >? 1114111) || ((55296 <=? r) && (r <=? 57343))
  then [239; 191; 189]
  else if r <? 128 then [r]
  else if r <? 2048 then
    [Z.lor 192 (Z.shiftr r 6); Z.lor 128 (Z.land r 63)]
  else if r <? 65536 then
    [Z.lor 224 (Z.shiftr r 12);
     Z.lor 128 (Z.land (Z.shiftr r 6) 63);
     Z.lor 128 (Z.land r 63)]
  else
    [Z.lor 240 (Z.shiftr r 18);
     Z.lor 128 (Z.land (Z.shiftr r 12) 63);
     Z.lor 128 (Z.land (Z.shiftr r 6) 63);
     Z.lor 128 (Z.land r 63)].

(** ** The conversions taken from Go's strconv *)

Module Strconv.

Definition isDigit (c : Z) : bool := ("0"%c <=? c) && (c <=? "9"%c).

Definition syntaxError (fn : string) (s : list Z) : NumError :=
  {| Func := fn; Num := s; Err := ErrSyntax |}.

Definition rangeError (fn : string) (s : list Z) : NumError :=
  {| Func := fn; Num := s; Err := ErrRange |}.

Definition maxUint64 : Z := 2 ^ 64 - 1.

(** The digit loop of [strconv.ParseUint(s, 10, 64)]: a byte that is no
    decimal digit is a syntax error, a value past [maxUint64] a range error,
    whichever comes first. *)
Fixpoint parseUintLoop (s : list Z) (n : Z) : Z + NumErrKind :=
  match s with
  | [] => inl n
  | c :: t =>
    if isDigit c then
      if n >=? maxUint64 / 10 + 1 then inr ErrRange
      else
        let n1 := n * 10 + (c - "0"%c) in
        if n1 >? maxUint64 then inr ErrRange else parseUintLoop t n1
    else inr ErrSyntax
  end.

Definition parseUint (s : list Z) : Z + NumErrKind :=
  match s with
  | [] => inr ErrSyntax
  | _ => parseUintLoop s 0
  end.

(** [strconv.ParseInt(s, 10, 64)], after the documentation and the sources
    of the Go library. *)
Definition ParseInt (s : list Z) : Z + NumError :=
  match s with
  | [] => inr (syntaxError "ParseInt" s)
  | c :: t =>
    let neg := c =? "-"%c in
    let digits := if (c =? "+"%c) || (c =? "-"%c) then t else s in
    let cutoff := 2 ^ 63 in
    match parseUint digits with
    | inr ErrSyntax => inr (syntaxError "ParseInt" s)
    | inr ErrRange => inr (rangeError "ParseInt" s)
    | inl un =>
      if negb neg && (un >=? cutoff) then inr (rangeError "ParseInt" s)
      else if neg && (un >? cutoff) then inr (rangeError "ParseInt" s)
      else inl (if neg then - un else un)
    end
  end.

(** A run of decimal digits: the value accumulated on [acc], how many digits
    were read, and what follows them. *)
Fixpoint digitsOf (s : list Z) (acc n : Z) : Z * Z * list Z :=
  match s with
  | c :: t =>
    if isDigit c then digitsOf t (acc * 10 + (c - "0"%c)) (n + 1)
    else (acc, n, s)
  | [] => (acc, n, s)
  end.

Definition signOf (s : list Z) : bool * list Z :=
  match s with
  | c :: t =>
    if c =? "+"%c then (false, t)
    else if c =? "-"%c then (true, t)
    else (false, s)
  | [] => (false, s)
  end.

(** The decimal floating-point syntax [strconv.ParseFloat] accepts: an
    optional sign, digits with at most one point and at least one digit, an
    optional exponent [e] or [E] with an optional sign and at least one digit,
    and nothing after it.  The result is the sign, the digits as an integer
    [m] and the power of ten [e], for the number [m * 10 ^ e].  The other
    forms of the library (infinities, NaN, hexadecimal mantissas, digit
    separators) need bytes the scanner never passes on. *)
Definition readFloat (s : list Z) : option (bool * Z * Z) :=
  let '(neg, s1) := signOf s in
  let '(m1, n1, s2) := digitsOf s1 0 0 in
  let '(m2, n2, s3) :=
    match s2 with
    | c :: t => if c =? "."%c then digitsOf t m1 0 else (m1, 0, s2)
    | [] => (m1, 0, s2)
    end in
  if n1 + n2 =? 0 then None
  else
    match s3 with
    | [] => Some (neg, m2, - n2)
    | c :: t =>
      if (c =? "e"%c) || (c =? "E"%c) then
        let '(eneg, s4) := signOf t in
        let '(e, ne, s5) := digitsOf s4 0 0 in
        if ne =? 0 then None
        else
          match s5 with
          | [] => Some (neg, m2, (if eneg then - e else e) - n2)
          | _ :: _ => None
          end
      else None
    end.

(** The binary64 nearest to [m * 10 ^ e] (ties to even) for [0 <= m], with
    the sign [neg]; an infinity past the largest finite value. *)
Definition nearest64 (neg : bool) (m e : Z) : spec_float :=
  if m <=? 0 then S754_zero neg
  else if 0 <=? e then
    match m * 10 ^ e with
    | Zpos p => binary_round 53 1024 neg p 0
    | _ => S754_zero neg
    end
  else
    let d := 10 ^ (- e) in
    let k := Z.max 0 (64 + Z.log2 d - Z.log2 m) in
    let n := m * 2 ^ k in
    let q := n / d in
    let r := n mod d in
    let l := if r =? 0 then loc_Exact else loc_Inexact (2 * r ?= d) in
    binary_round_aux 53 1024 neg q (- k) l.

(** [strconv.ParseFloat(s, 64)] on the decimal forms. *)
Definition ParseFloat (s : list Z) : spec_float + NumError :=
  match readFloat s with
  | None => inr (syntaxError "ParseFloat" s)
  | Some (neg, m, e) =>
    match nearest64 neg m e with
    | S754_infinity _ => inr (rangeError "ParseFloat" s)
    | f => inl f
    end
  end.

End Strconv.

(** ** Package parser: the lexical scanner *)

Module Parser.

Import Engine.

(** Modelled from the spec: the token kinds are constants of the generated
    grammar ([grammar.go], not part of the sources at hand), one distinct
    positive integer per [GTOK_] name; [T0] is the integer 0, which [lex]
    returns at the end of input and stores for a plain [=]. *)
Inductive Token :=
| T0
| GTOK_ERROR | GTOK_IDENTIFIER | GTOK_LITERAL | GTOK_REGEXP | GTOK_ASSIGNOP
| GTOK_BREAK | GTOK_CASE | GTOK_CATCH | GTOK_CLASS | GTOK_CONST
| GTOK_CONTINUE | GTOK_DEBUGGER | GTOK_DEFAULT | GTOK_DELETE | GTOK_DO
| GTOK_ELSE | GTOK_EXPORT | GTOK_EXTENDS | GTOK_FINALLY | GTOK_FOR
| GTOK_FUNCTION | GTOK_IF | GTOK_IMPORT | GTOK_IN | GTOK_INSTANCEOF
| GTOK_LET | GTOK_NEW | GTOK_RETURN | GTOK_SUPER | GTOK_SWITCH | GTOK_THIS
| GTOK_THROW | GTOK_TRY | GTOK_TYPEOF | GTOK_VAR | GTOK_VOID | GTOK_WHILE
| GTOK_WITH | GTOK_YIELD
| GTOK_AWAIT | GTOK_ENUM | GTOK_IMPLEMENTS | GTOK_INTERFACE | GTOK_PACKAGE
| GTOK_PRIVATE | GTOK_PROTECTED | GTOK_PUBLIC
| GTOK_NULL | GTOK_TRUE | GTOK_FALSE
| GTOK_LC | GTOK_RC | GTOK_LP | GTOK_RP | GTOK_LB | GTOK_RB | GTOK_DOT
| GTOK_SEMI | GTOK_COMMA | GTOK_TILDE | GTOK_QMARK | GTOK_COLON
| GTOK_LTEQ | GTOK_LTLT | GTOK_LT | GTOK_GTEQ | GTOK_GTGTGT | GTOK_GTGT
| GTOK_GT | GTOK_EQEQEQ | GTOK_EQEQ | GTOK_REGEQ | GTOK_NOTEQEQ | GTOK_NOTEQ
| GTOK_REGNOTEQ | GTOK_NOT | GTOK_INCR | GTOK_ADD | GTOK_DECR | GTOK_SUB
| GTOK_MULT | GTOK_DIV | GTOK_MOD | GTOK_ANDAND | GTOK_AND | GTOK_OROR
| GTOK_OR | GTOK_XOR.

Inductive ParseType :=
| PARSED_UNDEFINED
| PARSED_IDENTIFIER
| PARSED_LITERAL
| PARSED_REGEXP.

(** [type parsingContext struct], [ctxBody] being its field [body]. *)
Record parsingContext := { ctxBody : Function }.

(** Modelled from the spec: [gesSymType] is the semantic value of the
    generated grammar, with the fields the scanner and the compiler use.
    [literal] is an interface value, nil until a literal is scanned. *)
Record gesSymType := {
  parseType : ParseType;
  identifier : string;
  literal : option DataType;
  assignOp : Token;
  symCtx : option parsingContext
}.

Definition set_parseType (lval : gesSymType) (p : ParseType) : gesSymType :=
  {| parseType := p; identifier := identifier lval; literal := literal lval;
     assignOp := assignOp lval; symCtx := symCtx lval |}.

Definition set_identifier (lval : gesSymType) (s : string) : gesSymType :=
  {| parseType := parseType lval; identifier := s; literal := literal lval;
     assignOp := assignOp lval; symCtx := symCtx lval |}.

Definition set_literal (lval : gesSymType) (v : DataType) : gesSymType :=
  {| parseType := parseType lval; identifier := identifier lval;
     literal := Some v; assignOp := assignOp lval; symCtx := symCtx lval |}.

Definition set_assignOp (lval : gesSymType) (t : Token) : gesSymType :=
  {| parseType := parseType lval; identifier := identifier lval;
     literal := literal lval; assignOp := t; symCtx := symCtx lval |}.

Definition set_symCtx (lval : gesSymType) (c : parsingContext) : gesSymType :=
  {| parseType := parseType lval; identifier := identifier lval;
     literal := literal lval; assignOp := assignOp lval; symCtx := Some c |}.

(** The zero value [var lval gesSymType]. *)
Definition zeroSym : gesSymType :=
  {| parseType := PARSED_UNDEFINED; identifier := ""; literal := None;
     assignOp := T0; symCtx := None |}.

(** [type gesLex struct]: [error] is [*string], nil until a message is
    recorded.  The methods call their receiver [ctx]; here it is [lx], [ctx]
    being the field. *)
Record gesLex := {
  source : list Z;
  offset : Z;
  lineNumber : Z;
  regexValid : bool;
  error : option message;
  ctx : parsingContext
}.

Definition set_offset (lx : gesLex) (n : Z) : gesLex :=
  {| source := source lx; offset := n; lineNumber := lineNumber lx;
     regexValid := regexValid lx; error := error lx; ctx := ctx lx |}.

Definition set_lineNumber (lx : gesLex) (n : Z) : gesLex :=
  {| source := source lx; offset := offset lx; lineNumber := n;
     regexValid := regexValid lx; error := error lx; ctx := ctx lx |}.

Definition set_regexValid (lx : gesLex) (b : bool) : gesLex :=
  {| source := source lx; offset := offset lx; lineNumber := lineNumber lx;
     regexValid := b; error := error lx; ctx := ctx lx |}.

Definition set_error (lx : gesLex) (m : message) : gesLex :=
  {| source := source lx; offset := offset lx; lineNumber := lineNumber lx;
     regexValid := regexValid lx; error := Some m; ctx := ctx lx |}.

(** [func newLexer(source string) *gesLex] *)
Definition newLexer (src : string) : gesLex :=
  {| source := bytesOf src ++ [NUL];
     offset := 0;
     lineNumber := 1;
     regexValid := false;
     error := None;
     ctx := {| ctxBody := {| Name := ""; Code := [] |} |} |}.

(** [var keywords = []struct { word string; token int }] *)
Record keyword := kw { word : string; token : Token }.

Definition keywords : list keyword :=
  [ kw "break" GTOK_BREAK; kw "case" GTOK_CASE; kw "catch" GTOK_CATCH;
    kw "class" GTOK_CLASS; kw "const" GTOK_CONST;
    kw "continue" GTOK_CONTINUE; kw "debugger" GTOK_DEBUGGER;
    kw "default" GTOK_DEFAULT; kw "delete" GTOK_DELETE; kw "do" GTOK_DO;
    kw "else" GTOK_ELSE; kw "export" GTOK_EXPORT; kw "extends" GTOK_EXTENDS;
    kw "finally" GTOK_FINALLY; kw "for" GTOK_FOR;
    kw "function" GTOK_FUNCTION; kw "if" GTOK_IF; kw "import" GTOK_IMPORT;
    kw "in" GTOK_IN; kw "instanceof" GTOK_INSTANCEOF; kw "let" GTOK_LET;
    kw "new" GTOK_NEW; kw "return" GTOK_RETURN; kw "super" GTOK_SUPER;
    kw "switch" GTOK_SWITCH; kw "this" GTOK_THIS; kw "throw" GTOK_THROW;
    kw "try" GTOK_TRY; kw "typeof" GTOK_TYPEOF; kw "var" GTOK_VAR;
    kw "void" GTOK_VOID; kw "while" GTOK_WHILE; kw "with" GTOK_WITH;
    kw "yield" GTOK_YIELD;
    kw "await" GTOK_AWAIT; kw "enum" GTOK_ENUM;
    kw "implements" GTOK_IMPLEMENTS; kw "interface" GTOK_INTERFACE;
    kw "package" GTOK_PACKAGE; kw "private" GTOK_PRIVATE;
    kw "protected" GTOK_PROTECTED; kw "public" GTOK_PUBLIC;
    kw "null" GTOK_NULL; kw "true" GTOK_TRUE; kw "false" GTOK_FALSE ].

(** [func isHex(ch byte) bool] *)
Definition isHex (ch : Z) : bool :=
  ((ch >=? "0"%c) && (ch <=? "9"%c))
  || ((ch >=? "a"%c) && (ch <=? "f"%c))
  || ((ch >=? "A"%c) && (ch <=? "F"%c)).

(** [func hexToInt(ch byte) int64] *)
Definition hexToInt (ch : Z) : Z :=
  if (ch >=? "0"%c) && (ch <=? "9"%c) then ch - 48
  else if (ch >=? "a"%c) && (ch <=? "f"%c) then ch - 87
  else if (ch >=? "A"%c) && (ch <=? "F"%c) then ch - 55
  else 0.

(** One pass of the [for true] loop of [lex] either starts over
    ([continue]) or returns a token. *)
Inductive Step :=
| Continue (lx : gesLex)
| Return (tok : Token) (lx : gesLex) (lval : gesSymType).

(** The scan to the end of a [//] comment: the first offset at or after
    [off] holding NUL, CR or LF; [l] is the source from [off] on. *)
Fixpoint skipLine (l : list Z) (off : Z) : Run Z :=
  match l with
  | [] => Panicked IndexOutOfRange
  | c :: t =>
    if (c =? NUL) || (c =? CR) || (c =? LF) then Done off
    else skipLine t (off + 1)
  end.

Definition lineComment (lx : gesLex) : Run Step :=
  let lx := set_offset lx (offset lx + 2) in
  off <- skipLine (from (source lx) (offset lx)) (offset lx) ;;
  let lx := set_offset lx off in
  c <- idx (source lx) (offset lx) ;;
  lx <- (if c =? CR then
           n <- idx (source lx) (offset lx + 1) ;;
           if n =? LF then Done (set_offset lx (offset lx + 1)) else Done lx
         else Done lx) ;;
  c <- idx (source lx) (offset lx) ;;
  if negb (c =? NUL) then
    let lx := set_lineNumber lx (lineNumber lx + 1) in
    Done (Continue (set_offset lx (offset lx + 1)))
  else Done (Continue lx).

(** The scan through a block comment, to the offset of the closing [*/] or
    of the NUL that ends the source, with the line counter. [source[off+1]]
    is read for [*] (the loop test) and for CR (the loop body) only. *)
Fixpoint skipBlock (l : list Z) (off line : Z) : Run (Z * Z) :=
  match l with
  | [] => Panicked IndexOutOfRange
  | c :: t =>
    if c =? NUL then Done (off, line)
    else if c =? "*"%c then
      match t with
      | [] => Panicked IndexOutOfRange
      | d :: _ =>
        if d =? "/"%c then Done (off, line) else skipBlock t (off + 1) line
      end
    else if c =? CR then
      match t with
      | [] => Panicked IndexOutOfRange
      | d :: t' =>
        if d =? LF then skipBlock t' (off + 2) (line + 1)
        else skipBlock t (off + 1) (line + 1)
      end
    else skipBlock t (off + 1) (if c =? LF then line + 1 else line)
  end.

Definition blockComment (lx : gesLex) (lval : gesSymType) : Run Step :=
  let lx := set_offset lx (offset lx + 2) in
  '(off, line) <-
    skipBlock (from (source lx) (offset lx)) (offset lx) (lineNumber lx) ;;
  let lx := set_lineNumber (set_offset lx off) line in
  c <- idx (source lx) (offset lx) ;;
  if c =? NUL then
    let lx := set_error lx (Text "Unterminated multi-line comment") in
    Done (Return GTOK_ERROR lx lval)
  else Done (Continue (set_offset lx (offset lx + 2))).

(** The test that ends an identifier. *)
Definition identStop (ch : Z) : bool :=
  ((ch <? "a"%c) || (ch >? "z"%c)) && ((ch <? "A"%c) || (ch >? "Z"%c))
  && ((ch <? "0"%c) || (ch >? "9"%c))
  && negb (ch =? "$"%c) && negb (ch =? "_"%c).

Fixpoint identEnd (l : list Z) (eso : Z) : Run Z :=
  match l with
  | [] => Panicked IndexOutOfRange
  | ch :: t =>
    if ch =? NUL then Done eso
    else if identStop ch then Done eso
    else identEnd t (eso + 1)
  end.

(** The [range keywords] loop. *)
Fixpoint lookupKeyword (kws : list keyword) (ln : Z) (text : list Z)
  : option Token :=
  match kws with
  | [] => None
  | keywd :: rest =>
    if (len (bytesOf (word keywd)) =? ln)
       && bytesEqual text (bytesOf (word keywd))
    then Some (token keywd)
    else lookupKeyword rest ln text
  end.

Definition lexWord (lx : gesLex) (lval : gesSymType) : Run Step :=
  eso <- identEnd (from (source lx) (offset lx)) (offset lx) ;;
  let ln := eso - offset lx in
  text <- slice (source lx) (offset lx) eso ;;
  match lookupKeyword keywords ln text with
  | Some tok =>
    let lx := set_offset lx eso in
    let lx := match tok with
              | GTOK_CASE => set_regexValid lx true
              | _ => lx
              end in
    Done (Return tok lx lval)
  | None =>
    let lval := set_parseType lval PARSED_IDENTIFIER in
    let lval := set_identifier lval (stringOf text) in
    Done (Return GTOK_IDENTIFIER (set_offset lx eso) lval)
  end.

(** [ival << n] on an [int64]. *)
Definition shl64 (ival n : Z) : Z := wrap64 (Z.shiftl ival n).

Definition isDecimal (ch : Z) : bool := (ch >=? "0"%c) && (ch <=? "9"%c).

Definition isOctal (ch : Z) : bool := (ch >=? "0"%c) && (ch <=? "7"%c).

(** The loop "Process digits (potentially including hex)": [ch] is
    [source[eso]] and [l] the source after it; the result is the final [eso],
    [ival] and [ch]. *)
Fixpoint digitRun (radix : Z) (l : list Z) (ch eso ival : Z)
  : Run (Z * Z * Z) :=
  if isHex ch then
    if radix =? 16 then
      match l with
      | [] => Panicked IndexOutOfRange
      | c :: t =>
        digitRun radix t c (eso + 1) (Z.lor (shl64 ival 4) (hexToInt ch))
      end
    else if radix =? 8 then
      if isOctal ch then
        match l with
        | [] => Panicked IndexOutOfRange
        | c :: t =>
          digitRun radix t c (eso + 1) (Z.lor (shl64 ival 3) (ch - 48))
        end
      else Done (eso, ival, ch)
    else if (ch <? "0"%c) || (ch >? "9"%c) then Done (eso, ival, ch)
    else
      match l with
      | [] => Panicked IndexOutOfRange
      | c :: t => digitRun radix t c (eso + 1) ival
      end
  else Done (eso, ival, ch).

Definition floatChar (ch : Z) : bool :=
  isDecimal ch || (ch =? "."%c) || (ch =? "e"%c) || (ch =? "E"%c)
  || (ch =? "-"%c).

(** The loop "Assume slightly well-behaved code...". *)
Fixpoint floatRun (l : list Z) (ch eso : Z) : Run Z :=
  if floatChar ch then
    match l with
    | [] => Panicked IndexOutOfRange
    | c :: t => floatRun t c (eso + 1)
    end
  else Done eso.

Definition literalToken (lx : gesLex) (lval : gesSymType) (eso : Z)
  (v : DataType) : Step :=
  let lval := set_parseType lval PARSED_LITERAL in
  let lval := set_literal lval v in
  Return GTOK_LITERAL (set_offset lx eso) lval.

Definition lexNumber (lx : gesLex) (lval : gesSymType) (ch nch : Z)
  : Run Step :=
  '(lx, ch, radix) <-
    (if ch =? "0"%c then
       let lx := set_offset lx (offset lx + 1) in
       ch <- idx (source lx) (offset lx) ;;
       if (nch =? "x"%c) || (nch =? "X"%c) then
         let lx := set_offset lx (offset lx + 1) in
         ch <- idx (source lx) (offset lx) ;;
         Done (lx, ch, 16)
       else if isDecimal ch then Done (lx, ch, 8)
       else Done (lx, ch, 10)
     else Done (lx, ch, 10)) ;;
  let eso := offset lx in
  '(eso, ival, ch) <- digitRun radix (from (source lx) (eso + 1)) ch eso 0 ;;
  let '(lx, eso, radix, ch) :=
    if eso =? offset lx then
      if radix =? 16 then
        (set_offset lx (offset lx - 2), eso - 1, 10, "x"%c)
      else (set_offset lx (offset lx - 1), eso, radix, ch)
    else (lx, eso, radix, ch) in
  if (radix =? 8) || (radix =? 16) then
    Done (literalToken lx lval eso (IntegerType ival))
  else if negb (ch =? "."%c) && negb (ch =? "e"%c) && negb (ch =? "E"%c) then
    sval <- slice (source lx) (offset lx) eso ;;
    match Strconv.ParseInt sval with
    | inr err =>
      let lx := set_error lx (TextNumError "Invalid literal integer: " err) in
      Done (Return GTOK_ERROR lx lval)
    | inl ival => Done (literalToken lx lval eso (IntegerType ival))
    end
  else
    eso <- floatRun (from (source lx) (eso + 1)) ch eso ;;
    sval <- slice (source lx) (offset lx) eso ;;
    match Strconv.ParseFloat sval with
    | inr err =>
      let lx := set_error lx (TextNumError "Invalid literal float: " err) in
      Done (Return GTOK_ERROR lx lval)
    | inl dval => Done (literalToken lx lval eso (NumberType dval))
    end.

(** How the loop over the body of a string literal ends: at the closing
    quote, or with an error message; either way with the line counter as
    the escaped line breaks left it. *)
Inductive StrEnd :=
| Closed (eso line : Z) (str : list Z)
| StrError (line : Z) (msg : string).

(** The loop [for ch != qch] of a string literal: [l] is the source from [eso]
    on.  [wch] starts as a space and every escape that does not fail appends
    [string(wch)]. *)
Fixpoint strLoop (l : list Z) (qch eso line : Z) (str : list Z)
  : Run StrEnd :=
  match l with
  | [] => Panicked IndexOutOfRange
  | ch :: l1 =>
    if ch =? qch then Done (Closed eso line str)
    else if (ch =? CR) || (ch =? LF) || (ch =? NUL) then
      Done (StrError line "Unterminated string literal")
    else if ch =? "\"%c then
      let wch := " "%c in
      match l1 with
      | [] => Panicked IndexOutOfRange
      | e :: l2 =>
        if e =? "b"%c then strLoop l2 qch (eso + 2) line (str ++ utf8 BS)
        else if e =? "f"%c then strLoop l2 qch (eso + 2) line (str ++ utf8 FF)
        else if e =? "n"%c then strLoop l2 qch (eso + 2) line (str ++ utf8 LF)
        else if e =? "t"%c then strLoop l2 qch (eso + 2) line (str ++ utf8 TAB)
        else if e =? "v"%c then strLoop l2 qch (eso + 2) line (str ++ utf8 VT)
        else if e =? "\"%c then
          strLoop l2 qch (eso + 2) line (str ++ utf8 "\"%c)
        else if e =? "'"%c then
          strLoop l2 qch (eso + 2) line (str ++ utf8 "'"%c)
        else if e =? DQUOTE then
          strLoop l2 qch (eso + 2) line (str ++ utf8 DQUOTE)
        else if e =? CR then
          match l2 with
          | [] => Panicked IndexOutOfRange
          | n :: l3 =>
            if n =? LF then
              strLoop l3 qch (eso + 3) (line + 1) (str ++ utf8 wch)
            else strLoop l2 qch (eso + 2) (line + 1) (str ++ utf8 wch)
          end
        else if e =? LF then
          strLoop l2 qch (eso + 2) (line + 1) (str ++ utf8 wch)
        else if (e =? "x"%c) || (e =? "X"%c) then
          match l2 with
          | [] => Panicked IndexOutOfRange
          | h1 :: l3 =>
            if negb (isHex h1) then
              Done (StrError line "Invalid hex character sequence")
            else
              match l3 with
              | [] => Panicked IndexOutOfRange
              | h2 :: l4 =>
                if negb (isHex h2) then
                  Done (StrError line "Invalid hex character sequence")
                else
                  let wch := Z.lor (Z.shiftl (hexToInt h1) 4) (hexToInt h2) in
                  strLoop l4 qch (eso + 4) line (str ++ utf8 wch)
              end
          end
        else if (e =? "u"%c) || (e =? "U"%c) then
          match l2 with
          | [] => Panicked IndexOutOfRange
          | h1 :: l3 =>
            if negb (isHex h1) then
              Done (StrError line "Invalid Unicode character sequence")
            else
              match l3 with
              | [] => Panicked IndexOutOfRange
              | h2 :: l4 =>
                if negb (isHex h2) then
                  Done (StrError line "Invalid Unicode character sequence")
                else
                  match l4 with
                  | [] => Panicked IndexOutOfRange
                  | h3 :: l5 =>
                    if negb (isHex h3) then
                      Done (StrError line "Invalid Unicode character sequence")
                    else
                      match l5 with
                      | [] => Panicked IndexOutOfRange
                      | h4 :: l6 =>
                        if negb (isHex h4) then
                          Done (StrError line
                                  "Invalid Unicode character sequence")
                        else
                          let wch :=
                            Z.lor (Z.lor (Z.lor (Z.shiftl (hexToInt h1) 12)
                                                (Z.shiftl (hexToInt h2) 8))
                                         (Z.shiftl (hexToInt h3) 4))
                                  (hexToInt h4) in
                          strLoop l6 qch (eso + 6) line (str ++ utf8 wch)
                      end
                  end
              end
          end
        else if isOctal e then
          let wch := e - 48 in
          match l2 with
          | [] => Panicked IndexOutOfRange
          | d2 :: l3 =>
            if isOctal d2 then
              let wch := Z.lor (Z.shiftl wch 3) (d2 - 48) in
              match l3 with
              | [] => Panicked IndexOutOfRange
              | d3 :: l4 =>
                if isOctal d3 then
                  let wch := Z.lor (Z.shiftl wch 3) (d3 - 48) in
                  strLoop l4 qch (eso + 4) line (str ++ utf8 wch)
                else strLoop l3 qch (eso + 3) line (str ++ utf8 wch)
              end
            else strLoop l2 qch (eso + 2) line (str ++ utf8 wch)
          end
        else Done (StrError line "Invalid escape character sequence")
      end
    else strLoop l1 qch (eso + 1) line (str ++ [ch])
  end.

Definition lexString (lx : gesLex) (lval : gesSymType) (ch : Z) : Run Step :=
  let qch := ch in
  let eso := offset lx + 1 in
  r <- strLoop (from (source lx) eso) qch eso (lineNumber lx) [] ;;
  match r with
  | StrError line msg =>
    let lx := set_lineNumber lx line in
    Done (Return GTOK_ERROR (set_error lx (Text msg)) lval)
  | Closed eso line str =>
    let lx := set_lineNumber lx line in
    let eso := eso + 1 in
    Done (literalToken lx lval eso (StringType (stringOf str)))
  end.

(** The loop [for ch != '/'] of a regex literal: the offset of the closing
    slash, or [None] for a pattern that is not terminated. *)
Fixpoint regexLoop (l : list Z) (eso : Z) : Run (option Z) :=
  match l with
  | [] => Panicked IndexOutOfRange
  | ch :: l1 =>
    if ch =? "/"%c then Done (Some eso)
    else if (ch =? CR) || (ch =? LF) || (ch =? NUL) then Done None
    else if ch =? "\"%c then
      match l1 with
      | [] => Panicked IndexOutOfRange
      | n :: l2 =>
        if negb (n =? NUL) then regexLoop l2 (eso + 2)
        else regexLoop l1 (eso + 1)
      end
    else regexLoop l1 (eso + 1)
  end.

Definition lexRegex (lx : gesLex) (lval : gesSymType) : Run Step :=
  let lx := set_offset lx (offset lx + 1) in
  let eso := offset lx in
  r <- regexLoop (from (source lx) eso) eso ;;
  match r with
  | None =>
    let lx := set_error lx (Text "Unterminated regex pattern") in
    Done (Return GTOK_ERROR lx lval)
  | Some eso =>
    let eso := eso + 1 in
    let lval := set_parseType lval PARSED_REGEXP in
    Done (Return GTOK_REGEXP (set_offset lx eso) lval)
  end.

(** The tail of [lex], "down to the nitty gritty operators": [eso] starts
    one past the leading byte and [token] as 0; an operator sets both, and a
    leading byte that starts none leaves [token] at 0. *)
Definition lexOperator (lx : gesLex) (lval : gesSymType) (ch nch : Z)
  : Run Step :=
  let eso := offset lx + 1 in
  let ret (lx : gesLex) (lval : gesSymType) (eso : Z) (token : Token) :=
    Done (Return token (set_offset lx eso) lval) in
  if ch =? "{"%c then ret lx lval eso GTOK_LC
  else if ch =? "}"%c then ret lx lval eso GTOK_RC
  else if ch =? "("%c then ret lx lval eso GTOK_LP
  else if ch =? ")"%c then ret lx lval eso GTOK_RP
  else if ch =? "["%c then ret lx lval eso GTOK_LB
  else if ch =? "]"%c then ret lx lval eso GTOK_RB
  else if ch =? "."%c then ret lx lval eso GTOK_DOT
  else if ch =? ";"%c then ret lx lval eso GTOK_SEMI
  else if ch =? ","%c then ret lx lval eso GTOK_COMMA
  else if ch =? "~"%c then ret lx lval eso GTOK_TILDE
  else if ch =? "?"%c then ret lx lval eso GTOK_QMARK
  else if ch =? ":"%c then ret lx lval eso GTOK_COLON
  else if ch =? "<"%c then
    if nch =? "="%c then ret lx lval (eso + 1) GTOK_LTEQ
    else if nch =? "<"%c then
      let eso := eso + 1 in
      nch <- idx (source lx) eso ;;
      if nch =? "="%c then
        ret lx (set_assignOp lval GTOK_LTLT) (eso + 1) GTOK_ASSIGNOP
      else ret lx lval eso GTOK_LTLT
    else ret lx lval eso GTOK_LT
  else if ch =? ">"%c then
    if nch =? "="%c then ret lx lval (eso + 1) GTOK_GTEQ
    else if nch =? ">"%c then
      let eso := eso + 1 in
      nch <- idx (source lx) eso ;;
      if nch =? ">"%c then
        let eso := eso + 1 in
        nch <- idx (source lx) eso ;;
        if nch =? "="%c then
          ret lx (set_assignOp lval GTOK_GTGTGT) (eso + 1) GTOK_ASSIGNOP
        else ret lx lval eso GTOK_GTGTGT
      else if nch =? "="%c then
        ret lx (set_assignOp lval GTOK_GTGT) (eso + 1) GTOK_ASSIGNOP
      else ret lx lval eso GTOK_GTGT
    else ret lx lval eso GTOK_GT
  else if ch =? "="%c then
    if nch =? "="%c then
      let eso := eso + 1 in
      nch <- idx (source lx) eso ;;
      if nch =? "="%c then ret lx lval (eso + 1) GTOK_EQEQEQ
      else ret lx lval eso GTOK_EQEQ
    else if nch =? "~"%c then
      ret (set_regexValid lx true) lval (eso + 1) GTOK_REGEQ
    else ret lx (set_assignOp lval T0) eso GTOK_ASSIGNOP
  else if ch =? "!"%c then
    if nch =? "="%c then
      let eso := eso + 1 in
      nch <- idx (source lx) eso ;;
      if nch =? "="%c then ret lx lval (eso + 1) GTOK_NOTEQEQ
      else ret lx lval eso GTOK_NOTEQ
    else if nch =? "~"%c then
      ret (set_regexValid lx true) lval (eso + 1) GTOK_REGNOTEQ
    else ret lx lval eso GTOK_NOT
  else if ch =? "+"%c then
    if nch =? "+"%c then ret lx lval (eso + 1) GTOK_INCR
    else if nch =? "="%c then
      ret lx (set_assignOp lval GTOK_ADD) (eso + 1) GTOK_ASSIGNOP
    else ret lx lval eso GTOK_ADD
  else if ch =? "-"%c then
    if nch =? "-"%c then ret lx lval (eso + 1) GTOK_DECR
    else if nch =? "="%c then
      ret lx (set_assignOp lval GTOK_SUB) (eso + 1) GTOK_ASSIGNOP
    else ret lx lval eso GTOK_SUB
  else if ch =? "*"%c then
    if nch =? "="%c then
      ret lx (set_assignOp lval GTOK_MULT) (eso + 1) GTOK_ASSIGNOP
    else ret lx lval eso GTOK_MULT
  else if ch =? "/"%c then
    if nch =? "="%c then
      ret lx (set_assignOp lval GTOK_DIV) (eso + 1) GTOK_ASSIGNOP
    else ret lx lval eso GTOK_DIV
  else if ch =? "%"%c then
    if nch =? "="%c then
      ret lx (set_assignOp lval GTOK_MOD) (eso + 1) GTOK_ASSIGNOP
    else ret lx lval eso GTOK_MOD
  else if ch =? "&"%c then
    if nch =? "&"%c then ret lx lval (eso + 1) GTOK_ANDAND
    else if nch =? "="%c then
      ret lx (set_assignOp lval GTOK_AND) (eso + 1) GTOK_ASSIGNOP
    else ret lx lval eso GTOK_AND
  else if ch =? "|"%c then
    if nch =? "|"%c then ret lx lval (eso + 1) GTOK_OROR
    else if nch =? "="%c then
      ret lx (set_assignOp lval GTOK_OR) (eso + 1) GTOK_ASSIGNOP
    else ret lx lval eso GTOK_OR
  else if ch =? "^"%c then
    if nch =? "="%c then
      ret lx (set_assignOp lval GTOK_XOR) (eso + 1) GTOK_ASSIGNOP
    else ret lx lval eso GTOK_XOR
  else
    (* token is still 0 *)
    Done (Return GTOK_ERROR lx lval).

(** One pass of the [for true] loop of [lex]. *)
Definition lexOnce (lx : gesLex) (lval : gesSymType) : Run Step :=
  ch <- idx (source lx) (offset lx) ;;
  if ch =? NUL then Done (Return T0 lx lval)
  else
    nch <- idx (source lx) (offset lx + 1) ;;
    (* Consume white space (non-Unicode) *)
    if (ch =? " "%c) || (ch =? TAB) then
      Done (Continue (set_offset lx (offset lx + 1)))
    else
      '(lx, ch) <-
        (if (ch =? CR) && (nch =? LF) then
           let lx := set_offset lx (offset lx + 1) in
           ch <- idx (source lx) (offset lx) ;;
           Done (lx, ch)
         else Done (lx, ch)) ;;
      if (ch =? CR) || (ch =? LF) then
        let lx := set_lineNumber lx (lineNumber lx + 1) in
        Done (Continue (set_offset lx (offset lx + 1)))
      else if (ch =? "/"%c) && (nch =? "/"%c) then lineComment lx
      else if (ch =? "/"%c) && (nch =? "*"%c) then blockComment lx lval
      else if ((ch >=? "a"%c) && (ch <=? "z"%c))
              || ((ch >=? "A"%c) && (ch <=? "Z"%c))
              || (ch =? "$"%c) || (ch =? "_"%c) then lexWord lx lval
      else if isDecimal ch || ((ch =? "."%c) && isDecimal nch) then
        lexNumber lx lval ch nch
      else if (ch =? DQUOTE) || (ch =? "'"%c) then lexString lx lval ch
      else if regexValid lx && (ch =? "/"%c) then lexRegex lx lval
      else lexOperator lx lval ch nch.

Fixpoint lexLoop (fuel : nat) (lx : gesLex) (lval : gesSymType)
  : Run (Token * gesLex * gesSymType) :=
  match fuel with
  | O => Starved
  | S fuel' =>
    match lexOnce lx lval with
    | Done (Continue lx') => lexLoop fuel' lx' lval
    | Done (Return tok lx' lval') => Done (tok, lx', lval')
    | Panicked p => Panicked p
    | Starved => Starved
    end
  end.

(** [func (ctx *gesLex) lex(lval *gesSymType) int].  A pass that starts over
    has moved [offset] forward, so one pass per byte of the source and one
    more are enough ([lex_not_starved]). *)
Definition lex (lx : gesLex) (lval : gesSymType)
  : Run (Token * gesLex * gesSymType) :=
  let lval := set_parseType lval PARSED_UNDEFINED in
  lexLoop (S (List.length (source lx))) lx lval.

(** [func (ctx *gesLex) Lex(lval *gesSymType) int] *)
Definition Lex (lx : gesLex) (lval : gesSymType)
  : Run (Token * gesLex * gesSymType) :=
  let origRegValid := regexValid lx in
  '(token, lx, lval) <- lex lx lval ;;
  let lx := if origRegValid then set_regexValid lx false else lx in
  let lval := set_symCtx lval (ctx lx) in
  Done (token, lx, lval).

(** [func (ctx *gesLex) Error(msg string)] *)
Definition Error (lx : gesLex) (msg : string) : gesLex :=
  set_error lx (Text msg).

Section Compiler.

(** [gesParse] is the parser goyacc generates from the grammar; neither is
    part of the sources at hand.  It is taken as it comes: from a scanner it
    returns its status and the scanner as the parse left it. *)
Variable gesParse : gesLex -> Run (Z * gesLex).

(** [func Parse(source string) (body *engine.Function, err error)] *)
Definition Parse (src : string) : Run (option Function * option goError) :=
  let lx := newLexer src in
  '(rc, lx) <- gesParse lx ;;
  if negb (rc =? 0) then
    match error lx with
    | Some msg => Done (None, Some msg)
    | None => Done (None, Some (Text "Unknown parsing error"))
    end
  else Done (Some (ctxBody (ctx lx)), None).

End Compiler.

(** The scanner after [n] calls of [Lex], with the token of the last call;
    [None] once a call has not returned. *)
Fixpoint lexN (n : nat) (lx : gesLex) (lval : gesSymType)
  : option (Token * gesLex * gesSymType) :=
  match n with
  | O => Some (T0, lx, lval)
  | S n' =>
    match lexN n' lx lval with
    | Some (_, lx, lval) =>
      match Lex lx lval with
      | Done r => Some r
      | _ => None
      end
    | None => None
    end
  end.

(** The same on a fresh scanner for [src]. *)
Definition scanned (src : string) (n : nat)
  : option (Token * gesLex * gesSymType) :=
  lexN n (newLexer src) zeroSym.

(** The tokens [Lex] returns from [lx] on, with their payload, up to the end
    of input or the first error token, at most [n] of them. *)
Fixpoint tokens (n : nat) (lx : gesLex) (lval : gesSymType)
  : list (Token * gesSymType) :=
  match n with
  | O => []
  | S n' =>
    match Lex lx lval with
    | Done (T0, _, _) => []
    | Done (GTOK_ERROR, _, lval') => [(GTOK_ERROR, lval')]
    | Done (tok, lx', lval') => (tok, lval') :: tokens n' lx' lval'
    | _ => []
    end
  end.

End Parser.

(** ** Package gescript: parse and execute *)

Module Gescript.

Import Engine Parser.

(** [type Script struct { body *engine.Function }] *)
Record Script := { scriptBody : option Function }.

Section Entry.

Variable gesParse : gesLex -> Run (Z * gesLex).

(** [func Parse(source string) (prg *Script, err error)] *)
Definition Parse (src : string) : Run (option Script * option goError) :=
  '(prsBody, err) <- Parser.Parse gesParse src ;;
  match err with
  | Some e => Done (None, Some e)
  | None => Done (Some {| scriptBody := prsBody |}, None)
  end.

(** [func (prg *Script) Run() (retval types.DataType, err error)] *)
Definition ScriptRun (prg : Script) : Run (option DataType * option goError) :=
  let ctx := newProcess in
  match scriptBody prg with
  | Some fn => Exec fn ctx
  | None => Panicked NilDereference
  end.

(** [func Run(source string) (retval types.DataType, err error)] *)
Definition Run (src : string) : Run (option DataType * option goError) :=
  '(script, err) <- Parse src ;;
  match err with
  | Some e => Done (None, Some e)
  | None => prg <- deref script ;; ScriptRun prg
  end.

End Entry.

End Gescript.

(** ** Notions of the specification *)

Import Engine.

(** [runs ops p p']: from process [p], the instructions [ops] are invoked one
    after the other, each exactly once, every one returns without a failure,
    and the program counter moves on by one after each; [p'] is the process
    they leave. *)
Inductive runs : list OpCode -> Process -> Process -> Prop :=
| runs_nil p : runs [] p p
| runs_cons op ops p p1 p' :
    call (ExecFn op) p op = Done (p1, None) ->
    runs ops (set_pc p1 (pc p1 + 1)) p' ->
    runs (op :: ops) p p'.

(** The value [Exec] is to return for the process the instructions leave:
    the one the stack top points to, or Undefined for an empty stack. *)
Definition topOrUndefined (p : Process) (v : DataType) : Prop :=
  if sp p >? 0
  then nth_error (stack p) (Z.to_nat (sp p - 1)) = Some (Some v)
  else v = Undefined.

(** What the addition instruction is to push for the operand popped first
    and the operand popped second. *)
Definition sumOf (first second : DataType) : DataType :=
  match first, second with
  | IntegerType a, IntegerType b => IntegerType (wrap64 (a + b))
  | _, _ => Undefined
  end.

(** The program counters [0, 1, ..., n-1]. *)
Definition counters (n : nat) : list Z := map Z.of_nat (seq 0 n).

(** The stack of a process at work: sixteen slots, [sp] within them, and a
    value behind every slot below [sp]. *)
Definition stack_ok (p : Process) : Prop :=
  List.length (stack p) = 16%nat
  /\ 0 <= sp p <= 16
  /\ forall i, 0 <= i < sp p ->
       exists v, nth_error (stack p) (Z.to_nat i) = Some (Some v).

(** Instructions and functions to run: a push of a literal, the addition,
    and a behaviour from outside the package that fails with [msg]. *)
Definition pushOp (v : DataType) : OpCode :=
  {| LineNumber := 1; ExecFn := PushLiteralValueFn; OpData := Some v |}.

Definition addOp : OpCode :=
  {| LineNumber := 1; ExecFn := AdditionOperationFn; OpData := None |}.

Definition failOp (msg : string) : OpCode :=
  {| LineNumber := 1;
     ExecFn := Foreign (fun _ _ => inr (Some (Text msg)));
     OpData := None |}.

Definition program (ops : list OpCode) : Function :=
  {| Name := ""; Code := ops |}.

Import Parser.

(** The tokens after which the scanner sets [regexValid]: the keyword
    [case], [=~] and [!~]. *)
Definition rearms (tok : Token) : bool :=
  match tok with
  | GTOK_CASE | GTOK_REGEQ | GTOK_REGNOTEQ => true
  | _ => false
  end.

(** The bytes [[A-Za-z0-9_$]] an identifier is made of. *)
Definition identByte (c : Z) : bool :=
  (("a"%c <=? c) && (c <=? "z"%c)) || (("A"%c <=? c) && (c <=? "Z"%c))
  || (("0"%c <=? c) && (c <=? "9"%c)) || (c =? "$"%c) || (c =? "_"%c).

(** The longest prefix of identifier bytes. *)
Fixpoint identRun (l : list Z) : list Z :=
  match l with
  | c :: t => if identByte c then c :: identRun t else []
  | [] => []
  end.

(** Whether the first byte, if any, is a hexadecimal digit. *)
Definition startsHex (l : list Z) : bool :=
  match l with
  | c :: _ => isHex c
  | [] => false
  end.

(** The value of a hexadecimal digit, told without the scanner: [0] to [9]
    for the decimal digits and [10] to [15] for the letters [a] to [f], a
    capital letter counting as its small one. *)
Definition smallLetter (c : Z) : Z :=
  if ("A"%c <=? c) && (c <=? "Z"%c) then c + 32 else c.

Definition hexDigitValue (c : Z) : Z :=
  let c := smallLetter c in
  if ("0"%c <=? c) && (c <=? "9"%c) then c - "0"%c else c - "a"%c + 10.

(** The base-16 reading of a run of digits, most significant digit first. *)
Definition hexValue (digits : list Z) : Z :=
  fold_left (fun acc c => 16 * acc + hexDigitValue c) digits 0.

(** [ival] as the hexadecimal loop of [lex] builds it from the digits. *)
Definition hexAcc (digits : list Z) (ival : Z) : Z :=
  fold_left (fun iv ch => Z.lor (shl64 iv 4) (hexToInt ch)) digits ival.

(** What a pass of the loop of [lex] keeps: the source, and the regex-valid
    flag but for the tokens that set it; a pass that starts over has moved
    forward. *)
Definition step_ok (lx : gesLex) (s : Step) : Prop :=
  match s with
  | Continue lx' =>
    source lx' = source lx /\ regexValid lx' = regexValid lx
    /\ offset lx < offset lx'
  | Return tok lx' _ =>
    source lx' = source lx /\ regexValid lx' = regexValid lx || rearms tok
  end.

(** The bytes a Rocq string cannot spell: line feed, carriage return, tab
    and the double quote. *)
Definition lf : string := String (ascii_of_nat 10) "".
Definition cr : string := String (ascii_of_nat 13) "".
Definition tab : string := String (ascii_of_nat 9) "".
Definition dq : string := String (ascii_of_nat 34) "".

(** The process with Integer 1 below Integer 2 on its stack. *)
Definition twoOnStack : Process :=
  {| body := None; pc := 0;
     stack := Some (IntegerType 1) :: Some (IntegerType 2) :: repeat None 14;
     sp := 2 |}.

(** ** Notions for the further properties *)

(** The process after the literals [vs] have been pushed by the first
    instructions of [fn], for at most sixteen of them. *)
Definition pushed (fn : Function) (vs : list DataType) : Process :=
  {| body := Some fn;
     pc := len vs;
     stack := map Some vs ++ repeat None (16 - List.length vs);
     sp := len vs |}.

(** The call returns, and what it returns satisfies [P]. *)
Definition returns {A : Type} (r : Run A) (P : A -> Prop) : Prop :=
  match r with
  | Done a => P a
  | _ => False
  end.

(** A loop over the source that starts on [l] at offset [eso] has come to
    [l'] at offset [eso']. *)
Definition reaches (l : list Z) (eso : Z) (l' : list Z) (eso' : Z) : Prop :=
  exists n, l' = skipn n l /\ eso' = eso + Z.of_nat n.

(** The scanner stands inside its source, with the NUL that ends the source
    still ahead of it. *)
Definition guarded (lx : gesLex) : Prop :=
  0 <= offset lx /\ In NUL (from (source lx) (offset lx)).

(** Whether the bytes begin with a point and a decimal digit. *)
Definition dotDigit (l : list Z) : bool :=
  match l with
  | c :: d :: _ => (c =? "."%c) && isDecimal d
  | _ => false
  end.

(** What the scanner stands on after a pass of its loop. *)
Definition step_guarded (s : Step) : Prop :=
  match s with
  | Continue lx' => guarded lx'
  | Return _ lx' _ => guarded lx'
  end.

(** The kind of payload [lex] leaves for a token. *)
Definition payloadOf (tok : Token) : ParseType :=
  match tok with
  | GTOK_IDENTIFIER => PARSED_IDENTIFIER
  | GTOK_LITERAL => PARSED_LITERAL
  | GTOK_REGEXP => PARSED_REGEXP
  | _ => PARSED_UNDEFINED
  end.

(** What a token leaves of the semantic value the scanner was given: only
    the field of its own kind is written. *)
Definition payload_kept (tok : Token) (lval lval' : gesSymType) : Prop :=
  (tok <> GTOK_IDENTIFIER -> identifier lval' = identifier lval)
  /\ (tok <> GTOK_LITERAL -> literal lval' = literal lval)
  /\ (tok <> GTOK_ASSIGNOP -> assignOp lval' = assignOp lval)
  /\ (tok = GTOK_LITERAL -> literal lval' <> None)
  /\ symCtx lval' = symCtx lval
  /\ parseType lval' = match payloadOf tok with
                       | PARSED_UNDEFINED => parseType lval
                       | p => p
                       end.

(** What a pass of the loop of [lex] keeps beside the source: the parsing
    context, the line counter, which never goes back, and the error slot but
    for an error token; a regex token needs the regex-valid flag. *)
Definition step_frame (lx : gesLex) (lval : gesSymType) (s : Step) : Prop :=
  match s with
  | Continue lx' =>
    ctx lx' = ctx lx /\ error lx' = error lx
    /\ lineNumber lx <= lineNumber lx'
  | Return tok lx' lval' =>
    ctx lx' = ctx lx /\ lineNumber lx <= lineNumber lx'
    /\ (tok <> GTOK_ERROR -> error lx' = error lx)
    /\ (tok = GTOK_REGEXP -> regexValid lx = true)
    /\ payload_kept tok lval lval'
  end.

(** Where a token that is no error token leaves the scanner: past the byte
    it started on. *)
Definition moved (lx : gesLex) (s : Step) : Prop :=
  match s with
  | Continue lx' => offset lx < offset lx'
  | Return tok lx' _ => tok <> GTOK_ERROR -> offset lx < offset lx'
  end.

(** The bytes an identifier or a keyword starts with: a letter, [$] or [_]. *)
Definition wordStart (c : Z) : bool :=
  (("a"%c <=? c) && (c <=? "z"%c)) || (("A"%c <=? c) && (c <=? "Z"%c))
  || (c =? "$"%c) || (c =? "_"%c).

(** The token of the keyword that [w] spells, if it spells one. *)
Definition keywordOf (w : list Z) : option Token :=
  option_map token
    (find (fun k => if list_eq_dec Z.eq_dec (bytesOf (word k)) w
                    then true else false) keywords).

(** What [Lex] returns for the token and the scanner that a pass of the
    loop of [lex] has returned. *)
Definition lexed (lx : gesLex) (tok : Token) (lx1 : gesLex)
  (lval1 : gesSymType) : Token * gesLex * gesSymType :=
  let lx' := if regexValid lx then set_regexValid lx1 false else lx1 in
  (tok, lx', set_symCtx lval1 (ctx lx')).

(** The base-10 and the base-8 reading of a run of digits, most significant
    digit first. *)
Definition decValue (digits : list Z) : Z :=
  fold_left (fun acc c => 10 * acc + (c - "0"%c)) digits 0.

Definition octValue (digits : list Z) : Z :=
  fold_left (fun acc c => 8 * acc + (c - "0"%c)) digits 0.

(** The digits [1] to [9], with which a decimal literal starts. *)
Definition nonZeroDigit (c : Z) : bool := ("1"%c <=? c) && (c <=? "9"%c).

(** A byte that stands for itself inside a string literal that [qch]
    closes: not the quote, the backslash, a line break or NUL. *)
Definition plainByte (qch c : Z) : bool :=
  negb (c =? qch) && negb (c =? "\"%c)
  && negb ((c =? CR) || (c =? LF) || (c =? NUL)).

(** A byte that stands for itself inside a regex literal: not the slash,
    the backslash, a line break or NUL. *)
Definition regexByte (c : Z) : bool :=
  negb (c =? "/"%c) && negb (c =? "\"%c)
  && negb ((c =? CR) || (c =? LF) || (c =? NUL)).

(** The compound assignment operators, each with the operator it carries. *)
Definition assignOps : list keyword :=
  [ kw "+=" GTOK_ADD; kw "-=" GTOK_SUB; kw "*=" GTOK_MULT; kw "/=" GTOK_DIV;
    kw "%=" GTOK_MOD; kw "&=" GTOK_AND; kw "|=" GTOK_OR; kw "^=" GTOK_XOR;
    kw "<<=" GTOK_LTLT; kw ">>=" GTOK_GTGT; kw ">>>=" GTOK_GTGTGT ].

(** A blank: a space or a tab. *)
Definition blank (c : Z) : bool := (c =? " "%c) || (c =? TAB).

(** A byte of the text of a line comment: no line break and not NUL. *)
Definition commentByte (c : Z) : bool :=
  negb ((c =? NUL) || (c =? CR) || (c =? LF)).

(** The line breaks in a run of bytes; a carriage return and the line feed
    after it count once. *)
Fixpoint lineBreaks (l : list Z) : Z :=
  match l with
  | [] => 0
  | c :: t =>
    if c =? CR then
      match t with
      | d :: t' => if d =? LF then 1 + lineBreaks t' else 1 + lineBreaks t
      | [] => 1
      end
    else if c =? LF then 1 + lineBreaks t
    else lineBreaks t
  end.

(** Whether a run of bytes holds what ends a block comment: a star with a
    slash after it, or a NUL. *)
Fixpoint closes (l : list Z) : bool :=
  match l with
  | [] => false
  | c :: t =>
    (c =? NUL)
    || ((c =? "*"%c) && match t with
                        | d :: _ => d =? "/"%c
                        | [] => false
                        end)
    || closes t
  end.

(** * Proofs *)

Ltac inv H := inversion H; subst; clear H.

(** [bind] of a result that is known, in a hypothesis. *)
Ltac unbind H := cbv beta iota delta [bind] in H.

(** Case analysis over a piece of the scanner that has returned. *)
Ltac scan H :=
  cbv beta iota zeta delta [bind] in H;
  first
    [ discriminate H
    | match type of H with Done _ = Done _ => inv H end
    | match type of H with
      | context [if ?b then _ else _] =>
        let E := fresh "E" in destruct b eqn:E; scan H
      | context [match ?x with _ => _ end] =>
        let E := fresh "E" in destruct x eqn:E; scan H
      end
    | idtac ].

(** ** The stack machine *)

Section StackMachine.

Lemma idx_Done {A : Type} (s : list A) (i : Z) (a : A) :
  idx s i = Done a <-> 0 <= i /\ nth_error s (Z.to_nat i) = Some a.
Proof.
  unfold idx. destruct (Z.ltb_spec i 0).
  - split; [discriminate | lia].
  - destruct (nth_error s (Z.to_nat i)); split; intros H0;
      try discriminate; try (injection H0 as ->; auto).
    + destruct H0 as [_ H0]. congruence.
    + destruct H0 as [_ H0]. discriminate.
Qed.

Lemma idx_range {A : Type} (s : list A) (i : Z) (a : A) :
  idx s i = Done a -> 0 <= i < len s.
Proof.
  intros H. apply idx_Done in H as [H0 H].
  assert (Hn : nth_error s (Z.to_nat i) <> None) by congruence.
  apply nth_error_Some in Hn. unfold len. lia.
Qed.

Lemma idx_not_starved {A : Type} (s : list A) (i : Z) : idx s i <> Starved.
Proof.
  unfold idx. destruct (i <? 0); [discriminate|].
  destruct (nth_error s (Z.to_nat i)); discriminate.
Qed.

Lemma set_nth_length {A : Type} (s : list A) n v s' :
  set_nth s n v = Some s' -> List.length s' = List.length s.
Proof.
  revert n s'.
  induction s as [|a s IH]; intros [|n] s'; simpl; try discriminate.
  - intros [= <-]. reflexivity.
  - destruct (set_nth s n v) eqn:E; simpl; [|discriminate].
    intros [= <-]. simpl. f_equal. eauto.
Qed.

Lemma set_nth_same {A : Type} (s : list A) n v s' :
  set_nth s n v = Some s' -> nth_error s' n = Some v.
Proof.
  revert n s'.
  induction s as [|a s IH]; intros [|n] s'; simpl; try discriminate.
  - intros [= <-]. reflexivity.
  - destruct (set_nth s n v) eqn:E; simpl; [|discriminate].
    intros [= <-]. simpl. eauto.
Qed.

Lemma set_nth_other {A : Type} (s : list A) n v s' m :
  set_nth s n v = Some s' -> m <> n -> nth_error s' m = nth_error s m.
Proof.
  revert n s' m.
  induction s as [|a s IH]; intros [|n] s' m; simpl; try discriminate.
  - intros [= <-] Hm. destruct m; [congruence | reflexivity].
  - destruct (set_nth s n v) eqn:E; simpl; [|discriminate].
    intros [= <-] Hm. destruct m; simpl; [reflexivity|]. eapply IH; eauto.
Qed.

Lemma set_nth_Some {A : Type} (s : list A) n v :
  (n < List.length s)%nat -> exists s', set_nth s n v = Some s'.
Proof.
  revert n. induction s as [|a s IH]; intros [|n] H; simpl in *; try lia.
  - eauto.
  - destruct (IH n) as [s' ->]; [lia|]. simpl. eauto.
Qed.

(** What [push] does on a stack with room... *)
Lemma push_Done prc val prc' err :
  push prc val = Done (prc', err) ->
  err = None /\ sp prc' = sp prc + 1 /\ pc prc' = pc prc
  /\ body prc' = body prc /\ 0 <= sp prc < len (stack prc)
  /\ List.length (stack prc') = List.length (stack prc)
  /\ nth_error (stack prc') (Z.to_nat (sp prc)) = Some val
  /\ forall m, m <> Z.to_nat (sp prc) ->
       nth_error (stack prc') m = nth_error (stack prc) m.
Proof.
  unfold push, upd. destruct (Z.ltb_spec (sp prc) 0); [discriminate|].
  destruct (set_nth (stack prc) (Z.to_nat (sp prc)) val) as [st|] eqn:E;
    [|discriminate].
  simpl. intros [= <- <-]. simpl.
  pose proof (set_nth_length _ _ _ _ E).
  pose proof (set_nth_same _ _ _ _ E) as Hs.
  assert (Z.to_nat (sp prc) < List.length st)%nat.
  { apply nth_error_Some. congruence. }
  repeat split; auto; try (unfold len; lia).
  intros m Hm. eapply set_nth_other; eauto.
Qed.

Lemma set_nth_lt {A : Type} (s : list A) n v s' :
  set_nth s n v = Some s' -> (n < List.length s)%nat.
Proof.
  revert n s'.
  induction s as [|a s IH]; intros [|n] s'; simpl; try discriminate.
  - lia.
  - destruct (set_nth s n v) eqn:E; simpl; [|discriminate].
    intros _. apply IH in E. lia.
Qed.

(** ... and that it panics where there is none: the slice is never grown. *)
Lemma push_full prc val :
  len (stack prc) <= sp prc -> push prc val = Panicked IndexOutOfRange.
Proof.
  intros H. unfold push, upd. destruct (sp prc <? 0); [reflexivity|].
  destruct (set_nth (stack prc) (Z.to_nat (sp prc)) val) as [st|] eqn:E;
    [|reflexivity].
  apply set_nth_lt in E. unfold len in H. lia.
Qed.

Lemma pop_Done prc prc' val err :
  pop prc = Done (prc', val, err) ->
  err = None /\ prc' = set_sp prc (sp prc - 1)
  /\ 0 < sp prc <= len (stack prc)
  /\ nth_error (stack prc) (Z.to_nat (sp prc - 1)) = Some val.
Proof.
  unfold pop. simpl. destruct (idx (stack prc) (sp prc - 1)) eqn:E;
    simpl; try discriminate.
  intros [= <- <- <-]. pose proof (idx_range _ _ _ E).
  apply idx_Done in E as [? E]. repeat split; auto; lia.
Qed.

(** [pop] on an empty stack panics: [sp] is not checked. *)
Lemma pop_empty prc :
  sp prc <= 0 -> pop prc = Panicked IndexOutOfRange.
Proof.
  intros H. unfold pop, idx. simpl.
  destruct (Z.ltb_spec (sp prc - 1) 0); [reflexivity | lia].
Qed.

(** No behaviour moves the program counter or changes the function that is
    run; the two of the package keep the stack in order. *)
Lemma call_control fn prc op prc' err :
  call fn prc op = Done (prc', err) ->
  pc prc' = pc prc /\ body prc' = body prc.
Proof.
  destruct fn; simpl.
  - unfold PushLiteralValue. destruct (OpData op); [|discriminate].
    intros H. apply push_Done in H. tauto.
  - unfold AdditionOperation. destruct (pop prc) as [[[p1 l] e1]| |] eqn:E1;
      simpl; try discriminate.
    apply pop_Done in E1 as (-> & -> & _).
    destruct (pop (set_sp prc (sp prc - 1))) as [[[p2 r] e2]| |] eqn:E2;
      simpl; try discriminate.
    apply pop_Done in E2 as (-> & -> & _).
    destruct (deref l) as [lv| |]; simpl; try discriminate.
    match goal with
    | |- bind ?m _ = _ -> _ => destruct m as [res| |]; simpl; try discriminate
    end.
    intros H. apply push_Done in H. simpl in H. tauto.
  - destruct (f (LineNumber op) (OpData op)); try discriminate.
    intros [= <- <-]. auto.
Qed.

Lemma call_not_starved fn prc op : call fn prc op <> Starved.
Proof.
  destruct fn; simpl.
  - unfold PushLiteralValue. destruct (OpData op); [|discriminate].
    unfold push, upd. destruct (sp prc <? 0); [discriminate|].
    destruct (set_nth _ _ _); discriminate.
  - unfold AdditionOperation, pop, push, upd, idx, deref. simpl.
    repeat match goal with
    | |- context [if ?b then _ else _] => destruct b; simpl; try discriminate
    | |- context [match ?x with _ => _ end] =>
        destruct x; simpl; try discriminate
    end.
  - destruct (f _ _); discriminate.
Qed.

Lemma call_stack_ok fn prc op prc' :
  call fn prc op = Done (prc', None) -> stack_ok prc -> stack_ok prc'.
Proof.
  assert (Hpush : forall p v p' e, push p (Some v) = Done (p', e) ->
            List.length (stack p) = 16%nat -> 0 <= sp p ->
            (forall i, 0 <= i < sp p ->
               exists w, nth_error (stack p) (Z.to_nat i) = Some (Some w)) ->
            stack_ok p').
  { intros p v p' e H Hl H0 Hv.
    apply push_Done in H as (_ & Hsp & _ & _ & Hr & Hlen & Hsame & Hoth).
    unfold len in Hr. repeat split; try lia.
    intros i Hi. destruct (Z.eq_dec i (sp p)) as [->|Hne].
    - eauto.
    - rewrite Hoth by lia. apply Hv. lia. }
  destruct fn; simpl.
  - unfold PushLiteralValue. destruct (OpData op); [|discriminate].
    intros H (Hl & Hs & Hv). eapply Hpush; eauto. lia.
  - unfold AdditionOperation. destruct (pop prc) as [[[p1 l] e1]| |] eqn:E1;
      simpl; try discriminate.
    apply pop_Done in E1 as (-> & -> & Hs1 & _).
    destruct (pop (set_sp prc (sp prc - 1))) as [[[p2 r] e2]| |] eqn:E2;
      simpl; try discriminate.
    apply pop_Done in E2 as (-> & -> & Hs2 & _). simpl in Hs2.
    destruct (deref l) as [lv| |]; simpl; try discriminate.
    match goal with
    | |- bind ?m _ = _ -> _ => destruct m as [res| |]; simpl; try discriminate
    end.
    intros H (Hl & Hs & Hv). eapply Hpush; eauto; simpl; try lia.
    intros i Hi. apply Hv. lia.
  - destruct (f (LineNumber op) (OpData op)); try discriminate.
    intros [= <-]. auto.
Qed.

Lemma start_stack_ok fn prc : stack_ok (start fn prc).
Proof.
  unfold stack_ok, start. simpl. repeat split; try lia.
Qed.

Lemma runs_stack_ok ops p p' : runs ops p p' -> stack_ok p -> stack_ok p'.
Proof.
  induction 1 as [|op ops p p1 p' Hc Hr IH]; auto.
  intros Hp. apply IH. apply call_stack_ok in Hc; auto.
Qed.

Lemma runs_control ops p p' :
  runs ops p p' -> pc p' = pc p + len ops /\ body p' = body p.
Proof.
  induction 1 as [|op ops p p1 p' Hc Hr IH].
  - unfold len. simpl. split; [lia | reflexivity].
  - apply call_control in Hc as [Hpc Hb]. destruct IH as [IH1 IH2].
    simpl in *. unfold len in *. simpl List.length. split; [lia | congruence].
Qed.

Lemma counters_S n : counters (S n) = counters n ++ [Z.of_nat n].
Proof.
  unfold counters. rewrite seq_S, map_app. reflexivity.
Qed.

Lemma idx_app_mid {A : Type} (l1 : list A) a l2 :
  idx (l1 ++ a :: l2) (len l1) = Done a.
Proof.
  apply idx_Done. unfold len. split; [lia|].
  rewrite Nat2Z.id, nth_error_app2, Nat.sub_diag by lia. reflexivity.
Qed.

(** The loop, from the point where the instructions [done] have been run:
    the passes that run [ops] without a failure. *)
Lemma ExecLoop_runs fn ops : forall fuel done rest p p' ran,
  Code fn = done ++ ops ++ rest ->
  body p = Some fn -> pc p = len done ->
  runs ops p p' ->
  ExecLoop (List.length ops + fuel) p ran
  = ExecLoop fuel p'
      (ran ++ map (fun i => len done + Z.of_nat i) (seq 0 (List.length ops))).
Proof.
  induction ops as [|op ops IH]; intros fuel done rest p p' ran Hc Hb Hpc Hr.
  - inversion Hr; subst. simpl. rewrite app_nil_r. reflexivity.
  - inversion Hr as [|? ? ? p1 ? Hcall Hrest]; subst.
    simpl ExecLoop. rewrite Hb. simpl deref. cbv iota. rewrite Hpc, Hc.
    destruct (Z.ltb_spec (len done) 0); [unfold len in *; lia|].
    destruct (Z.geb_spec (len done) (len (done ++ (op :: ops) ++ rest)))
      as [Hge|_].
    { unfold len in Hge. rewrite length_app in Hge. simpl in Hge. lia. }
    simpl orb. cbv iota. simpl app at 1. rewrite idx_app_mid, Hcall.
    pose proof (call_control _ _ _ _ _ Hcall) as [Hpc1 Hb1].
    rewrite (IH fuel (done ++ [op]) rest _ p').
    + f_equal. rewrite <- app_assoc. simpl. rewrite Z.add_0_r.
      do 2 apply f_equal.
      rewrite <- seq_shift, map_map. apply map_ext. intros i.
      unfold len. rewrite length_app. simpl. lia.
    + rewrite <- app_assoc. exact Hc.
    + simpl. congruence.
    + simpl. unfold len. rewrite length_app. simpl. unfold len in Hpc. lia.
    + exact Hrest.
Qed.

Lemma counters_map n :
  map (fun i => len (@nil OpCode) + Z.of_nat i) (seq 0 n) = counters n.
Proof. unfold counters. apply map_ext. intros. unfold len. simpl. lia. Qed.

Lemma ExecLoop_not_starved fn : forall fuel p ran,
  body p = Some fn -> 0 <= pc p ->
  len (Code fn) - pc p < Z.of_nat fuel -> (0 < fuel)%nat ->
  snd (ExecLoop fuel p ran) <> Starved.
Proof.
  induction fuel as [|fuel IH]; intros p ran Hb Hpc Hf H0.
  - lia.
  - simpl. rewrite Hb. simpl.
    destruct ((pc p <? 0) || (pc p >=? len (Code fn))) eqn:Eb;
      [simpl; discriminate|].
    apply orb_false_elim in Eb as [_ Eb].
    destruct (idx (Code fn) (pc p)) as [op| |] eqn:Ei; simpl;
      try discriminate.
    2: { now apply idx_not_starved in Ei. }
    destruct (call (ExecFn op) p op) as [[p1 [e|]]| |] eqn:Ec; simpl;
      try discriminate.
    2: { now apply call_not_starved in Ec. }
    apply call_control in Ec as [Hpc1 Hb1].
    rewrite Z.geb_leb in Eb. apply Z.leb_gt in Eb.
    apply IH; simpl; try congruence; lia.
Qed.

Theorem Exec_not_starved fn prc : Exec fn prc <> Starved.
Proof.
  unfold Exec, ExecTrace.
  pose proof (ExecLoop_not_starved fn (S (List.length (Code fn)))
                (start fn prc) [] eq_refl) as H.
  destruct (ExecLoop _ _ _) as [ran r]. simpl in *.
  assert (Hr : r <> Starved) by (apply H; unfold len; simpl; lia).
  destruct r as [[p|e]| |]; simpl; try congruence.
  destruct (sp p >? 0); [|discriminate].
  pose proof (idx_not_starved (stack p) (sp p - 1)).
  destruct (idx (stack p) (sp p - 1)) as [[v|]| |]; simpl; congruence.
Qed.

(** C3 (code as it is): neither [push] nor [pop] checks [sp], the stack
    is never grown beyond the sixteen slots [Exec] makes, and so seventeen
    pushes, or an addition on an empty stack, end in an index-out-of-range
    panic and not in an error value. *)
Theorem C3_stack_bounds_unchecked :
  Exec (program (repeat (pushOp (IntegerType 1)) 17)) newProcess
    = Panicked IndexOutOfRange
  /\ Exec (program [addOp]) newProcess = Panicked IndexOutOfRange
  /\ Exec (program [pushOp (IntegerType 1); addOp]) newProcess
    = Panicked IndexOutOfRange.
Proof. repeat split; vm_compute; reflexivity. Qed.

(** C4: the addition instruction pops the stack top as its first operand and
    the value below it as its second, and pushes in their place the wrapping
    64-bit sum of two Integers, Undefined for any other pair of variants,
    returning no error. *)
Theorem C4_addition (prc : Process) (op : OpCode) (first second : DataType) :
  2 <= sp prc <= len (stack prc) ->
  nth_error (stack prc) (Z.to_nat (sp prc - 1)) = Some (Some first) ->
  nth_error (stack prc) (Z.to_nat (sp prc - 2)) = Some (Some second) ->
  exists p1 p2 prc',
    pop prc = Done (p1, Some first, None)
    /\ pop p1 = Done (p2, Some second, None)
    /\ AdditionOperation prc op = Done (prc', None)
    /\ sp prc' = sp prc - 1
    /\ nth_error (stack prc') (Z.to_nat (sp prc - 2))
       = Some (Some (sumOf first second))
    /\ (forall m, m <> Z.to_nat (sp prc - 2) ->
          nth_error (stack prc') m = nth_error (stack prc) m)
    /\ pc prc' = pc prc /\ body prc' = body prc.
Proof.
  intros Hsp H1 H2.
  assert (E1 : pop prc = Done (set_sp prc (sp prc - 1), Some first, None)).
  { unfold pop. simpl.
    replace (idx (stack prc) (sp prc - 1)) with (Done (Some first));
      [reflexivity|].
    symmetry. apply idx_Done. split; [lia | assumption]. }
  assert (E2 : pop (set_sp prc (sp prc - 1))
               = Done (set_sp prc (sp prc - 2), Some second, None)).
  { unfold pop. simpl. replace (sp prc - 1 - 1) with (sp prc - 2) by lia.
    replace (idx (stack prc) (sp prc - 2)) with (Done (Some second));
      [reflexivity|].
    symmetry. apply idx_Done. split; [lia | assumption]. }
  destruct (set_nth_Some (stack prc) (Z.to_nat (sp prc - 2))
              (Some (sumOf first second))) as [st Hst].
  { unfold len in Hsp. lia. }
  exists (set_sp prc (sp prc - 1)), (set_sp prc (sp prc - 2)).
  exists (set_sp (set_stack (set_sp prc (sp prc - 2)) st) (sp prc - 2 + 1)).
  split; [exact E1|]. split; [exact E2|].
  split.
  - unfold AdditionOperation. rewrite E1. simpl. rewrite E2. simpl.
    unfold push, upd.
    destruct first, second; simpl in *; unfold Undefined in *;
      destruct (Z.ltb_spec (sp prc - 2) 0); try lia;
      rewrite Hst; reflexivity.
  - simpl. split; [lia|]. split; [eapply set_nth_same; eauto|].
    split; [|auto]. intros m Hm. eapply set_nth_other; eauto.
Qed.

(** C5: when every instruction of a Function returns without a failure,
    [Exec] invokes the instructions once each, in order, at the program
    counters 0, 1, ..., and returns without error the value on top of the
    stack they leave, or Undefined when that stack is empty, as it is for a
    Function without instructions. *)
Theorem C5_exec_runs_all (fn : Function) (prc p' : Process) :
  runs (Code fn) (start fn prc) p' ->
  exists v,
    ExecTrace fn prc
      = (counters (List.length (Code fn)), Done (Some v, None))
    /\ topOrUndefined p' v
    /\ (Code fn = [] -> v = Undefined).
Proof.
  intros Hr.
  pose proof (runs_stack_ok _ _ _ Hr (start_stack_ok fn prc)) as (Hl & Hs & Hv).
  pose proof (runs_control _ _ _ Hr) as [Hpc Hb]. simpl in Hpc, Hb.
  assert (HL : ExecLoop (S (List.length (Code fn))) (start fn prc) []
               = (counters (List.length (Code fn)), Done (Break p'))).
  { replace (S (List.length (Code fn))) with (List.length (Code fn) + 1)%nat
      by lia.
    rewrite (ExecLoop_runs fn (Code fn) 1 [] [] (start fn prc) p' []);
      auto; [|now rewrite app_nil_r].
    simpl app. rewrite counters_map. simpl. rewrite Hb. simpl.
    rewrite Hpc. destruct (Z.ltb_spec (len (Code fn)) 0);
      [unfold len in *; lia|].
    destruct (Z.geb_spec (len (Code fn)) (len (Code fn))); [|lia].
    reflexivity. }
  unfold ExecTrace. rewrite HL. simpl bind. unfold topOrUndefined.
  destruct (Z.gtb_spec (sp p') 0) as [Hpos|Hzero].
  - destruct (Hv (sp p' - 1)) as [v Hv']; [lia|].
    exists v. replace (idx (stack p') (sp p' - 1)) with (Done (Some v)).
    + simpl. repeat split; auto. intros Hnil. rewrite Hnil in Hr.
      inversion Hr; subst. simpl in Hpos. lia.
    + symmetry. apply idx_Done. split; [lia | assumption].
  - exists Undefined. auto.
Qed.

(** C6: when the instructions before one return without a failure and that
    one returns a failure, [Exec] stops there: the instructions invoked are
    those up to and including it, none after it, and [Exec] returns a nil
    value together with that failure. *)
Theorem C6_exec_aborts (fn : Function) (prc p p1 : Process)
  (done rest : list OpCode) (op : OpCode) (e : goError) :
  Code fn = done ++ op :: rest ->
  runs done (start fn prc) p ->
  call (ExecFn op) p op = Done (p1, Some e) ->
  ExecTrace fn prc = (counters (S (List.length done)), Done (None, Some e)).
Proof.
  intros Hc Hr Hcall.
  pose proof (runs_control _ _ _ Hr) as [Hpc Hb]. simpl in Hpc, Hb.
  assert (HL : ExecLoop (S (List.length (Code fn))) (start fn prc) []
               = (counters (S (List.length done)), Done (Failed e))).
  { replace (S (List.length (Code fn)))
      with (List.length done + S (S (List.length rest)))%nat
      by (rewrite Hc, length_app; simpl; lia).
    rewrite (ExecLoop_runs fn done _ [] (op :: rest) (start fn prc) p []);
      auto.
    simpl app. rewrite counters_map. simpl ExecLoop. rewrite Hb. simpl deref.
    cbv iota. rewrite Hpc, Hc.
    destruct (Z.ltb_spec (len done) 0); [unfold len in *; lia|].
    destruct (Z.geb_spec (len done) (len (done ++ op :: rest))) as [Hge|_].
    { unfold len in Hge. rewrite length_app in Hge. simpl in Hge. lia. }
    simpl orb. cbv iota. rewrite idx_app_mid, Hcall.
    rewrite counters_S. reflexivity. }
  unfold ExecTrace. rewrite HL. reflexivity.
Qed.

End StackMachine.

(** ** The scanner: termination and the regex-valid flag *)

Section Scanner.

Lemma skipLine_le l : forall off off',
  skipLine l off = Done off' -> off <= off'.
Proof.
  induction l as [|c t IH]; simpl; intros off off'; [discriminate|].
  destruct ((c =? 0) || (c =? 13) || (c =? 10)).
  - intros [= <-]. lia.
  - intros H. apply IH in H. lia.
Qed.

Lemma skipBlock_le_bounded n : forall l off line off' line',
  (List.length l <= n)%nat ->
  skipBlock l off line = Done (off', line') -> off <= off'.
Proof.
  induction n as [|n IH]; intros [|c t] off line off' line' Hn; simpl in *;
    try discriminate; try lia.
  destruct (c =? 0); [intros [= <- <-]; lia|].
  destruct (c =? 42).
  { destruct t as [|d t']; [discriminate|].
    destruct (d =? 47); [intros [= <- <-]; lia|].
    intros H. apply IH in H; [lia | simpl in *; lia]. }
  destruct (c =? 13).
  { destruct t as [|d t']; [discriminate|].
    destruct (d =? 10); intros H; apply IH in H; simpl in *; lia. }
  intros H. apply IH in H; simpl in *; lia.
Qed.

Lemma skipBlock_le l off line off' line' :
  skipBlock l off line = Done (off', line') -> off <= off'.
Proof. apply (skipBlock_le_bounded (List.length l)). lia. Qed.

Lemma flag_keep b : b = b || false.
Proof. now rewrite orb_false_r. Qed.

Lemma lookupKeyword_In kws ln text tok :
  lookupKeyword kws ln text = Some tok -> In tok (map token kws).
Proof.
  induction kws as [|k kws IH]; simpl; [discriminate|].
  destruct (_ && _); [intros [= <-]; auto | auto].
Qed.

Lemma keyword_rearms tok :
  In tok (map token keywords) ->
  rearms tok = match tok with GTOK_CASE => true | _ => false end.
Proof.
  simpl. intros H.
  repeat (destruct H as [<-|H]; [reflexivity|]). destruct H.
Qed.

Lemma lexWord_ok lx lval s : lexWord lx lval = Done s -> step_ok lx s.
Proof.
  unfold lexWord. intros H.
  destruct (identEnd _ _) as [eso| |]; unbind H; try discriminate.
  destruct (slice _ _ _) as [text| |]; unbind H; try discriminate.
  destruct (lookupKeyword _ _ _) as [tok|] eqn:Ek.
  - apply lookupKeyword_In, keyword_rearms in Ek. inv H. simpl.
    rewrite Ek. destruct tok; simpl; auto using flag_keep, orb_true_r.
  - inv H. simpl. auto using flag_keep.
Qed.

Lemma lexNumber_ok lx lval ch nch s :
  lexNumber lx lval ch nch = Done s -> step_ok lx s.
Proof.
  unfold lexNumber, literalToken. intros H.
  match type of H with
  | bind ?m _ = _ => destruct m as [[[lx1 ch1] radix]| |] eqn:E0
  end; unbind H; try discriminate.
  assert (Hs : source lx1 = source lx /\ regexValid lx1 = regexValid lx).
  { scan E0; simpl; auto. }
  destruct Hs as [Hs Hr].
  scan H; simpl; rewrite ?Hs, ?Hr; auto using flag_keep.
Qed.

Lemma lexString_ok lx lval ch s :
  lexString lx lval ch = Done s -> step_ok lx s.
Proof.
  unfold lexString, literalToken. intros H.
  destruct (strLoop _ _ _ _ _) as [[]| |]; unbind H; inv H; simpl;
    auto using flag_keep.
Qed.

Lemma lexRegex_ok lx lval s : lexRegex lx lval = Done s -> step_ok lx s.
Proof.
  unfold lexRegex. intros H.
  destruct (regexLoop _ _) as [[]| |]; unbind H; inv H; simpl;
    auto using flag_keep.
Qed.

Lemma lexOperator_ok lx lval ch nch s :
  lexOperator lx lval ch nch = Done s -> step_ok lx s.
Proof.
  unfold lexOperator. intros H.
  scan H; simpl; auto using flag_keep, orb_true_r.
Qed.

Lemma lineComment_ok lx s : lineComment lx = Done s -> step_ok lx s.
Proof.
  unfold lineComment. intros H.
  destruct (skipLine _ _) as [off| |] eqn:Es; unbind H;
    try discriminate.
  apply skipLine_le in Es. simpl in Es.
  destruct (idx _ _) as [c| |]; unbind H;
    try discriminate.
  match type of H with
  | match ?m with _ => _ end = _ => destruct m as [lx1| |] eqn:E0
  end; try discriminate.
  assert (Hs : source lx1 = source lx /\ regexValid lx1 = regexValid lx
               /\ off <= offset lx1).
  { scan E0; simpl; repeat split; auto; lia. }
  destruct Hs as (Hs & Hr & Ho).
  scan H; simpl; rewrite ?Hs, ?Hr; repeat split; auto; lia.
Qed.

Lemma blockComment_ok lx lval s :
  blockComment lx lval = Done s -> step_ok lx s.
Proof.
  unfold blockComment. intros H.
  destruct (skipBlock _ _ _) as [[off line]| |] eqn:Es; unbind H;
    try discriminate.
  apply skipBlock_le in Es. simpl in Es.
  scan H; simpl; repeat split; auto using flag_keep; lia.
Qed.

Lemma lexOnce_ok lx lval s : lexOnce lx lval = Done s -> step_ok lx s.
Proof.
  unfold lexOnce. intros H.
  destruct (idx (source lx) (offset lx)) as [ch| |]; unbind H;
    try discriminate.
  destruct (ch =? 0); [inv H; simpl; auto using flag_keep|].
  destruct (idx (source lx) (offset lx + 1)) as [nch| |]; unbind H;
    try discriminate.
  destruct ((ch =? 32) || (ch =? 9)).
  { inv H. simpl. repeat split; auto; lia. }
  assert (Hgo : forall lx1 ch1,
            source lx1 = source lx -> regexValid lx1 = regexValid lx ->
            offset lx <= offset lx1 ->
            (if (ch1 =? 13) || (ch1 =? 10)
             then Done (Continue (set_offset (set_lineNumber lx1
                            (lineNumber lx1 + 1)) (offset lx1 + 1)))
             else if (ch1 =? 47) && (nch =? 47) then lineComment lx1
             else if (ch1 =? 47) && (nch =? 42) then blockComment lx1 lval
             else if (ch1 >=? 97) && (ch1 <=? 122)
                     || (ch1 >=? 65) && (ch1 <=? 90)
                     || (ch1 =? 36) || (ch1 =? 95)
             then lexWord lx1 lval
             else if isDecimal ch1 || (ch1 =? 46) && isDecimal nch
             then lexNumber lx1 lval ch1 nch
             else if (ch1 =? 34) || (ch1 =? 39) then lexString lx1 lval ch1
             else if regexValid lx1 && (ch1 =? 47) then lexRegex lx1 lval
             else lexOperator lx1 lval ch1 nch) = Done s ->
            step_ok lx s).
  { intros lx1 ch1 Hs Hr Ho Hx.
    assert (Hmove : step_ok lx1 s -> step_ok lx s).
    { destruct s; simpl; rewrite Hs, Hr; intuition lia. }
    destruct ((ch1 =? 13) || (ch1 =? 10)).
    { inv Hx. simpl. repeat split; auto; lia. }
    destruct ((ch1 =? 47) && (nch =? 47));
      [now apply Hmove, lineComment_ok|].
    destruct ((ch1 =? 47) && (nch =? 42));
      [now apply Hmove, (blockComment_ok _ _ _ Hx)|].
    repeat match type of Hx with
    | (if ?b then _ else _) = _ => destruct b
    end;
    eauto using lexWord_ok, lexNumber_ok, lexString_ok, lexRegex_ok,
      lexOperator_ok. }
  destruct ((ch =? 13) && (nch =? 10)).
  - cbn [bind source offset set_offset] in H.
    destruct (idx (source lx) (offset lx + 1)) as [ch1| |];
      unbind H; try discriminate.
    apply (Hgo (set_offset lx (offset lx + 1)) ch1);
      [reflexivity | reflexivity | simpl; lia | exact H].
  - unbind H.
    apply (Hgo lx ch); [reflexivity | reflexivity | lia | exact H].
Qed.

(** *** The bound on the passes of [lex] is never reached *)

Lemma bind_settled {A B : Type} (m : Run A) (k : A -> Run B) :
  m <> Starved -> (forall a, k a <> Starved) -> bind m k <> Starved.
Proof. destruct m; simpl; auto; discriminate. Qed.

Lemma slice_settled (s : list Z) a b : slice s a b <> Starved.
Proof. unfold slice. destruct (_ || _); discriminate. Qed.

Lemma skipLine_settled l : forall off, skipLine l off <> Starved.
Proof.
  induction l; simpl; intros; [discriminate|].
  destruct (_ || _); auto. discriminate.
Qed.

Create HintDb settled.

(** Goals [r <> Starved], along the syntax of [r]. *)
Ltac settle :=
  repeat first
    [ discriminate
    | assumption
    | apply idx_not_starved
    | apply slice_settled
    | apply bind_settled; [|intros]
    | match goal with
      | |- (if ?b then _ else _) <> Starved => destruct b
      | |- match ?x with _ => _ end <> Starved => destruct x
      | |- (let (_, _) := ?x in _) <> Starved => destruct x
      | IH : forall l, _ -> forall _, _ |- _ => apply IH; simpl in *; lia
      end ].

Lemma skipBlock_settled l off line : skipBlock l off line <> Starved.
Proof.
  assert (H : forall n l, (List.length l <= n)%nat ->
                forall off line, skipBlock l off line <> Starved).
  { induction n as [|n IH]; intros [|c t] Hn off0 line0; simpl in *;
      try discriminate; try lia.
    settle. }
  now apply (H (List.length l)).
Qed.

Lemma identEnd_settled l : forall eso, identEnd l eso <> Starved.
Proof. induction l; simpl; intros; settle. apply IHl. Qed.

Lemma digitRun_settled radix l : forall ch eso ival,
  digitRun radix l ch eso ival <> Starved.
Proof. induction l; simpl; intros; settle; apply IHl. Qed.

Lemma floatRun_settled l : forall ch eso, floatRun l ch eso <> Starved.
Proof. induction l; simpl; intros; settle; apply IHl. Qed.

Lemma strLoop_settled l qch eso line str :
  strLoop l qch eso line str <> Starved.
Proof.
  assert (H : forall n l, (List.length l <= n)%nat ->
                forall qch eso line str,
                  strLoop l qch eso line str <> Starved).
  { clear. induction n as [|n IH]; intros [|c t] Hn q e li st; simpl in *;
      try discriminate; try lia.
    settle. }
  now apply (H (List.length l)).
Qed.

Lemma regexLoop_settled l eso : regexLoop l eso <> Starved.
Proof.
  assert (H : forall n l, (List.length l <= n)%nat ->
                forall eso, regexLoop l eso <> Starved).
  { clear. induction n as [|n IH]; intros [|c t] Hn e; simpl in *;
      try discriminate; try lia.
    settle. }
  now apply (H (List.length l)).
Qed.

#[local] Hint Resolve skipLine_settled skipBlock_settled identEnd_settled
  digitRun_settled floatRun_settled strLoop_settled regexLoop_settled
  : settled.

Lemma lexOnce_not_starved lx lval : lexOnce lx lval <> Starved.
Proof.
  unfold lexOnce, lineComment, blockComment, lexWord, lexNumber,
    lexString, lexRegex, lexOperator, literalToken.
  settle; auto with settled.
Qed.

Lemma lexOnce_Continue lx lval lx' :
  lexOnce lx lval = Done (Continue lx') ->
  source lx' = source lx /\ regexValid lx' = regexValid lx
  /\ 0 <= offset lx < offset lx' /\ offset lx < len (source lx).
Proof.
  intros H. pose proof (lexOnce_ok _ _ _ H) as (Hs & Hr & Ho).
  unfold lexOnce in H.
  destruct (idx (source lx) (offset lx)) as [ch| |] eqn:Ei;
    try discriminate.
  apply idx_range in Ei. intuition lia.
Qed.

Lemma lexLoop_not_starved : forall fuel lx lval,
  (0 < fuel)%nat ->
  (0 <= offset lx -> len (source lx) - offset lx < Z.of_nat fuel) ->
  lexLoop fuel lx lval <> Starved.
Proof.
  induction fuel as [|fuel IH]; intros lx lval H0 Hf; [lia|].
  simpl. destruct (lexOnce lx lval) as [[lx'|tok lx' lval']| |] eqn:E;
    try discriminate.
  - apply lexOnce_Continue in E as (Hs & _ & Ho & Hl).
    apply IH; rewrite ?Hs; lia.
  - now apply lexOnce_not_starved in E.
Qed.

(** [lex] and [Lex] return or panic for every scanner and every source. *)
Theorem lex_not_starved lx lval : lex lx lval <> Starved.
Proof.
  unfold lex. apply lexLoop_not_starved; [lia|]. unfold len. lia.
Qed.

Theorem Lex_not_starved lx lval : Lex lx lval <> Starved.
Proof.
  unfold Lex. pose proof (lex_not_starved lx lval).
  destruct (lex lx lval) as [[[tok lx'] lval']| |]; simpl; congruence.
Qed.

Lemma lexLoop_flag : forall fuel lx lval tok lx' lval',
  lexLoop fuel lx lval = Done (tok, lx', lval') ->
  source lx' = source lx /\ regexValid lx' = regexValid lx || rearms tok.
Proof.
  induction fuel as [|fuel IH]; intros lx lval tok lx' lval'; simpl;
    [discriminate|].
  destruct (lexOnce lx lval) as [[lx1|tok1 lx1 lval1]| |] eqn:E;
    try discriminate.
  - apply lexOnce_ok in E as (Hs & Hr & _). intros H.
    apply IH in H. rewrite <- Hs, <- Hr. exact H.
  - apply lexOnce_ok in E. intros [= <- <- <-]. exact E.
Qed.

(** After [Lex] the flag is set exactly when it was clear before the call
    and the token returned is one of [case], [=~], [!~]. *)
Lemma Lex_regexValid lx lval tok lx' lval' :
  Lex lx lval = Done (tok, lx', lval') ->
  regexValid lx' = rearms tok && negb (regexValid lx).
Proof.
  unfold Lex, lex.
  destruct (lexLoop _ _ _) as [[[tok1 lx1] lval1]| |] eqn:E; simpl;
    try discriminate.
  apply lexLoop_flag in E as [_ E]. intros [= <- <- <-].
  destruct (regexValid lx); simpl in *; rewrite ?andb_false_r, ?andb_true_r;
    auto.
Qed.

(** C2 (as the code has it): on the token stream of every source, after each
    token the regex-valid flag is set exactly when that token is one that
    arms it ([case], [=~] or [!~]) and the flag was not set before that token.
    So a flag that is set is cleared by the next token, whatever that token
    is, and is never set after two tokens in a row. *)
Theorem C2_regex_flag_one_token (src : string) (n : nat)
  (t0 t1 : Token) (lx0 lx1 : gesLex) (l0 l1 : gesSymType) :
  scanned src n = Some (t0, lx0, l0) ->
  scanned src (S n) = Some (t1, lx1, l1) ->
  regexValid lx1 = rearms t1 && negb (regexValid lx0)
  /\ (regexValid lx0 = true -> regexValid lx1 = false).
Proof.
  unfold scanned. intros H0 H1. cbn [lexN] in H1. rewrite H0 in H1.
  destruct (Lex lx0 l0) as [[[t lx] l]| |] eqn:E; try discriminate.
  injection H1 as -> -> ->. apply Lex_regexValid in E.
  split; [exact E|]. intros Hset. rewrite E, Hset. apply andb_false_r.
Qed.

(** C2 fails as stated on [case case]: the flag is set before the second
    [case], that token is one that arms the flag, and the flag is clear
    after it. *)
Lemma C2_counterexample :
  exists lx1 l1 lx2 l2,
    scanned "case case" 1 = Some (GTOK_CASE, lx1, l1)
    /\ regexValid lx1 = true
    /\ scanned "case case" 2 = Some (GTOK_CASE, lx2, l2)
    /\ rearms GTOK_CASE = true
    /\ regexValid lx2 = false.
Proof.
  do 4 eexists. split; [vm_compute; reflexivity|].
  split; [reflexivity|]. split; [vm_compute; reflexivity|].
  split; reflexivity.
Qed.

End Scanner.

(** ** Numerals that begin with [0x] *)

Section Numerals.

Lemma bytesOf_app s1 s2 : bytesOf (s1 ++ s2) = bytesOf s1 ++ bytesOf s2.
Proof. induction s1; simpl; congruence. Qed.

Lemma identStop_identByte c : identStop c = negb (identByte c).
Proof.
  unfold identStop, identByte. rewrite !Z.gtb_ltb.
  repeat match goal with
  | |- context [?a <? ?b] => destruct (Z.ltb_spec a b); try lia
  | |- context [?a <=? ?b] => destruct (Z.leb_spec a b); try lia
  | |- context [?a =? ?b] => destruct (Z.eqb_spec a b); try lia
  end; reflexivity.
Qed.

Lemma identEnd_run l : forall eso,
  identEnd (l ++ [0]) eso = Done (eso + len (identRun l)).
Proof.
  induction l as [|c t IH]; intros eso; simpl.
  - f_equal. unfold len. simpl. lia.
  - rewrite identStop_identByte. destruct (Z.eqb_spec c 0) as [->|Hc].
    + simpl. f_equal. unfold len. simpl. lia.
    + destruct (identByte c); simpl.
      * rewrite IH. f_equal. unfold len. simpl List.length. lia.
      * f_equal. unfold len. simpl. lia.
Qed.

Lemma identRun_prefix l m :
  firstn (List.length (identRun l)) (l ++ m) = identRun l.
Proof.
  induction l as [|c t IH]; simpl; [reflexivity|].
  destruct (identByte c); simpl; congruence.
Qed.

Lemma identRun_length l : (List.length (identRun l) <= List.length l)%nat.
Proof.
  induction l as [|c t IH]; simpl; [lia|].
  destruct (identByte c); simpl; lia.
Qed.

Lemma lookupKeyword_other kws ln c w :
  forallb (fun k => match bytesOf (word k) with
                    | d :: _ => negb (c =? d)
                    | [] => true
                    end) kws = true ->
  lookupKeyword kws ln (c :: w) = None.
Proof.
  induction kws as [|k kws IH]; simpl; [reflexivity|].
  intros H. apply andb_prop in H as [Hk H]. rewrite (IH H).
  destruct (bytesOf (word k)) as [|d ds]; simpl.
  - now rewrite andb_false_r.
  - apply negb_true_iff in Hk. now rewrite Hk, andb_false_r.
Qed.

Lemma digitRun_stop radix l ch eso ival :
  isHex ch = false -> digitRun radix l ch eso ival = Done (eso, ival, ch).
Proof. intros H. destruct l; simpl; now rewrite H. Qed.

Lemma idx_0 {A} (a : A) l : idx (a :: l) 0 = Done a.
Proof. reflexivity. Qed.

Lemma idx_1 {A} (a b : A) l : idx (a :: b :: l) 1 = Done b.
Proof. reflexivity. Qed.

Lemma idx_2 {A} (a b c : A) l : idx (a :: b :: c :: l) 2 = Done c.
Proof. reflexivity. Qed.

Lemma from_1 (a : Z) l : from (a :: l) 1 = l.
Proof. reflexivity. Qed.

Lemma from_3 (a b c : Z) l : from (a :: b :: c :: l) 3 = l.
Proof. reflexivity. Qed.

Lemma slice_0_1 (a : Z) l : slice (a :: l) 0 1 = Done [a].
Proof.
  unfold slice, len. simpl List.length.
  destruct (Z.ltb_spec (Z.of_nat (S (List.length l))) 1); [lia|].
  reflexivity.
Qed.

(** The fresh scanner of a source whose bytes are known. *)
Lemma newLexer_source src l :
  bytesOf src ++ [0] = l ->
  newLexer src
  = {| source := l; offset := 0; lineNumber := 1; regexValid := false;
       error := None; ctx := {| ctxBody := {| Name := ""; Code := [] |} |} |}.
Proof. intros <-. reflexivity. Qed.

(** The scan of [0x] or [0X] followed by a byte that is no hex digit. *)
Lemma Lex_hex_rollback (x : Z) (tl : list Z) (lval : gesSymType)
  (src : string) :
  x = "x"%c \/ x = "X"%c -> startsHex tl = false -> tl <> [] ->
  bytesOf src ++ [0] = "0"%c :: x :: tl ->
  Lex (newLexer src) lval
  = Done (GTOK_LITERAL, set_offset (newLexer src) 1,
          set_symCtx (set_literal (set_parseType
            (set_parseType lval PARSED_UNDEFINED) PARSED_LITERAL)
            (IntegerType 0)) (ctx (newLexer src))).
Proof.
  intros Hx Hh Hne Hs. destruct tl as [|c tl']; [congruence|].
  simpl in Hh. rewrite (newLexer_source _ _ Hs).
  unfold Lex, lex. cbn [source List.length lexLoop].
  unfold lexOnce. cbn [source offset]. rewrite idx_0.
  cbn [bind Z.eqb]. change (0 + 1) with 1. rewrite idx_1. cbn [bind].
  destruct Hx as [-> | ->].
  all: cbn -[lexNumber].
  all: unfold lexNumber; cbn [source offset set_offset].
  all: change (0 + 1) with 1; rewrite idx_1; cbn [bind Z.eqb Pos.eqb orb].
  all: change (1 + 1) with 2; rewrite idx_2.
  all: cbn [bind offset set_offset source].
  all: change (2 + 1) with 3; rewrite from_3, digitRun_stop by assumption.
  all: cbn [bind Z.eqb Pos.eqb offset set_offset source orb negb andb
            Z.sub Z.add Z.opp Z.pos_sub Pos.pred_double Z.succ_double
            Z.pred_double Z.double].
  all: rewrite slice_0_1; cbn [bind].
  all: reflexivity.
Qed.

Lemma slice_1_run (a x : Z) (l : list Z) :
  slice (a :: x :: l ++ [0]) 1 (1 + len (identRun (x :: l)))
  = Done (firstn (List.length (identRun (x :: l))) (x :: l ++ [0])).
Proof.
  pose proof (identRun_length (x :: l)) as Hl.
  set (r := identRun (x :: l)) in *.
  unfold slice, len. cbn [List.length] in *. rewrite length_app.
  cbn [List.length].
  destruct (Z.ltb_spec 1 0); [lia|].
  destruct (Z.ltb_spec (1 + Z.of_nat (List.length r)) 1); [lia|].
  destruct (Z.ltb_spec (Z.of_nat (S (S (List.length l + 1))))
              (1 + Z.of_nat (List.length r))); [lia|].
  cbn [orb]. f_equal.
  replace (Z.to_nat (1 + Z.of_nat (List.length r) - 1))
    with (List.length r) by lia.
  reflexivity.
Qed.

(** The scan of the [x] the rollback leaves, with what follows it. *)
Lemma Lex_after_rollback (x : Z) (rest : list Z) (lval : gesSymType)
  (src : string) :
  x = "x"%c \/ x = "X"%c ->
  bytesOf src ++ [0] = "0"%c :: x :: rest ++ [0] ->
  Lex (set_offset (newLexer src) 1) lval
  = Done (GTOK_IDENTIFIER,
          set_offset (newLexer src) (2 + len (identRun rest)),
          set_symCtx (set_identifier (set_parseType
            (set_parseType lval PARSED_UNDEFINED) PARSED_IDENTIFIER)
            (stringOf (x :: identRun rest))) (ctx (newLexer src))).
Proof.
  intros Hx Hs. rewrite (newLexer_source _ _ Hs).
  assert (Hrun : identRun (x :: rest) = x :: identRun rest)
    by (destruct Hx as [-> | ->]; reflexivity).
  assert (Hkw : forall ln w, lookupKeyword keywords ln (x :: w) = None).
  { intros. apply lookupKeyword_other.
    destruct Hx as [-> | ->]; vm_compute; reflexivity. }
  assert (Hnch : exists nch, idx (48 :: x :: rest ++ [0]) 2 = Done nch).
  { destruct rest as [|c r]; [exists 0 | exists c]; reflexivity. }
  destruct Hnch as [nch Hnch].
  unfold Lex, lex. cbn [source List.length lexLoop set_offset].
  assert (E : forall lv,
    lexOnce {| source := 48 :: x :: rest ++ [0]; offset := 1;
               lineNumber := 1; regexValid := false; error := None;
               ctx := {| ctxBody := {| Name := ""; Code := [] |} |} |} lv
    = lexWord {| source := 48 :: x :: rest ++ [0]; offset := 1;
                 lineNumber := 1; regexValid := false; error := None;
                 ctx := {| ctxBody := {| Name := ""; Code := [] |} |} |} lv).
  { intros lv. unfold lexOnce. cbn [source offset]. rewrite idx_1.
    change (1 + 1) with 2. rewrite Hnch.
    destruct Hx as [-> | ->]; reflexivity. }
  rewrite E. unfold lexWord. cbn [source offset]. rewrite from_1.
  change (x :: rest ++ [0]) with ((x :: rest) ++ [0]).
  rewrite identEnd_run. cbn [bind]. 
  change ((x :: rest) ++ [0]) with (x :: rest ++ [0]).
  rewrite slice_1_run. cbn [bind].
  change (x :: rest ++ [0]) with ((x :: rest) ++ [0]).
  rewrite identRun_prefix, Hrun, Hkw.
  replace (1 + len (x :: identRun rest)) with (2 + len (identRun rest))
    by (unfold len; cbn [List.length]; lia).
  reflexivity.
Qed.

(** C8: for a source that begins with [0x] or [0X] and goes on with a byte
    that is no hexadecimal digit (or ends there), the first token is the
    Integer literal 0 with only the [0] consumed, and the second is an
    identifier: the [x] with the identifier bytes that follow it. *)
Theorem C8_hex_prefix_rollback (x : ascii) (rest : string)
  (lval : gesSymType) :
  x = "x"%char \/ x = "X"%char ->
  startsHex (bytesOf rest) = false ->
  exists lx1 l1 lx2 l2,
    Lex (newLexer (String "0" (String x rest))) lval
      = Done (GTOK_LITERAL, lx1, l1)
    /\ parseType l1 = PARSED_LITERAL
    /\ literal l1 = Some (IntegerType 0)
    /\ offset lx1 = 1
    /\ Lex lx1 l1 = Done (GTOK_IDENTIFIER, lx2, l2)
    /\ parseType l2 = PARSED_IDENTIFIER
    /\ identifier l2 = String x (stringOf (identRun (bytesOf rest)))
    /\ offset lx2 = 2 + len (identRun (bytesOf rest)).
Proof.
  intros Hx Hh.
  set (xb := Z.of_N (N_of_ascii x)).
  assert (Hxb : xb = "x"%c \/ xb = "X"%c)
    by (destruct Hx as [-> | ->]; [left | right]; reflexivity).
  assert (Hs : bytesOf (String "0" (String x rest)) ++ [0]
               = "0"%c :: xb :: bytesOf rest ++ [0]) by reflexivity.
  do 4 eexists.
  split.
  { apply (Lex_hex_rollback xb (bytesOf rest ++ [0])); auto.
    - destruct (bytesOf rest); [reflexivity | exact Hh].
    - destruct (bytesOf rest); discriminate. }
  split; [reflexivity|]. split; [reflexivity|]. split; [reflexivity|].
  split.
  { apply (Lex_after_rollback xb (bytesOf rest)); auto. }
  split; [reflexivity|]. split; [|reflexivity].
  cbn [identifier set_symCtx set_identifier stringOf]. f_equal.
  unfold xb. now rewrite N2Z.id, ascii_N_embedding.
Qed.

End Numerals.

Section HexLiterals.

Lemma digitRun_hex ds : forall d0 c tl eso ival,
  isHex d0 = true -> forallb isHex ds = true -> isHex c = false ->
  digitRun 16 (ds ++ c :: tl) d0 eso ival
  = Done (eso + 1 + len ds, hexAcc (d0 :: ds) ival, c).
Proof.
  induction ds as [|d1 ds IH]; intros d0 c tl eso ival H0 Hds Hc.
  - simpl app. cbn [digitRun]. rewrite H0. cbn [Z.eqb Pos.eqb].
    rewrite digitRun_stop by assumption. unfold len. cbn [List.length].
    change (Z.of_nat 0) with 0. rewrite Z.add_0_r. reflexivity.
  - simpl in Hds. apply andb_prop in Hds as [H1 Hds].
    simpl app. cbn [digitRun]. rewrite H0. cbn [Z.eqb Pos.eqb].
    rewrite IH by assumption. unfold len. cbn [List.length].
    replace (eso + 1 + 1 + Z.of_nat (List.length ds))
      with (eso + 1 + Z.of_nat (S (List.length ds))) by lia.
    reflexivity.
Qed.

Lemma hexToInt_value c :
  isHex c = true -> hexToInt c = hexDigitValue c /\ 0 <= hexToInt c < 16.
Proof.
  unfold isHex, hexToInt, hexDigitValue, smallLetter.
  rewrite !Z.geb_leb. intros H.
  repeat match goal with
  | _ : context [?a <=? ?b] |- _ => destruct (Z.leb_spec a b)
  | |- context [?a <=? ?b] => destruct (Z.leb_spec a b)
  end; simpl in *; try discriminate; lia.
Qed.

Lemma wrap64_range z : - 2 ^ 63 <= wrap64 z < 2 ^ 63.
Proof.
  unfold wrap64. pose proof (Z.mod_pos_bound (z + 2 ^ 63) (2 ^ 64)). lia.
Qed.

Lemma wrap64_small z : - 2 ^ 63 <= z < 2 ^ 63 -> wrap64 z = z.
Proof.
  intros H. unfold wrap64. rewrite Z.mod_small; lia.
Qed.

Lemma wrap64_eqm a b : (a - b) mod 2 ^ 64 = 0 -> wrap64 a = wrap64 b.
Proof.
  intros H. unfold wrap64. f_equal.
  apply Z.mod_divide in H; [|lia]. destruct H as [k Hk].
  replace (a + 2 ^ 63) with (b + 2 ^ 63 + k * 2 ^ 64) by lia.
  apply Z.mod_add. lia.
Qed.

Lemma wrap64_mod z : (wrap64 z - z) mod 2 ^ 64 = 0.
Proof.
  unfold wrap64. apply Z.mod_divide; [lia|].
  exists (- ((z + 2 ^ 63) / 2 ^ 64)).
  pose proof (Z.div_mod (z + 2 ^ 63) (2 ^ 64)). lia.
Qed.

(** One pass of the hexadecimal loop: the shift and the [|] amount to
    [16 * ival + digit] in 64-bit two's complement. *)
Lemma hex_step iv d :
  0 <= d < 16 -> Z.lor (shl64 iv 4) d = wrap64 (16 * iv + d).
Proof.
  intros Hd. unfold shl64. rewrite Z.shiftl_mul_pow2 by lia.
  change (2 ^ 4) with 16.
  pose proof (wrap64_range (iv * 16)) as Hr.
  pose proof (wrap64_mod (iv * 16)) as Hm.
  apply Z.mod_divide in Hm; [|lia]. destruct Hm as [k Hk].
  set (w := wrap64 (iv * 16)) in *.
  assert (Hw : w = 16 * (iv + k * 2 ^ 60)) by lia.
  assert (Hland : Z.land w d = 0).
  { replace d with (Z.land d (Z.ones 4))
      by (rewrite Z.land_ones by lia; apply Z.mod_small; simpl; lia).
    rewrite Z.land_assoc, (Z.land_comm w d), <- Z.land_assoc.
    rewrite (Z.land_ones w) by lia. rewrite Hw.
    change (2 ^ 4) with 16. rewrite Z.mul_comm, Z.mod_mul by lia.
    apply Z.land_0_r. }
  pose proof (Z.add_lor_land w d) as Hadd. rewrite Hland in Hadd.
  replace (Z.lor w d) with (w + d) by lia.
  symmetry. rewrite <- (wrap64_small (w + d)) by lia.
  apply wrap64_eqm. apply Z.mod_divide; [lia|]. exists (- k). lia.
Qed.

Lemma hexAcc_value ds : forall iv a,
  forallb isHex ds = true -> iv = wrap64 a ->
  hexAcc ds iv
  = wrap64 (fold_left (fun acc c => 16 * acc + hexDigitValue c) ds a).
Proof.
  induction ds as [|d ds IH]; intros iv a Hds Hiv; unfold hexAcc;
    cbn [fold_left]; [exact Hiv|].
  simpl in Hds. apply andb_prop in Hds as [Hd Hds].
  apply hexToInt_value in Hd as [Hv Hd]. apply IH; [exact Hds|].
  rewrite hex_step by exact Hd. rewrite Hv, Hiv.
  apply wrap64_eqm. pose proof (wrap64_mod a) as Hm.
  apply Z.mod_divide in Hm; [|lia]. destruct Hm as [k Hk].
  apply Z.mod_divide; [lia|]. exists (16 * k). lia.
Qed.

(** The scan of [0x] or [0X] followed by hexadecimal digits. *)
Lemma Lex_hex (x d0 : Z) (ds tl : list Z) (lval : gesSymType) (src : string) :
  x = "x"%c \/ x = "X"%c ->
  isHex d0 = true -> forallb isHex ds = true ->
  startsHex tl = false -> tl <> [] ->
  bytesOf src ++ [0] = "0"%c :: x :: d0 :: ds ++ tl ->
  Lex (newLexer src) lval
  = Done (GTOK_LITERAL, set_offset (newLexer src) (3 + len ds),
          set_symCtx (set_literal (set_parseType
            (set_parseType lval PARSED_UNDEFINED) PARSED_LITERAL)
            (IntegerType (hexAcc (d0 :: ds) 0))) (ctx (newLexer src))).
Proof.
  intros Hx H0 Hds Hh Hne Hs. destruct tl as [|c tl']; [congruence|].
  simpl in Hh. rewrite (newLexer_source _ _ Hs).
  unfold Lex, lex. cbn [source List.length lexLoop].
  unfold lexOnce. cbn [source offset]. rewrite idx_0.
  cbn [bind Z.eqb]. change (0 + 1) with 1. rewrite idx_1. cbn [bind].
  assert (Hne2 : (2 + 1 + len ds =? 2) = false)
    by (apply Z.eqb_neq; unfold len; lia).
  destruct Hx as [-> | ->].
  all: cbn -[lexNumber].
  all: unfold lexNumber; cbn [source offset set_offset].
  all: change (0 + 1) with 1; rewrite idx_1; cbn [bind Z.eqb Pos.eqb orb].
  all: change (1 + 1) with 2; rewrite idx_2.
  all: cbn [bind offset set_offset source].
  all: change (2 + 1) with 3; rewrite from_3, digitRun_hex by assumption.
  all: cbn [bind offset set_offset]; change (2 + 1) with 3 in Hne2 |- *.
  all: rewrite Hne2; cbn [Z.eqb Pos.eqb orb].
  all: reflexivity.
Qed.

Lemma hexValue_nonneg ds : forallb isHex ds = true -> 0 <= hexValue ds.
Proof.
  unfold hexValue. assert (H : forall a, 0 <= a -> forallb isHex ds = true ->
    0 <= fold_left (fun acc c => 16 * acc + hexDigitValue c) ds a).
  { induction ds as [|d ds IH]; intros a Ha Hds; cbn [fold_left]; [exact Ha|].
    simpl in Hds. apply andb_prop in Hds as [Hd Hds].
    apply hexToInt_value in Hd as [Hv Hd]. apply IH; [lia | exact Hds]. }
  apply H. lia.
Qed.

(** C9 (as the code has it): for a source that begins with [0x] or [0X]
    and at least one hexadecimal digit, the first token is an Integer
    literal that spans the whole run of hexadecimal digits and whose value is
    the base-16 reading of the run, most significant digit first and blind to
    the case of the letters, reduced to 64-bit two's complement; it is that
    reading itself when the reading is below [2 ^ 63]. *)
Theorem C9_hex_value (x : ascii) (digits rest : string) (lval : gesSymType) :
  x = "x"%char \/ x = "X"%char ->
  digits <> ""%string ->
  forallb isHex (bytesOf digits) = true ->
  startsHex (bytesOf rest) = false ->
  exists lx' l',
    Lex (newLexer (String "0" (String x (digits ++ rest)))) lval
      = Done (GTOK_LITERAL, lx', l')
    /\ parseType l' = PARSED_LITERAL
    /\ literal l' = Some (IntegerType (wrap64 (hexValue (bytesOf digits))))
    /\ offset lx' = 2 + len (bytesOf digits)
    /\ (hexValue (bytesOf digits) < 2 ^ 63 ->
        literal l' = Some (IntegerType (hexValue (bytesOf digits)))).
Proof.
  intros Hx Hne Hds Hh.
  set (xb := Z.of_N (N_of_ascii x)).
  assert (Hxb : xb = "x"%c \/ xb = "X"%c)
    by (destruct Hx as [-> | ->]; [left | right]; reflexivity).
  destruct (bytesOf digits) as [|d0 ds] eqn:Ed.
  { destruct digits; [congruence | discriminate]. }
  assert (Hs : bytesOf (String "0" (String x (digits ++ rest))) ++ [0]
               = "0"%c :: xb :: d0 :: ds ++ (bytesOf rest ++ [0])).
  { cbn [bytesOf]. rewrite bytesOf_app, Ed. cbn [app].
    now rewrite <- app_assoc. }
  cbn [forallb] in Hds. apply andb_prop in Hds as [H0 Hds].
  assert (Hv : hexAcc (d0 :: ds) 0 = wrap64 (hexValue (d0 :: ds))).
  { apply hexAcc_value; [cbn [forallb]; now rewrite H0, Hds | reflexivity]. }
  do 2 eexists. split.
  { apply (Lex_hex xb d0 ds (bytesOf rest ++ [0])); auto.
    - destruct (bytesOf rest); [reflexivity | exact Hh].
    - destruct (bytesOf rest); discriminate. }
  split; [reflexivity|]. cbn [literal set_symCtx set_literal offset set_offset].
  rewrite Hv. split; [reflexivity|].
  split; [unfold len; cbn [List.length]; lia|].
  intros Hlt. rewrite wrap64_small; [reflexivity|].
  pose proof (hexValue_nonneg (d0 :: ds)) as Hn.
  cbn [forallb] in Hn. rewrite H0, Hds in Hn. specialize (Hn eq_refl). lia.
Qed.

(** C9 fails as stated on a run of seventeen digits: the base-16 reading
    of the run is [2 ^ 64], the Integer scanned is 0. *)
Lemma C9_counterexample :
  exists lx l,
    Lex (newLexer "0x10000000000000000") zeroSym = Done (GTOK_LITERAL, lx, l)
    /\ literal l = Some (IntegerType 0)
    /\ hexValue (bytesOf "10000000000000000") = 2 ^ 64
    /\ offset lx = 19.
Proof.
  do 2 eexists. split; [vm_compute; reflexivity|].
  repeat split.
Qed.

End HexLiterals.

(** ** Inputs on which the scanner is run *)

Section Literals.

(** An escaped line break inside a string literal, at any point of the scan
    and in each of its three forms, moves the line counter on by one and
    appends one space to the decoded bytes. *)
Lemma strLoop_escaped_LF l qch eso line str :
  qch <> "\"%c ->
  strLoop ("\"%c :: LF :: l) qch eso line str
  = strLoop l qch (eso + 2) (line + 1) (str ++ [" "%c]).
Proof.
  intros Hq. cbn [strLoop]. apply Z.eqb_neq in Hq. rewrite Z.eqb_sym, Hq.
  reflexivity.
Qed.

Lemma strLoop_escaped_CRLF l qch eso line str :
  qch <> "\"%c ->
  strLoop ("\"%c :: CR :: LF :: l) qch eso line str
  = strLoop l qch (eso + 3) (line + 1) (str ++ [" "%c]).
Proof.
  intros Hq. cbn [strLoop]. apply Z.eqb_neq in Hq. rewrite Z.eqb_sym, Hq.
  reflexivity.
Qed.

Lemma strLoop_escaped_CR l n qch eso line str :
  qch <> "\"%c -> n <> LF ->
  strLoop ("\"%c :: CR :: n :: l) qch eso line str
  = strLoop (n :: l) qch (eso + 2) (line + 1) (str ++ [" "%c]).
Proof.
  intros Hq Hn. cbn [strLoop]. apply Z.eqb_neq in Hq, Hn.
  rewrite Z.eqb_sym, Hq. cbn [Z.eqb Pos.eqb orb]. rewrite Hn. reflexivity.
Qed.

(** C1 (code as it is): inside a string literal, whichever quote opens it
    and wherever the scan stands, a backslash followed by a line feed, by a
    carriage return, or by both, adds one to the line counter and one space
    to the decoded bytes; so [a], an escaped line break and [b] between
    quotes scan as the String [a b], not [ab]. *)
Theorem C1_escaped_line_break_is_a_space :
  Forall (fun qch =>
    forall l eso line str,
      strLoop ("\"%c :: LF :: l) qch eso line str
        = strLoop l qch (eso + 2) (line + 1) (str ++ [" "%c])
      /\ forall n,
           strLoop ("\"%c :: CR :: n :: l) qch eso line str
           = if n =? LF
             then strLoop l qch (eso + 3) (line + 1) (str ++ [" "%c])
             else strLoop (n :: l) qch (eso + 2) (line + 1) (str ++ [" "%c]))
    [DQUOTE; "'"%c]
  /\ Forall (fun brk =>
       exists lx l,
         Lex (newLexer ("'a\" ++ brk ++ "b'")) zeroSym
           = Done (GTOK_LITERAL, lx, l)
         /\ literal l = Some (StringType "a b")
         /\ lineNumber lx = 2
         /\ offset lx = len (bytesOf ("'a\" ++ brk ++ "b'")))
       [lf; cr; (cr ++ lf)%string].
Proof.
  split.
  - repeat constructor.
    all: try (apply strLoop_escaped_LF; discriminate).
    all: intros n; destruct (Z.eqb_spec n LF) as [->|Hn].
    all: try (apply strLoop_escaped_CRLF; discriminate).
    all: apply strLoop_escaped_CR; [discriminate | exact Hn].
  - repeat constructor; do 2 eexists;
      (split; [vm_compute; reflexivity | repeat split]).
Qed.

(** A leading byte that starts no operator: the error token is returned and
    neither the scanner nor the token record is touched. *)
Lemma lexOperator_error lx lval ch nch lx' lval' :
  lexOperator lx lval ch nch = Done (Return GTOK_ERROR lx' lval') ->
  lx' = lx /\ lval' = lval.
Proof.
  unfold lexOperator. intros H. scan H. auto.
Qed.

(** C7 (code as it is): a leading byte that starts no token makes [Lex]
    return the error token and leaves the error slot empty, where an
    unterminated string records its message. *)
Theorem C7_unrecognized_byte_records_no_message :
  exists lx l lx' l',
    Lex (newLexer "# abc") zeroSym = Done (GTOK_ERROR, lx, l)
    /\ error lx = None
    /\ Lex (newLexer "'abc") zeroSym = Done (GTOK_ERROR, lx', l')
    /\ error lx' = Some (Text "Unterminated string literal").
Proof.
  do 4 eexists. split; [vm_compute; reflexivity|]. split; [reflexivity|].
  split; [vm_compute; reflexivity | reflexivity].
Qed.

(** What [Parse] returns when the parser fails: the message in the scanner's
    error slot, or the generic one when the slot is empty. *)
Lemma Parse_failure gesParse src rc lx :
  gesParse (newLexer src) = Done (rc, lx) -> rc <> 0 ->
  Parse gesParse src
  = Done (None, Some (match error lx with
                      | Some msg => msg
                      | None => Text "Unknown parsing error"
                      end)).
Proof.
  intros H Hrc. unfold Parse. rewrite H. cbn [bind].
  apply Z.eqb_neq in Hrc. rewrite Hrc. cbn [negb].
  destruct (error lx); reflexivity.
Qed.

(** C10: the loop that re-scans a floating literal takes a [-] wherever it
    stands, so that [1.0-2] is handed to the conversion whole and the scanner
    returns the error token with an invalid-float message, where [1.0 -2]
    scans as a Number, the operator [-] and an Integer. *)
Theorem C10_float_rescan_swallows_minus :
  (forall l c eso, floatRun (c :: l) "-"%c eso = floatRun l c (eso + 1))
  /\ (exists lx l,
        Lex (newLexer "1.0-2") zeroSym = Done (GTOK_ERROR, lx, l)
        /\ error lx
           = Some (TextNumError "Invalid literal float: "
                     (Strconv.syntaxError "ParseFloat" (bytesOf "1.0-2"))))
  /\ map fst (tokens 4 (newLexer "1.0 -2") zeroSym)
     = [GTOK_LITERAL; GTOK_SUB; GTOK_LITERAL].
Proof.
  split; [reflexivity|]. split.
  - do 2 eexists. split; [vm_compute; reflexivity | reflexivity].
  - vm_compute. reflexivity.
Qed.

End Literals.

(** ** The tests of the repository, on the embedding *)

Section RepositoryTests.

Example TestComments :
  exists lx l,
    Lex (newLexer
      ("  // This is a single line comment" ++ cr ++ lf
       ++ "  /* This is a single line multi-line comment */" ++ lf
       ++ tab ++ "/*" ++ lf
       ++ "   * This is a multi-line comment..." ++ cr ++ lf
       ++ "   */" ++ cr ++ lf
       ++ "  // Note that there are tabs in here for whitespace scanning..."))
      zeroSym = Done (T0, lx, l)
    /\ lineNumber lx = 6.
Proof. do 2 eexists. split; [vm_compute; reflexivity | reflexivity]. Qed.

Example TestMixedWords :
  map fst (tokens 5 (newLexer (tab ++ "if" ++ lf ++ "abcd while")) zeroSym)
  = [GTOK_IF; GTOK_IDENTIFIER; GTOK_WHILE].
Proof. vm_compute. reflexivity. Qed.

Example TestNumerics :
  map (fun r => (fst r, identifier (snd r), literal (snd r)))
      (tokens 20 (newLexer "0 12a 007a 0x0aBc 0xyz 123456789") zeroSym)
  = [ (GTOK_LITERAL, "", Some (IntegerType 0));
      (GTOK_LITERAL, "", Some (IntegerType 12));
      (GTOK_IDENTIFIER, "a", Some (IntegerType 12));
      (GTOK_LITERAL, "a", Some (IntegerType 7));
      (GTOK_IDENTIFIER, "a", Some (IntegerType 7));
      (GTOK_LITERAL, "a", Some (IntegerType 2748));
      (GTOK_LITERAL, "a", Some (IntegerType 0));
      (GTOK_IDENTIFIER, "xyz", Some (IntegerType 0));
      (GTOK_LITERAL, "xyz", Some (IntegerType 123456789)) ]%string.
Proof. vm_compute. reflexivity. Qed.

Example TestNumerics_floats :
  map (fun r => (fst r, literal (snd r)))
      (tokens 20 (newLexer "0. 12.0 1.234e3") zeroSym)
  = [ (GTOK_LITERAL, Some (NumberType (S754_zero false)));
      (GTOK_LITERAL, Some (NumberType (Strconv.nearest64 false 12 0)));
      (GTOK_LITERAL, Some (NumberType (Strconv.nearest64 false 1234 0))) ].
Proof. vm_compute. reflexivity. Qed.

Example TestStrings_escapes :
  map (fun r => (fst r, literal (snd r)))
      (tokens 5 (newLexer ("'\b\f\n\t\v\\\'\" ++ dq ++ "\" ++ cr ++ lf
                           ++ "\" ++ lf ++ "a'")) zeroSym)
  = [ (GTOK_LITERAL,
       Some (StringType (stringOf [BS; FF; LF; TAB; VT; "\"%c; "'"%c; DQUOTE;
                                    " "%c; " "%c; "a"%c]))) ].
Proof. vm_compute. reflexivity. Qed.

Example TestStrings_hex_octal :
  map (fun r => (fst r, literal (snd r)))
      (tokens 5 (newLexer "'J\x65ff \X77u\x7A h\145re\41'") zeroSym)
  = [ (GTOK_LITERAL, Some (StringType "Jeff wuz here!")) ].
Proof. vm_compute. reflexivity. Qed.

Example TestStrings_unicode :
  map (fun r => (fst r, literal (snd r)))
      (tokens 5 (newLexer ("'" ++ stringOf [206; 164; 206; 182] ++ "\u03B5"
                           ++ stringOf [207; 134] ++ "'")) zeroSym)
  = [ (GTOK_LITERAL,
       Some (StringType (stringOf [206; 164; 206; 182; 206; 181; 207; 134]))) ].
Proof. vm_compute. reflexivity. Qed.

Example TestRegex :
  let lx := set_regexValid (newLexer "/abc/ if /def/") true in
  map fst (tokens 2 lx zeroSym) = [GTOK_REGEXP; GTOK_IF]
  /\ match lexN 2 lx zeroSym with
     | Some (_, lx2, l2) => map fst (tokens 2 (set_regexValid lx2 true) l2)
     | None => []
     end = [GTOK_REGEXP].
Proof. split; vm_compute; reflexivity. Qed.

Example TestErrors :
  map (fun src => map fst (tokens 3 (newLexer src) zeroSym))
      [ "/* This is a comment that never ends...";
        "9999999999999999999999999999999999999999999999999999999999";
        "9.9.e1.2"; "'This is a string that never ends...";
        "'Invalid hex \xaz'"; "'Invalid Unicode \u000z'";
        "'Invalid escape \z'"; "# abc"; "case /abc" ]%string
  = [ [GTOK_ERROR]; [GTOK_ERROR]; [GTOK_ERROR]; [GTOK_ERROR]; [GTOK_ERROR];
      [GTOK_ERROR]; [GTOK_ERROR]; [GTOK_ERROR]; [GTOK_CASE; GTOK_ERROR] ].
Proof. vm_compute. reflexivity. Qed.

Example TestValueEscape_run :
  Exec (program [pushOp (IntegerType 1)]) newProcess
  = Done (Some (IntegerType 1), None).
Proof. vm_compute. reflexivity. Qed.

Example TestOperators :
  map (fun r => (fst r, assignOp (snd r)))
      (tokens 80 (newLexer
         ("{ } ( ) [ ] . ; , ~ ? : < <= << <<= > >= >> >>= >>> >>>= "
          ++ "= == === =~ ! != !== !~ + ++ += - -- -= * *= / /= "
          ++ "% %= & && &= | || |= ^ ^=")) zeroSym)
  = [ (GTOK_LC, T0); (GTOK_RC, T0); (GTOK_LP, T0); (GTOK_RP, T0);
      (GTOK_LB, T0); (GTOK_RB, T0); (GTOK_DOT, T0); (GTOK_SEMI, T0);
      (GTOK_COMMA, T0); (GTOK_TILDE, T0); (GTOK_QMARK, T0); (GTOK_COLON, T0);
      (GTOK_LT, T0); (GTOK_LTEQ, T0); (GTOK_LTLT, T0);
      (GTOK_ASSIGNOP, GTOK_LTLT); (GTOK_GT, GTOK_LTLT);
      (GTOK_GTEQ, GTOK_LTLT); (GTOK_GTGT, GTOK_LTLT);
      (GTOK_ASSIGNOP, GTOK_GTGT); (GTOK_GTGTGT, GTOK_GTGT);
      (GTOK_ASSIGNOP, GTOK_GTGTGT);
      (GTOK_ASSIGNOP, T0); (GTOK_EQEQ, T0); (GTOK_EQEQEQ, T0);
      (GTOK_REGEQ, T0); (GTOK_NOT, T0); (GTOK_NOTEQ, T0);
      (GTOK_NOTEQEQ, T0); (GTOK_REGNOTEQ, T0);
      (GTOK_ADD, T0); (GTOK_INCR, T0); (GTOK_ASSIGNOP, GTOK_ADD);
      (GTOK_SUB, GTOK_ADD); (GTOK_DECR, GTOK_ADD);
      (GTOK_ASSIGNOP, GTOK_SUB); (GTOK_MULT, GTOK_SUB);
      (GTOK_ASSIGNOP, GTOK_MULT); (GTOK_DIV, GTOK_MULT);
      (GTOK_ASSIGNOP, GTOK_DIV);
      (GTOK_MOD, GTOK_DIV); (GTOK_ASSIGNOP, GTOK_MOD); (GTOK_AND, GTOK_MOD);
      (GTOK_ANDAND, GTOK_MOD); (GTOK_ASSIGNOP, GTOK_AND);
      (GTOK_OR, GTOK_AND); (GTOK_OROR, GTOK_AND); (GTOK_ASSIGNOP, GTOK_OR);
      (GTOK_XOR, GTOK_OR); (GTOK_ASSIGNOP, GTOK_XOR) ].
Proof. vm_compute. reflexivity. Qed.

End RepositoryTests.

(** ** The stack machine, further *)

Section StackMachineMore.

Lemma set_nth_app {A} (a b : list A) x v :
  set_nth (a ++ x :: b) (List.length a) v = Some (a ++ v :: b).
Proof.
  induction a as [|y a IH]; simpl; [reflexivity|]. now rewrite IH.
Qed.

Lemma upd_app {A} (a b : list A) x v :
  upd (a ++ x :: b) (len a) v = Done (a ++ v :: b).
Proof.
  unfold upd, len. destruct (Z.ltb_spec (Z.of_nat (List.length a)) 0); [lia|].
  now rewrite Nat2Z.id, set_nth_app.
Qed.

(** X1: a push followed by a look or a pop gives back the value pushed; the
    pop restores the stack pointer, the look changes nothing. *)
Theorem push_then_pop (prc : Process) (val : option DataType) :
  0 <= sp prc < len (stack prc) ->
  exists p1,
    push prc val = Done (p1, None)
    /\ sp p1 = sp prc + 1
    /\ peek p1 = Done (p1, val, None)
    /\ pop p1 = Done (set_sp p1 (sp prc), val, None)
    /\ forall m, m <> Z.to_nat (sp prc) ->
         nth_error (stack p1) m = nth_error (stack prc) m.
Proof.
  intros Hsp.
  destruct (set_nth_Some (stack prc) (Z.to_nat (sp prc)) val) as [st Hst].
  { unfold len in Hsp. lia. }
  exists (set_sp (set_stack prc st) (sp prc + 1)).
  assert (Hi : idx st (sp prc) = Done val).
  { apply idx_Done. split; [lia|]. eapply set_nth_same; eauto. }
  split.
  { unfold push, upd. destruct (Z.ltb_spec (sp prc) 0); [lia|].
    now rewrite Hst. }
  split; [reflexivity|]. split.
  { unfold peek. cbn [stack sp set_sp set_stack].
    replace (sp prc + 1 - 1) with (sp prc) by lia. now rewrite Hi. }
  split.
  { unfold pop. cbn [stack sp set_sp set_stack].
    replace (sp prc + 1 - 1) with (sp prc) by lia. now rewrite Hi. }
  intros m Hm. cbn [stack set_sp set_stack]. eapply set_nth_other; eauto.
Qed.

Lemma repeat_cons_S {A} (x : A) n : repeat x (S n) = x :: repeat x n.
Proof. reflexivity. Qed.

Lemma pushed_step fn vs v :
  (List.length vs < 16)%nat ->
  call PushLiteralValueFn (pushed fn vs) (pushOp v)
  = Done (set_pc (pushed fn (vs ++ [v])) (len vs), None).
Proof.
  intros Hl. cbn [call]. unfold PushLiteralValue, push.
  cbn [OpData pushOp pushed stack sp].
  replace (16 - List.length vs)%nat with (S (16 - List.length (vs ++ [v])))
    by (rewrite length_app; cbn [List.length]; lia).
  rewrite repeat_cons_S. unfold len at 1.
  rewrite <- (length_map Some vs). fold (len (map Some vs)).
  rewrite upd_app. cbn [bind].
  unfold set_pc, set_sp, set_stack, pushed.
  cbn [body pc stack sp].
  assert (Hst : forall t, map Some vs ++ Some v :: t
                          = map Some (vs ++ [v]) ++ t).
  { intros t. rewrite map_app, <- app_assoc. reflexivity. }
  assert (Hsp : len vs + 1 = len (vs ++ [v])).
  { unfold len. rewrite length_app. cbn [List.length]. lia. }
  rewrite Hst, Hsp. reflexivity.
Qed.

Lemma runs_pushes fn vs : forall pre,
  (List.length pre + List.length vs <= 16)%nat ->
  runs (map pushOp vs) (pushed fn pre) (pushed fn (pre ++ vs)).
Proof.
  induction vs as [|v vs IH]; intros pre Hl.
  - rewrite app_nil_r. constructor.
  - simpl in Hl. cbn [map]. eapply runs_cons.
    + cbn [ExecFn pushOp]. apply pushed_step. lia.
    + replace (set_pc _ _) with (pushed fn (pre ++ [v])).
      * replace (pre ++ v :: vs) with ((pre ++ [v]) ++ vs)
          by now rewrite <- app_assoc.
        apply IH. rewrite length_app. simpl. lia.
      * unfold set_pc, pushed. cbn. f_equal.
        unfold len. rewrite length_app. simpl. lia.
Qed.

Lemma last_nth {A} (l : list A) d :
  l <> [] -> nth_error l (List.length l - 1) = Some (last l d).
Proof.
  induction l as [|a l IH]; [congruence|]. intros _.
  destruct l as [|b l]; [reflexivity|].
  cbn [List.length last]. replace (S (S (List.length l)) - 1)%nat
    with (S (List.length (b :: l) - 1)) by (cbn [List.length]; lia).
  cbn [nth_error]. apply IH. discriminate.
Qed.

Lemma ExecLoop_end fn p ran fuel :
  body p = Some fn -> pc p = len (Code fn) ->
  ExecLoop (S fuel) p ran = (ran, Done (Break p)).
Proof.
  intros Hb Hpc. cbn [ExecLoop]. rewrite Hb. cbn [deref]. rewrite Hpc.
  destruct (Z.ltb_spec (len (Code fn)) 0); [unfold len in *; lia|].
  destruct (Z.geb_spec (len (Code fn)) (len (Code fn))); [|lia].
  reflexivity.
Qed.

(** X2: a Function that only pushes literals returns the last of them, as
    long as there are at most sixteen: Undefined when there is none, and an
    index-out-of-range panic from the seventeenth push on. *)
Theorem Exec_pushes (vs : list DataType) (prc : Process) :
  Exec (program (map pushOp vs)) prc
  = if (List.length vs <=? 16)%nat
    then Done (Some (last vs Undefined), None)
    else Panicked IndexOutOfRange.
Proof.
  set (fn := program (map pushOp vs)).
  assert (Hstart : start fn prc = pushed fn []) by reflexivity.
  unfold Exec, ExecTrace. rewrite Hstart.
  destruct (Nat.leb_spec (List.length vs) 16) as [Hle|Hgt].
  - pose proof (runs_pushes fn vs [] ltac:(simpl; lia)) as Hr.
    cbn [app] in Hr.
    replace (S (List.length (Code fn)))
      with (List.length (map pushOp vs) + 1)%nat
      by (unfold fn; cbn [Code program]; lia).
    rewrite (ExecLoop_runs fn (map pushOp vs) 1 [] [] (pushed fn [])
               (pushed fn vs) [] ltac:(now rewrite app_nil_r)
               eq_refl eq_refl Hr).
    rewrite (ExecLoop_end fn);
      [|reflexivity
       |unfold fn; cbn [pc pushed Code program]; unfold len;
        now rewrite length_map].
    cbn [snd bind sp pushed stack].
    destruct vs as [|v vs']; [reflexivity|].
    assert (Hpos : (len (v :: vs') >? 0) = true).
    { apply Z.gtb_lt. unfold len. cbn [List.length]. lia. }
    rewrite Hpos.
    assert (Hidx : idx (map Some (v :: vs')
                        ++ repeat None (16 - List.length (v :: vs')))
                     (len (v :: vs') - 1)
                   = Done (Some (last (v :: vs') Undefined))).
    { apply idx_Done. unfold len. split; [cbn [List.length]; lia|].
      replace (Z.to_nat (Z.of_nat (List.length (v :: vs')) - 1))
        with (List.length (map Some (v :: vs')) - 1)%nat
        by (rewrite length_map; lia).
      rewrite nth_error_app1 by (rewrite length_map; cbn [List.length]; lia).
      rewrite (last_nth _ None) by discriminate.
      f_equal. clear. revert v. induction vs' as [|w vs' IH]; intros v.
      - reflexivity.
      - change (last (map Some (v :: w :: vs')) None)
          with (last (map Some (w :: vs')) None).
        rewrite IH. reflexivity. }
    rewrite Hidx. reflexivity.
  - assert (Hsplit : vs = firstn 16 vs ++ skipn 16 vs)
      by (symmetry; apply firstn_skipn).
    assert (Hl1 : List.length (firstn 16 vs) = 16%nat)
      by (rewrite length_firstn; lia).
    destruct (skipn 16 vs) as [|v vs2] eqn:Es.
    { rewrite app_nil_r in Hsplit. rewrite Hsplit in Hgt. lia. }
    set (vs1 := firstn 16 vs) in *.
    pose proof (runs_pushes fn vs1 [] ltac:(simpl; lia)) as Hr.
    cbn [app] in Hr.
    assert (Hc : Code fn = [] ++ map pushOp vs1 ++ pushOp v :: map pushOp vs2).
    { unfold fn. cbn [Code program app]. rewrite Hsplit at 1.
      rewrite map_app. reflexivity. }
    replace (S (List.length (Code fn)))
      with (List.length (map pushOp vs1) + S (S (List.length vs2)))%nat.
    2:{ rewrite Hc. cbn [app]. rewrite length_app. cbn [List.length].
        rewrite !length_map. lia. }
    rewrite (ExecLoop_runs fn (map pushOp vs1) _ [] _ (pushed fn [])
               (pushed fn vs1) [] Hc eq_refl eq_refl Hr).
    cbn [ExecLoop body pushed deref pc]. rewrite Hc. cbn [app].
    assert (Hlen : len vs1 = len (map pushOp vs1))
      by (unfold len; now rewrite length_map).
    rewrite Hlen.
    destruct (Z.ltb_spec (len (map pushOp vs1)) 0); [unfold len in *; lia|].
    destruct (Z.geb_spec (len (map pushOp vs1))
                (len (map pushOp vs1 ++ pushOp v :: map pushOp vs2)))
      as [Hge|_].
    { unfold len in Hge. rewrite length_app in Hge. simpl in Hge. lia. }
    cbn [orb]. rewrite idx_app_mid. cbn [ExecFn pushOp call].
    unfold PushLiteralValue. cbn [OpData pushOp].
    rewrite push_full; [reflexivity|].
    cbn [stack sp pushed]. unfold len.
    rewrite length_app, length_map, repeat_length. lia.
Qed.

(** X3: two pushes and an addition: the result is the wrapping sum of two
    Integers and Undefined for any other pair, whichever of the two values
    is pushed first. *)
Theorem Exec_push_push_add (x y : DataType) (prc : Process) :
  Exec (program [pushOp x; pushOp y; addOp]) prc = Done (Some (sumOf y x), None)
  /\ sumOf y x = sumOf x y.
Proof.
  split.
  - destruct x, y; reflexivity.
  - destruct x, y; try reflexivity. simpl. now rewrite Z.add_comm.
Qed.

(** X4: with fewer than two values on the stack the addition instruction
    panics on an index out of range, whatever the stack holds; it does not
    return an error value. *)
Theorem AdditionOperation_underflow (prc : Process) (op : OpCode) :
  sp prc < 2 -> AdditionOperation prc op = Panicked IndexOutOfRange.
Proof.
  intros Hsp. unfold AdditionOperation, pop. cbn [sp set_sp stack].
  destruct (idx (stack prc) (sp prc - 1)) as [l|p|] eqn:E1; cbn [bind].
  - assert (H1 : sp prc = 1) by (apply idx_range in E1; lia).
    unfold idx. rewrite H1. reflexivity.
  - unfold idx in E1. destruct (sp prc - 1 <? 0); [congruence|].
    destruct (nth_error _ _); congruence.
  - now apply idx_not_starved in E1.
Qed.


Lemma idx_skipn {A} (l : list A) i a :
  idx l i = Done a ->
  skipn (Z.to_nat i) l = a :: skipn (Z.to_nat (i + 1)) l.
Proof.
  intros H. apply idx_Done in H as [Hi H].
  replace (Z.to_nat (i + 1)) with (S (Z.to_nat i)) by lia.
  revert H. generalize (Z.to_nat i). clear.
  induction l as [|b l IH]; intros [|n]; simpl; try discriminate.
  - now intros [= ->].
  - apply IH.
Qed.

(** The loop of [Exec] that runs off the end has invoked every instruction
    from its program counter on, once each and in order, none of which
    failed. *)
Lemma ExecLoop_Break fn : forall fuel p ran ran' p',
  body p = Some fn -> 0 <= pc p ->
  ExecLoop fuel p ran = (ran', Done (Break p')) ->
  runs (skipn (Z.to_nat (pc p)) (Code fn)) p p'
  /\ ran' = ran ++ map (fun i => pc p + Z.of_nat i)
                     (seq 0 (List.length (Code fn) - Z.to_nat (pc p))).
Proof.
  induction fuel as [|fuel IH]; intros p ran ran' p' Hb Hpc H;
    [discriminate|].
  cbn [ExecLoop] in H. rewrite Hb in H. cbn [deref] in H.
  destruct (Z.ltb_spec (pc p) 0); [lia|]. cbn [orb] in H.
  destruct (Z.geb_spec (pc p) (len (Code fn))) as [Hge|Hlt].
  - injection H as <- <-. unfold len in Hge.
    rewrite skipn_all2 by lia.
    replace (List.length (Code fn) - Z.to_nat (pc p))%nat with 0%nat by lia.
    cbn [seq map]. rewrite app_nil_r. split; [constructor | reflexivity].
  - destruct (idx (Code fn) (pc p)) as [op| |] eqn:Ei; try discriminate.
    destruct (call (ExecFn op) p op) as [[p1 [e|]]| |] eqn:Ec;
      try discriminate.
    pose proof (call_control _ _ _ _ _ Ec) as [Hpc1 Hb1].
    apply IH in H; cbn [body pc set_pc]; try congruence; try lia.
    destruct H as [Hr ->]. cbn [pc set_pc] in Hr.
    rewrite (idx_skipn _ _ _ Ei). rewrite <- Hpc1. split.
    + eapply runs_cons; eauto.
    + unfold len in Hlt.
      replace (List.length (Code fn) - Z.to_nat (pc p1))%nat
        with (S (List.length (Code fn) - Z.to_nat (pc p1 + 1)))
        by lia.
      cbn [seq map pc set_pc]. rewrite <- app_assoc. cbn [app].
      rewrite Z.add_0_r, Hpc1. do 2 f_equal.
      rewrite <- seq_shift, map_map. apply map_ext. intros. lia.
Qed.

(** X6: when [Exec] returns a value, every instruction of the Function was
    invoked once, in order, and none failed; the value is the one on top of
    the stack they leave, or Undefined. *)
Theorem Exec_value_runs (fn : Function) (prc : Process) (v : DataType) :
  Exec fn prc = Done (Some v, None) ->
  exists p',
    runs (Code fn) (start fn prc) p'
    /\ topOrUndefined p' v
    /\ fst (ExecTrace fn prc) = counters (List.length (Code fn)).
Proof.
  unfold Exec, ExecTrace.
  destruct (ExecLoop _ _ _) as [ran r] eqn:EL. cbn [snd fst].
  destruct r as [[p'|e]| |]; cbn [bind]; try discriminate.
  intros H. apply (ExecLoop_Break fn) in EL as [Hr ->];
    [|reflexivity | cbn; lia].
  cbn [pc start Z.to_nat skipn] in Hr. exists p'. split; [exact Hr|].
  split.
  - unfold topOrUndefined. destruct (sp p' >? 0).
    + destruct (idx (stack p') (sp p' - 1)) as [[w|]| |] eqn:Ei;
        cbn [bind deref] in H; try discriminate.
      injection H as ->. now apply idx_Done in Ei.
    + now injection H as ->.
  - cbn [pc start app Z.to_nat]. rewrite Nat.sub_0_r. unfold counters.
    apply map_ext. intros. lia.
Qed.


End StackMachineMore.

Section EntryPoints.

Variable gesParse : gesLex -> Run (Z * gesLex).

(** X7: [Run] is [Parse] followed by [Exec] on a fresh process: when the
    parser reports a failure nothing is executed and the error carries the
    message of the scanner's error slot or, the slot being empty, the
    generic one; when it reports success the function the parse built is
    executed. *)
Theorem Run_composes (src : string) (rc : Z) (lx : gesLex) :
  gesParse (newLexer src) = Done (rc, lx) ->
  Gescript.Run gesParse src
  = if rc =? 0 then Exec (ctxBody (ctx lx)) newProcess
    else Done (None, Some (match error lx with
                           | Some msg => msg
                           | None => Text "Unknown parsing error"
                           end)).
Proof.
  intros H. unfold Gescript.Run, Gescript.Parse, Parser.Parse.
  rewrite H. cbn [bind]. destruct (rc =? 0); cbn [negb].
  - reflexivity.
  - destruct (error lx); reflexivity.
Qed.


End EntryPoints.

(** ** The scanner never leaves its source *)

Section Sentinel.

Lemma returns_bind {A B} (m : Run A) (k : A -> Run B) (P : B -> Prop) :
  returns m (fun a => returns (k a) P) -> returns (bind m k) P.
Proof. destruct m; simpl; auto. Qed.

Lemma returns_weaken {A} (r : Run A) (P Q : A -> Prop) :
  returns r P -> (forall a, P a -> Q a) -> returns r Q.
Proof. destruct r; simpl; auto. Qed.

Lemma returns_Done {A} (r : Run A) (P : A -> Prop) :
  returns r P -> exists a, r = Done a /\ P a.
Proof. destruct r; simpl; try tauto. eauto. Qed.

Lemma reaches_refl l eso : reaches l eso l eso.
Proof. exists 0%nat. split; [reflexivity | lia]. Qed.

Lemma reaches_cons c l eso l' eso' :
  reaches l (eso + 1) l' eso' -> reaches (c :: l) eso l' eso'.
Proof. intros [n [-> ->]]. exists (S n). split; [reflexivity | lia]. Qed.

Lemma reaches_le l e l' e' : reaches l e l' e' -> e <= e'.
Proof. intros [n [_ ->]]. lia. Qed.

Lemma from_reaches s i l' i' :
  0 <= i -> reaches (from s i) i l' i' -> l' = from s i'.
Proof.
  intros Hi [n [-> ->]]. unfold from.
  destruct (Z.ltb_spec i 0); [lia|].
  destruct (Z.ltb_spec (i + Z.of_nat n) 0); [lia|].
  rewrite skipn_skipn. f_equal. lia.
Qed.

Lemma from_cons s i c t :
  0 <= i -> from s i = c :: t -> idx s i = Done c /\ from s (i + 1) = t.
Proof.
  intros Hi H. unfold from, idx in *.
  destruct (Z.ltb_spec i 0); [lia|].
  destruct (Z.ltb_spec (i + 1) 0); [lia|].
  replace (Z.to_nat (i + 1)) with (S (Z.to_nat i)) by lia.
  revert H. generalize (Z.to_nat i). intros n. revert s.
  induction n as [|n IH]; intros [|a s]; simpl; try discriminate.
  - intros [= -> ->]. auto.
  - apply IH.
Qed.

Lemma from_length s i :
  0 <= i -> from s i <> [] -> i < len s.
Proof.
  intros Hi H. unfold from, len in *.
  destruct (Z.ltb_spec i 0); [lia|].
  destruct (Z.lt_ge_cases i (Z.of_nat (List.length s))); [assumption|].
  exfalso. apply H. apply skipn_all2. lia.
Qed.

Lemma from_shorter s i j :
  0 <= i <= j -> In 0 (from s j) -> In 0 (from s i).
Proof.
  intros Hij H. unfold from in *.
  destruct (Z.ltb_spec i 0); [lia|]. destruct (Z.ltb_spec j 0); [lia|].
  replace (Z.to_nat j) with ((Z.to_nat j - Z.to_nat i) + Z.to_nat i)%nat in H
    by lia.
  rewrite <- skipn_skipn in H.
  revert H. generalize (skipn (Z.to_nat i) s) (Z.to_nat j - Z.to_nat i)%nat.
  intros l n. revert l. induction n as [|n IH]; intros [|a l]; simpl; auto.
Qed.

Lemma slice_guarded s lo hi :
  0 <= lo <= hi -> In 0 (from s hi) -> exists w, slice s lo hi = Done w.
Proof.
  intros H Hin. unfold slice.
  assert (hi < len s).
  { apply from_length; [lia|]. intros E. rewrite E in Hin. destruct Hin. }
  destruct (Z.ltb_spec lo 0); [lia|]. destruct (Z.ltb_spec hi lo); [lia|].
  destruct (Z.ltb_spec (len s) hi); [lia|]. cbn [orb]. eauto.
Qed.

(** *** The loops, on a source that ends with NUL *)

Lemma skipLine_guarded l : forall off,
  In 0 l ->
  returns (skipLine l off)
    (fun off' => exists l', reaches l off l' off' /\ In 0 l').
Proof.
  induction l as [|c t IH]; intros off Hin; [destruct Hin|].
  cbn [skipLine]. destruct ((c =? 0) || (c =? 13) || (c =? 10)) eqn:E.
  - cbn [returns]. exists (c :: t). split; [apply reaches_refl | exact Hin].
  - destruct Hin as [->|Hin]; [discriminate|].
    eapply returns_weaken; [apply IH, Hin|].
    intros off' (l' & Hr & Hl). exists l'. split; [|exact Hl].
    now apply reaches_cons.
Qed.

Lemma reaches_skip k l eso l' eso' :
  reaches (skipn k l) (eso + Z.of_nat k) l' eso' -> reaches l eso l' eso'.
Proof.
  intros [n [-> ->]]. exists (n + k)%nat. rewrite skipn_skipn.
  split; [reflexivity | lia].
Qed.

Lemma skipBlock_guarded n : forall l off line,
  (List.length l <= n)%nat -> In 0 l ->
  returns (skipBlock l off line)
    (fun r => line <= snd r
              /\ exists l', reaches l off l' (fst r)
                 /\ (hd 0 l' = 0 /\ In 0 l'
                     \/ exists t, l' = "*"%c :: "/"%c :: t /\ In 0 t)).
Proof.
  induction n as [|n IH]; intros [|c t] off line Hn Hin;
    try (destruct Hin; fail); cbn [List.length] in Hn; try lia.
  cbn [skipBlock]. destruct (Z.eqb_spec c 0) as [->|Hc].
  { cbn [returns fst snd]. split; [lia|]. exists (0 :: t).
    split; [apply reaches_refl|]. left. split; [reflexivity | now left]. }
  destruct Hin as [->|Hin]; [congruence|].
  destruct t as [|d t']; [destruct Hin|]. cbn [List.length] in Hn.
  destruct (Z.eqb_spec c 42) as [->|H42].
  { destruct (Z.eqb_spec d 47) as [->|H47].
    - cbn [returns fst snd]. split; [lia|]. exists (42 :: 47 :: t').
      split; [apply reaches_refl|]. right. exists t'. split; [reflexivity|].
      destruct Hin as [Hd|Hin]; [discriminate | exact Hin].
    - eapply returns_weaken; [apply (IH (d :: t')); [simpl; lia | exact Hin]|].
      intros r (Hl & l' & Hr & Hp). split; [exact Hl|]. exists l'.
      split; [now apply reaches_cons | exact Hp]. }
  destruct (Z.eqb_spec c 13) as [->|H13].
  { destruct (Z.eqb_spec d 10) as [->|H10].
    - destruct Hin as [Hd|Hin]; [discriminate|].
      eapply returns_weaken; [apply (IH t'); [lia | exact Hin]|].
      intros r (Hl & l' & Hr & Hp). split; [lia|]. exists l'.
      split; [apply (reaches_skip 2); exact Hr | exact Hp].
    - eapply returns_weaken; [apply (IH (d :: t')); [simpl; lia | exact Hin]|].
      intros r (Hl & l' & Hr & Hp). split; [lia|]. exists l'.
      split; [now apply reaches_cons | exact Hp]. }
  eapply returns_weaken; [apply (IH (d :: t')); [simpl; lia | exact Hin]|].
  intros r (Hl & l' & Hr & Hp). split; [destruct (c =? 10); lia|].
  exists l'. split; [now apply reaches_cons | exact Hp].
Qed.

Lemma identEnd_guarded l : forall eso,
  In 0 l ->
  returns (identEnd l eso)
    (fun eso' => exists l', reaches l eso l' eso' /\ In 0 l').
Proof.
  induction l as [|c t IH]; intros eso Hin; [destruct Hin|].
  cbn [identEnd]. destruct (Z.eqb_spec c 0) as [->|Hc].
  { cbn [returns]. exists (0 :: t). split; [apply reaches_refl | now left]. }
  destruct Hin as [->|Hin]; [congruence|].
  destruct (identStop c).
  - cbn [returns]. exists (c :: t).
    split; [apply reaches_refl | now right].
  - eapply returns_weaken; [apply IH, Hin|].
    intros eso' (l' & Hr & Hl). exists l'. split; [|exact Hl].
    now apply reaches_cons.
Qed.

Lemma digitRun_guarded radix l : forall ch eso ival,
  In 0 (ch :: l) ->
  returns (digitRun radix l ch eso ival)
    (fun r => exists l', reaches (ch :: l) eso (snd r :: l') (fst (fst r))
                         /\ In 0 (snd r :: l')).
Proof.
  assert (Hstop : forall l ch eso ival, In 0 (ch :: l) ->
    returns (Done (eso, ival, ch))
      (fun r : Z * Z * Z =>
         exists l', reaches (ch :: l) eso (snd r :: l') (fst (fst r))
                    /\ In 0 (snd r :: l'))).
  { intros l0 ch eso ival Hin. cbn [returns fst snd]. exists l0.
    split; [apply reaches_refl | exact Hin]. }
  induction l as [|c t IH]; intros ch eso ival Hin.
  - destruct Hin as [->|[]]. cbn. exists []. split; [apply reaches_refl|].
    now left.
  - cbn [digitRun]. destruct (isHex ch) eqn:Eh; [|now apply Hstop].
    destruct Hin as [->|Hin]; [discriminate|].
    assert (Hrec : forall iv,
      returns (digitRun radix t c (eso + 1) iv)
        (fun r => exists l', reaches (ch :: c :: t) eso (snd r :: l')
                               (fst (fst r)) /\ In 0 (snd r :: l'))).
    { intros iv. eapply returns_weaken; [apply IH, Hin|].
      intros r (l' & Hr & Hl). exists l'. split; [|exact Hl].
      now apply reaches_cons. }
    destruct (radix =? 16); [apply Hrec|].
    destruct (radix =? 8).
    + destruct (isOctal ch); [apply Hrec | apply Hstop; now right].
    + destruct ((ch <? 48) || (ch >? 57));
        [apply Hstop; now right | apply Hrec].
Qed.

Lemma floatRun_guarded l : forall ch eso,
  In 0 (ch :: l) ->
  returns (floatRun l ch eso)
    (fun eso' => exists c' l', reaches (ch :: l) eso (c' :: l') eso'
                               /\ In 0 (c' :: l')).
Proof.
  induction l as [|c t IH]; intros ch eso Hin.
  - destruct Hin as [->|[]]. cbn. exists 0, [].
    split; [apply reaches_refl | now left].
  - cbn [floatRun]. destruct (floatChar ch) eqn:Ef.
    + destruct Hin as [->|Hin]; [discriminate|].
      eapply returns_weaken; [apply IH, Hin|].
      intros eso' (c' & l' & Hr & Hl). exists c', l'. split; [|exact Hl].
      now apply reaches_cons.
    + cbn [returns]. exists ch, (c :: t).
      split; [apply reaches_refl | exact Hin].
Qed.

Lemma regexLoop_guarded n : forall l eso,
  (List.length l <= n)%nat -> In 0 l ->
  returns (regexLoop l eso)
    (fun r => match r with
              | Some eso' =>
                exists l', reaches l eso ("/"%c :: l') eso' /\ In 0 l'
              | None => True
              end).
Proof.
  induction n as [|n IH]; intros [|ch l1] eso Hn Hin;
    try (destruct Hin; fail); cbn [List.length] in Hn; try lia.
  cbn [regexLoop]. destruct (Z.eqb_spec ch 47) as [->|H47].
  { cbn [returns]. exists l1. split; [apply reaches_refl|].
    destruct Hin as [?|Hin]; [discriminate | exact Hin]. }
  destruct ((ch =? 13) || (ch =? 10) || (ch =? 0)) eqn:Et; [exact I|].
  destruct Hin as [->|Hin]; [discriminate|].
  assert (Hrec : returns (regexLoop l1 (eso + 1))
    (fun r => match r with
              | Some eso' =>
                exists l', reaches (ch :: l1) eso (47 :: l') eso' /\ In 0 l'
              | None => True
              end)).
  { eapply returns_weaken; [apply IH; [lia | exact Hin]|].
    intros [eso'|]; [|trivial]. intros (l' & Hr & Hl). exists l'.
    split; [now apply reaches_cons | exact Hl]. }
  destruct (ch =? 92); [|exact Hrec].
  destruct l1 as [|c l2]; [destruct Hin|].
  destruct (Z.eqb_spec c 0) as [->|Hc]; cbn [negb]; [exact Hrec|].
  destruct Hin as [->|Hin]; [congruence|]. cbn [List.length] in Hn.
  eapply returns_weaken; [apply (IH l2); [lia | exact Hin]|].
  intros [eso'|]; [|trivial]. intros (l' & Hr & Hl). exists l'.
  split; [apply (reaches_skip 2); exact Hr | exact Hl].
Qed.

(** A byte that passed one of the scanner's tests is not the NUL. *)
Ltac absurd_zero :=
  match goal with
  | H : _ = true |- _ => cbn in H; discriminate H
  | H : _ = false |- _ => cbn in H; discriminate H
  end.

(** Make [In 0 l] a hypothesis, from the NUL known to be at or after the
    byte before [l]. *)
Ltac peel l :=
  match goal with
  | H : In 0 l |- _ => idtac
  | H : In 0 (_ :: l) |- _ => destruct H as [->|H]; [exfalso; absurd_zero|]
  end.

Lemma strLoop_guarded n : forall l qch eso line str,
  (List.length l <= n)%nat -> qch <> 0 -> In 0 l ->
  returns (strLoop l qch eso line str)
    (fun r => match r with
              | Closed eso' line' _ =>
                line <= line'
                /\ exists l', reaches l eso (qch :: l') eso' /\ In 0 l'
              | StrError line' _ => line <= line'
              end).
Proof.
  induction n as [|n IH]; intros l qch eso line str Hn Hq Hin;
    (destruct l as [|ch l1]; [destruct Hin|]); cbn [List.length] in Hn;
    [lia|].
  assert (Hrec : forall k lk e' line' str',
    lk = skipn k (ch :: l1) -> e' = eso + Z.of_nat k -> (0 < k)%nat ->
    line <= line' -> In 0 lk ->
    returns (strLoop lk qch e' line' str')
      (fun r => match r with
                | Closed eso' line'' _ =>
                  line <= line''
                  /\ exists l', reaches (ch :: l1) eso (qch :: l') eso'
                                /\ In 0 l'
                | StrError line'' _ => line <= line''
                end)).
  { intros k lk e' line' str' -> -> Hk Hl Hlk.
    eapply returns_weaken.
    - apply IH; [|exact Hq | exact Hlk].
      rewrite length_skipn. cbn [List.length]. lia.
    - intros [eso' line'' s|line'' m]; [|lia].
      intros (Hl' & l' & Hr & Hl''). split; [lia|]. exists l'.
      split; [apply (reaches_skip k); exact Hr | exact Hl'']. }
  cbn [strLoop]. destruct (Z.eqb_spec ch qch) as [->|Hcq].
  { cbn [returns]. split; [lia|]. exists l1. split; [apply reaches_refl|].
    destruct Hin as [?|Hin]; [congruence | exact Hin]. }
  destruct ((ch =? 13) || (ch =? 10) || (ch =? 0)) eqn:Et;
    [cbn [returns]; lia|].
  destruct Hin as [->|Hin]; [discriminate|].
  repeat lazymatch goal with
  | |- returns (Done _) _ => cbn [returns]; lia
  | |- returns (if ?b then _ else _) _ => destruct b eqn:?
  | |- returns (match ?l with [] => _ | _ :: _ => _ end) _ =>
    peel l; destruct l as [|? ?];
    [match goal with H : In 0 [] |- _ => destruct H end|]
  | |- returns (strLoop ?lk _ _ _ _) _ =>
    peel lk;
    first [ apply (Hrec 1%nat); [reflexivity|lia|lia|lia|assumption]
          | apply (Hrec 2%nat); [reflexivity|lia|lia|lia|assumption]
          | apply (Hrec 3%nat); [reflexivity|lia|lia|lia|assumption]
          | apply (Hrec 4%nat); [reflexivity|lia|lia|lia|assumption]
          | apply (Hrec 6%nat); [reflexivity|lia|lia|lia|assumption] ]
  end.
Qed.

(** *** Reading the source at and after the offset *)

Lemma from_at1 s i a l : 0 <= i -> from s i = a :: l -> from s (i + 1) = l.
Proof. intros Hi H. now apply from_cons in H. Qed.

Lemma from_at2 s i a b l :
  0 <= i -> from s i = a :: b :: l -> from s (i + 1 + 1) = l.
Proof.
  intros Hi H. apply from_at1 in H; [|lia]. apply from_at1 in H; [|lia].
  exact H.
Qed.

Lemma from_at3 s i a b c l :
  0 <= i -> from s i = a :: b :: c :: l -> from s (i + 1 + 1 + 1) = l.
Proof.
  intros Hi H. apply from_at2 in H; [|lia]. apply from_at1 in H; [|lia].
  exact H.
Qed.

Lemma from_at4 s i a b c d l :
  0 <= i -> from s i = a :: b :: c :: d :: l ->
  from s (i + 1 + 1 + 1 + 1) = l.
Proof.
  intros Hi H. apply from_at3 in H; [|lia]. apply from_at1 in H; [|lia].
  exact H.
Qed.

Lemma idx_at0 s i a l : 0 <= i -> from s i = a :: l -> idx s i = Done a.
Proof. intros Hi H. now apply from_cons in H. Qed.

Lemma idx_at1 s i a b l :
  0 <= i -> from s i = a :: b :: l -> idx s (i + 1) = Done b.
Proof.
  intros Hi H. apply from_at1 in H; [|lia]. apply idx_at0 in H; [|lia].
  exact H.
Qed.

Lemma idx_at2 s i a b c l :
  0 <= i -> from s i = a :: b :: c :: l -> idx s (i + 1 + 1) = Done c.
Proof.
  intros Hi H. apply from_at2 in H; [|lia]. apply idx_at0 in H; [|lia].
  exact H.
Qed.

Lemma idx_at3 s i a b c d l :
  0 <= i -> from s i = a :: b :: c :: d :: l ->
  idx s (i + 1 + 1 + 1) = Done d.
Proof.
  intros Hi H. apply from_at3 in H; [|lia]. apply idx_at0 in H; [|lia].
  exact H.
Qed.

Lemma guarded_cons s i :
  0 <= i -> In 0 (from s i) -> exists c t, from s i = c :: t.
Proof.
  intros _ H. destruct (from s i) as [|c t]; [destruct H | eauto].
Qed.

(** *** The branches of [lex] *)

Section Branches.

Variables (lx : gesLex) (lval : gesSymType) (ch nch : Z) (l2 : list Z).
Hypothesis Hoff : 0 <= offset lx.
Hypothesis Hsrc : from (source lx) (offset lx) = ch :: nch :: l2.
Hypothesis Hin : In 0 (nch :: l2).

Lemma lexOperator_guarded :
  returns (lexOperator lx lval ch nch) step_guarded.
Proof.
  unfold lexOperator. revert Hsrc Hin. generalize l2 as t2. intros t2 F I.
  repeat lazymatch goal with
  | |- returns (Done (Return _ _ _)) _ =>
    cbn [returns step_guarded]; unfold guarded;
    cbn [offset source set_offset set_regexValid];
    split; [lia|];
    first [ rewrite (from_at1 _ _ _ _ Hoff F)
          | rewrite (from_at2 _ _ _ _ _ Hoff F)
          | rewrite (from_at3 _ _ _ _ _ _ Hoff F)
          | rewrite (from_at4 _ _ _ _ _ _ _ Hoff F)
          | rewrite F; right ];
    match goal with
    | |- In 0 ?l => peel l; assumption
    end
  | |- returns (if ?b then _ else _) _ => destruct b eqn:?
  | |- returns (bind (idx _ _) _) _ =>
    first [ rewrite (idx_at2 _ _ _ _ _ _ Hoff F)
          | rewrite (idx_at3 _ _ _ _ _ _ _ Hoff F)
          | match type of I with
            | In 0 (_ :: ?l) =>
              peel l; destruct l as [|? ?]; [destruct I|]
            end ];
    cbn [bind]
  end.
Qed.

Lemma guarded_eq (lx1 lx2 : gesLex) :
  source lx2 = source lx1 -> offset lx2 = offset lx1 ->
  guarded lx1 -> guarded lx2.
Proof. unfold guarded. intros -> ->. auto. Qed.

Lemma guarded_at (lx1 : gesLex) (eso : Z) :
  0 <= eso -> In 0 (from (source lx) eso) -> source lx1 = source lx ->
  offset lx1 = eso -> guarded lx1.
Proof. unfold guarded. intros H1 H2 -> ->. auto. Qed.

Lemma guarded_lx : guarded lx.
Proof. split; [exact Hoff|]. rewrite Hsrc. right. exact Hin. Qed.

Lemma from_plus2 : from (source lx) (offset lx + 2) = l2.
Proof.
  replace (offset lx + 2) with (offset lx + 1 + 1) by lia.
  exact (from_at2 _ _ _ _ _ Hoff Hsrc).
Qed.

Lemma lexWord_guarded : returns (lexWord lx lval) step_guarded.
Proof.
  unfold lexWord. apply returns_bind.
  eapply returns_weaken; [apply identEnd_guarded, guarded_lx|].
  intros eso (l' & Hr & Hl). cbv beta.
  pose proof (reaches_le _ _ _ _ Hr) as Hle.
  apply from_reaches in Hr; [|exact Hoff]. subst l'.
  destruct (slice_guarded (source lx) (offset lx) eso) as [w Hw];
    [lia | exact Hl |].
  rewrite Hw. cbn [bind].
  destruct (lookupKeyword keywords (eso - offset lx) w) as [tok|];
    cbn [returns step_guarded].
  - apply (guarded_at _ eso); [lia | exact Hl | |]; destruct tok; reflexivity.
  - apply (guarded_at _ eso); [lia | exact Hl | |]; reflexivity.
Qed.

Lemma lexString_guarded :
  ch <> 0 -> returns (lexString lx lval ch) step_guarded.
Proof.
  intros Hch. unfold lexString. apply returns_bind.
  eapply returns_weaken.
  - apply (strLoop_guarded (List.length (from (source lx) (offset lx + 1))));
      [lia | exact Hch |].
    rewrite (from_at1 _ _ _ _ Hoff Hsrc). exact Hin.
  - intros [eso line str|line msg]; cbv beta; cbn [returns step_guarded].
    + intros (_ & l' & Hr & Hl). unfold literalToken.
      pose proof (reaches_le _ _ _ _ Hr) as Hle.
      apply from_reaches in Hr; [|lia].
      assert (He : 0 <= eso) by lia.
      apply (guarded_at _ (eso + 1)); try reflexivity; [lia|].
      symmetry in Hr. rewrite (from_at1 _ _ _ _ He Hr). exact Hl.
    + intros _. eapply guarded_eq; [| |exact guarded_lx]; reflexivity.
Qed.

Lemma lexRegex_guarded :
  ch <> 0 -> returns (lexRegex lx lval) step_guarded.
Proof.
  intros Hch. unfold lexRegex. cbn [offset source set_offset].
  apply returns_bind. eapply returns_weaken.
  - apply (regexLoop_guarded
             (List.length (from (source lx) (offset lx + 1)))); [lia|].
    rewrite (from_at1 _ _ _ _ Hoff Hsrc). exact Hin.
  - intros [eso|]; cbv beta; cbn [returns step_guarded].
    + intros (l' & Hr & Hl).
      pose proof (reaches_le _ _ _ _ Hr) as Hle.
      apply from_reaches in Hr; [|lia].
      assert (He : 0 <= eso) by lia.
      apply (guarded_at _ (eso + 1)); try reflexivity; [lia|].
      symmetry in Hr. rewrite (from_at1 _ _ _ _ He Hr). exact Hl.
    + intros _. apply (guarded_at _ (offset lx + 1)); try reflexivity;
        [lia|].
      rewrite (from_at1 _ _ _ _ Hoff Hsrc). exact Hin.
Qed.

Lemma lineComment_guarded :
  nch <> 0 -> returns (lineComment lx) step_guarded.
Proof.
  intros Hn. assert (Hl2 : In 0 l2) by (destruct Hin; [congruence|easy]).
  unfold lineComment. cbn [offset source set_offset].
  apply returns_bind. eapply returns_weaken.
  { apply skipLine_guarded. rewrite from_plus2. exact Hl2. }
  intros off (l' & Hr & Hl). cbv beta.
  pose proof (reaches_le _ _ _ _ Hr) as Hle.
  apply from_reaches in Hr; [|lia]. subst l'.
  assert (Ho : 0 <= off) by lia.
  destruct (guarded_cons _ _ Ho Hl) as (c & t & Hc). rewrite Hc in Hl.
  rewrite (idx_at0 _ _ _ _ Ho Hc). cbn [bind].
  destruct (Z.eqb_spec c 13) as [->|H13].
  - destruct Hl as [?|Hl]; [discriminate|].
    destruct t as [|n t']; [destruct Hl|].
    rewrite (idx_at1 _ _ _ _ _ Ho Hc). cbn [bind].
    destruct (Z.eqb_spec n 10) as [->|H10]; cbn [bind offset source
      set_offset].
    + rewrite (idx_at1 _ _ _ _ _ Ho Hc). cbn [bind Z.eqb negb returns
        step_guarded].
      destruct Hl as [?|Hl]; [discriminate|].
      apply (guarded_at _ (off + 1 + 1)); try reflexivity; [lia|].
      rewrite (from_at2 _ _ _ _ _ Ho Hc). exact Hl.
    + rewrite (idx_at0 _ _ _ _ Ho Hc). cbn [bind Z.eqb negb returns
        step_guarded].
      apply (guarded_at _ (off + 1)); try reflexivity; [lia|].
      rewrite (from_at1 _ _ _ _ Ho Hc). exact Hl.
  - cbn [bind offset source set_offset].
    rewrite (idx_at0 _ _ _ _ Ho Hc). cbn [bind].
    destruct (Z.eqb_spec c 0) as [->|H0]; cbn [negb returns step_guarded].
    + apply (guarded_at _ off); try reflexivity; [lia|].
      rewrite Hc. now left.
    + apply (guarded_at _ (off + 1)); try reflexivity; [lia|].
      rewrite (from_at1 _ _ _ _ Ho Hc).
      destruct Hl; [congruence | assumption].
Qed.

Lemma blockComment_guarded :
  nch <> 0 -> returns (blockComment lx lval) step_guarded.
Proof.
  intros Hn. assert (Hl2 : In 0 l2) by (destruct Hin; [congruence|easy]).
  unfold blockComment. cbn [offset source set_offset lineNumber].
  apply returns_bind. eapply returns_weaken.
  { apply (skipBlock_guarded
             (List.length (from (source lx) (offset lx + 2)))); [lia|].
    rewrite from_plus2. exact Hl2. }
  intros [off line] (_ & l' & Hr & Hp). cbn [fst snd] in *.
  cbn [offset source set_offset set_lineNumber].
  pose proof (reaches_le _ _ _ _ Hr) as Hle.
  apply from_reaches in Hr; [|lia]. subst l'.
  assert (Ho : 0 <= off) by lia.
  destruct Hp as [[Hh Hl]|(t & Ht & Hl)].
  - destruct (guarded_cons _ _ Ho Hl) as (c & t & Hc).
    rewrite Hc in Hh. cbn [hd] in Hh. subst c.
    rewrite (idx_at0 _ _ _ _ Ho Hc). cbn [bind Z.eqb returns step_guarded].
    apply (guarded_at _ off); try reflexivity; [lia|]. exact Hl.
  - rewrite (idx_at0 _ _ _ _ Ho Ht). cbn [bind Z.eqb returns step_guarded].
    apply (guarded_at _ (off + 2)); try reflexivity; [lia|].
    replace (off + 2) with (off + 1 + 1) by lia.
    rewrite (from_at2 _ _ _ _ _ Ho Ht). exact Hl.
Qed.

Lemma digitRun_le radix l : forall c0 eso ival r,
  digitRun radix l c0 eso ival = Done r -> eso <= fst (fst r).
Proof.
  induction l as [|c t IH]; intros c0 eso ival r; cbn [digitRun];
    repeat match goal with
    | |- (if ?b then _ else _) = _ -> _ => destruct b
    end;
    try discriminate; try (intros [= <-]; cbn [fst]; lia).
  all: intros H; apply IH in H; lia.
Qed.

Lemma digitRun_decimal radix l c0 eso ival r :
  isDecimal c0 = true -> radix = 10 ->
  digitRun radix l c0 eso ival = Done r -> eso < fst (fst r).
Proof.
  intros Hd -> H.
  assert (Hh : isHex c0 = true).
  { unfold isHex. unfold isDecimal in Hd. now rewrite Hd. }
  assert (Hr : (c0 <? 48) || (c0 >? 57) = false).
  { unfold isDecimal in Hd. rewrite Z.geb_leb in Hd. rewrite Z.gtb_ltb.
    apply andb_prop in Hd as [H1 H2].
    apply Z.leb_le in H1, H2. apply orb_false_iff.
    split; apply Z.ltb_ge; lia. }
  destruct l as [|c t]; cbn [digitRun] in H; rewrite Hh, Hr in H;
    cbn [Z.eqb Pos.eqb] in H; [discriminate|].
  apply digitRun_le in H. lia.
Qed.

Lemma lexNumber_decimal :
  isDecimal ch = true -> returns (lexNumber lx lval ch nch) step_guarded.
Proof.
  intros Hd. pose proof guarded_lx as [_ Hg].
  assert (H1 : In 0 (from (source lx) (offset lx + 1)))
    by (rewrite (from_at1 _ _ _ _ Hoff Hsrc); exact Hin).
  unfold lexNumber. apply returns_bind.
  apply (returns_weaken _ (fun q : gesLex * Z * Z =>
    let '(lxA, chA, radix) := q in
    source lxA = source lx /\ offset lx <= offset lxA
    /\ (exists rest, from (source lx) (offset lxA) = chA :: rest
                     /\ In 0 (chA :: rest))
    /\ (radix = 16 -> offset lxA = offset lx + 2)
    /\ (offset lxA = offset lx -> radix = 10 /\ isDecimal chA = true))).
  { destruct (ch =? 48).
    - cbn [offset source set_offset].
      rewrite (idx_at1 _ _ _ _ _ Hoff Hsrc). cbn [bind].
      destruct ((nch =? 120) || (nch =? 88)) eqn:Ex.
      + assert (Hl2 : In 0 l2)
          by (destruct Hin as [->|?]; [discriminate | assumption]).
        destruct l2 as [|c2 l3]; [destruct Hl2|].
        rewrite (idx_at2 _ _ _ _ _ _ Hoff Hsrc).
        cbn [bind returns offset source set_offset].
        repeat split; try lia.
        exists l3. rewrite (from_at2 _ _ _ _ _ Hoff Hsrc). auto.
      + assert (Hr : source (set_offset lx (offset lx + 1)) = source lx
                     /\ offset lx <= offset (set_offset lx (offset lx + 1))
                     /\ (exists rest,
                           from (source lx)
                             (offset (set_offset lx (offset lx + 1)))
                           = nch :: rest /\ In 0 (nch :: rest))).
        { cbn [offset source set_offset]. repeat split; try lia.
          exists l2. rewrite (from_at1 _ _ _ _ Hoff Hsrc). auto. }
        destruct (isDecimal nch); cbn [returns];
          (repeat split; try apply Hr; cbn [offset set_offset] in *;
           try discriminate; try lia).
    - cbn [returns]. repeat split; try lia; auto.
      exists (nch :: l2). split; [exact Hsrc|]. rewrite <- Hsrc. exact Hg. }
  intros [[lxA chA] radix] (HsA & HoA & (rest & HfA & HiA) & H16 & H10).
  assert (HpA : 0 <= offset lxA) by lia.
  destruct (returns_Done _ _
    (digitRun_guarded radix (from (source lxA) (offset lxA + 1)) chA
       (offset lxA) 0
       ltac:(rewrite HsA, (from_at1 _ _ _ _ HpA HfA); exact HiA)))
    as ([[eso ival] ch'] & Hdr & l' & Hr & Hl').
  rewrite Hdr. cbn [bind]. cbn [fst snd] in Hr, Hl'.
  rewrite HsA, (from_at1 _ _ _ _ HpA HfA) in Hr.
  pose proof (reaches_le _ _ _ _ Hr) as Hle.
  rewrite <- HfA in Hr. apply from_reaches in Hr; [|exact HpA].
  match goal with
  | |- returns (match ?q with pair _ _ => _ end) _ =>
    cut ((fun q0 : gesLex * Z * Z * Z =>
            let '(lxB, esoB, radixB, chB) := q0 in
            source lxB = source lx /\ 0 <= offset lxB <= esoB
            /\ In 0 (from (source lx) esoB)
            /\ (floatChar chB = true ->
                exists l'', from (source lx) esoB = chB :: l'')) q);
    [generalize q|]
  end.
  - intros [[[lxB esoB] radixB] chB] (HsB & HoB & HiB & HfB).
    assert (Hlit : forall v, step_guarded (literalToken lxB lval esoB v)).
    { intros v. unfold literalToken. cbn [step_guarded].
      apply (guarded_at _ esoB); try reflexivity;
        [lia | exact HiB | exact HsB]. }
    assert (Herr : forall m, guarded (set_error lxB m)).
    { intros m. apply (guarded_at _ (offset lxB)); try reflexivity;
        [lia | | exact HsB].
      apply (from_shorter _ _ esoB); [lia | exact HiB]. }
    destruct ((radixB =? 8) || (radixB =? 16)); [apply Hlit|].
    destruct (negb (chB =? 46) && negb (chB =? 101) && negb (chB =? 69))
      eqn:Ef.
    + rewrite HsB.
      destruct (slice_guarded (source lx) (offset lxB) esoB) as [w Hw];
        [lia | exact HiB |].
      rewrite Hw. cbn [bind].
      destruct (Strconv.ParseInt w); cbn [returns step_guarded]; auto.
    + assert (Hfc : floatChar chB = true).
      { unfold floatChar.
        destruct (chB =? 46), (chB =? 101), (chB =? 69);
          try discriminate; rewrite ?orb_true_r; reflexivity. }
      destruct (HfB Hfc) as (l'' & Hl'').
      assert (HpB : 0 <= esoB) by lia.
      apply returns_bind. eapply returns_weaken.
      { apply floatRun_guarded. rewrite HsB, (from_at1 _ _ _ _ HpB Hl'').
        rewrite <- Hl''. exact HiB. }
      intros eso2 (c2 & l2' & Hr2 & Hi2). cbv beta.
      rewrite HsB, (from_at1 _ _ _ _ HpB Hl'') in Hr2.
      pose proof (reaches_le _ _ _ _ Hr2) as Hle2.
      rewrite <- Hl'' in Hr2. apply from_reaches in Hr2; [|exact HpB].
      rewrite Hr2 in Hi2.
      destruct (slice_guarded (source lx) (offset lxB) eso2) as [w Hw];
        [lia | exact Hi2 |].
      rewrite HsB, Hw. cbn [bind].
      destruct (Strconv.ParseFloat w); cbn [returns step_guarded]; auto.
      unfold literalToken.
      apply (guarded_at _ eso2); try reflexivity;
        [lia | exact Hi2 | exact HsB].
  - cbv beta. destruct (Z.eqb_spec eso (offset lxA)) as [He|He].
    + destruct (Z.eqb_spec radix 16) as [Hr16|Hr16].
      * cbn [offset source set_offset]. specialize (H16 Hr16).
        repeat split; try (exact HsA || lia).
        -- replace (eso - 1) with (offset lx + 1) by lia. exact H1.
        -- discriminate.
      * assert (offset lx < offset lxA).
        { destruct (Z.eq_dec (offset lxA) (offset lx)) as [E|E]; [|lia].
          destruct (H10 E) as [-> Hdec].
          apply digitRun_decimal in Hdr; [|exact Hdec | reflexivity].
          cbn [fst] in Hdr. lia. }
        cbn [offset source set_offset].
        repeat split; try (exact HsA || lia).
        -- rewrite <- Hr. exact Hl'.
        -- intros _. exists l'. symmetry. exact Hr.
    + repeat split; try (exact HsA || lia).
      * rewrite <- Hr. exact Hl'.
      * intros _. exists l'. symmetry. exact Hr.
Qed.

Lemma lexNumber_dot :
  ch = "."%c ->
  if offset lx =? 0
  then lexNumber lx lval ch nch = Panicked SliceOutOfRange
  else returns (lexNumber lx lval ch nch) step_guarded.
Proof.
  intros Hc. pose proof guarded_lx as [_ Hg]. unfold lexNumber.
  rewrite Hc. rewrite Hc in Hsrc. clear Hc.
  cbn [Z.eqb Pos.eqb bind].
  rewrite digitRun_stop by reflexivity. cbn [bind]. rewrite Z.eqb_refl.
  cbn [Z.eqb Pos.eqb orb negb andb offset source set_offset].
  destruct (returns_Done _ _
    (floatRun_guarded (from (source lx) (offset lx + 1)) 46 (offset lx)
       ltac:(rewrite (from_at1 _ _ _ _ Hoff Hsrc), <- Hsrc; exact Hg)))
    as (eso2 & Hfr & c2 & l2' & Hr2 & Hi2).
  rewrite Hfr. cbn [bind].
  rewrite (from_at1 _ _ _ _ Hoff Hsrc) in Hr2.
  pose proof (reaches_le _ _ _ _ Hr2) as Hle2.
  rewrite <- Hsrc in Hr2. apply from_reaches in Hr2; [|exact Hoff].
  rewrite Hr2 in Hi2.
  destruct (Z.eqb_spec (offset lx) 0) as [E0|E0].
  - unfold slice. destruct (Z.ltb_spec (offset lx - 1) 0); [|lia].
    reflexivity.
  - destruct (slice_guarded (source lx) (offset lx - 1) eso2) as [w Hw];
      [lia | exact Hi2 |].
    rewrite Hw. cbn [bind].
    destruct (Strconv.ParseFloat w); cbn [returns step_guarded].
    + unfold literalToken.
      apply (guarded_at _ eso2); try reflexivity; [lia | exact Hi2].
    + apply (guarded_at _ (offset lx - 1)); try reflexivity; [lia|].
      apply (from_shorter _ _ eso2); [lia | exact Hi2].
Qed.

End Branches.

(** One pass of the loop of [lex] on a guarded scanner. *)
Lemma lexOnce_guarded lx lval :
  guarded lx ->
  if (offset lx =? 0) && dotDigit (source lx)
  then lexOnce lx lval = Panicked SliceOutOfRange
  else returns (lexOnce lx lval) step_guarded.
Proof.
  intros Hg. pose proof Hg as [Hoff Hin].
  destruct (guarded_cons _ _ Hoff Hin) as (ch & l1 & Hsrc).
  assert (Hdd : offset lx = 0 -> dotDigit (source lx)
                = match l1 with
                  | d :: _ => (ch =? 46) && isDecimal d
                  | [] => false
                  end).
  { intros E. rewrite E in Hsrc. unfold from in Hsrc. cbn in Hsrc.
    rewrite Hsrc. reflexivity. }
  unfold lexOnce. rewrite (idx_at0 _ _ _ _ Hoff Hsrc). cbn [bind].
  destruct (Z.eqb_spec ch 0) as [->|Hch].
  { replace ((offset lx =? 0) && dotDigit (source lx)) with false.
    - exact Hg.
    - destruct (Z.eqb_spec (offset lx) 0) as [E|E]; [|reflexivity].
      rewrite (Hdd E). destruct l1; reflexivity. }
  rewrite Hsrc in Hin. destruct Hin as [?|Hin]; [congruence|].
  destruct l1 as [|nch l2]; [destruct Hin|].
  rewrite (idx_at1 _ _ _ _ _ Hoff Hsrc). cbn [bind].
  assert (H1 : guarded (set_offset lx (offset lx + 1))).
  { apply (guarded_at lx _ (offset lx + 1)); try reflexivity; [lia|].
    rewrite (from_at1 _ _ _ _ Hoff Hsrc). exact Hin. }
  assert (H1' : forall n, guarded (set_offset (set_lineNumber lx n)
                                     (offset lx + 1))).
  { intros n. eapply guarded_eq; [| |exact H1]; reflexivity. }
  destruct (Z.eqb_spec ch 46) as [->|Hdot];
    [destruct (isDecimal nch) eqn:Hdn|].
  - (* a point and a digit *)
    cbn [Z.eqb Pos.eqb orb andb bind]. cbn [isDecimal Z.geb Z.leb Z.compare
      Pos.compare Pos.compare_cont andb orb].
    replace ((offset lx =? 0) && dotDigit (source lx))
      with (offset lx =? 0).
    + apply (lexNumber_dot lx lval 46 nch l2 Hoff Hsrc Hin eq_refl).
    + destruct (Z.eqb_spec (offset lx) 0) as [E|E]; [|reflexivity].
      rewrite (Hdd E), ?Hdn. reflexivity.
  - replace ((offset lx =? 0) && dotDigit (source lx)) with false
      by (destruct (Z.eqb_spec (offset lx) 0) as [E|E]; [|reflexivity];
          rewrite (Hdd E), ?Hdn; reflexivity).
    cbn [Z.eqb Pos.eqb orb andb bind]. cbn [isDecimal Z.geb Z.leb Z.compare
      Pos.compare Pos.compare_cont andb orb].
    destruct (regexValid lx); cbn [andb];
      apply (lexOperator_guarded lx lval 46 nch l2 Hoff Hsrc Hin).
  - replace ((offset lx =? 0) && dotDigit (source lx)) with false
      by (destruct (Z.eqb_spec (offset lx) 0) as [E|E]; [|reflexivity];
          rewrite (Hdd E); reflexivity).
    destruct ((ch =? 32) || (ch =? 9)); [exact H1|].
    destruct (Z.eqb_spec ch 13) as [->|H13].
    + destruct (Z.eqb_spec nch 10) as [->|H10];
        cbn [andb bind offset source set_offset].
      * rewrite (idx_at1 _ _ _ _ _ Hoff Hsrc).
        cbn [bind Z.eqb Pos.eqb orb returns step_guarded].
        apply (guarded_at lx _ (offset lx + 1 + 1)); try reflexivity;
          [lia|].
        rewrite (from_at2 _ _ _ _ _ Hoff Hsrc).
        destruct Hin; [discriminate | assumption].
      * cbn [Z.eqb Pos.eqb orb returns step_guarded]. apply H1'.
    + cbn [andb bind].
      destruct (Z.eqb_spec ch 10) as [->|HLF];
        [cbn [Z.eqb Pos.eqb orb returns step_guarded]; apply H1'|].
      apply Z.eqb_neq in H13. rewrite H13. cbn [orb].
      destruct (Z.eqb_spec ch 47) as [->|Hsl]; cbn [andb].
      * destruct (Z.eqb_spec nch 47) as [->|Hn1].
        { apply (lineComment_guarded lx 47 47 l2 Hoff Hsrc Hin).
          discriminate. }
        destruct (Z.eqb_spec nch 42) as [->|Hn2].
        { apply (blockComment_guarded lx lval 47 42 l2 Hoff Hsrc Hin).
          discriminate. }
        cbn [Z.geb Z.leb Z.compare Pos.compare Pos.compare_cont andb orb
             Z.eqb Pos.eqb isDecimal].
        destruct (regexValid lx); cbn [andb].
        -- apply (lexRegex_guarded lx lval 47 nch l2 Hoff Hsrc Hin).
           discriminate.
        -- apply (lexOperator_guarded lx lval 47 nch l2 Hoff Hsrc Hin).
      * destruct (_ || _ || (ch =? 36) || (ch =? 95));
          [apply (lexWord_guarded lx lval ch nch l2 Hoff Hsrc Hin)|].
        apply Z.eqb_neq in Hdot. rewrite Hdot. cbn [andb].
        rewrite orb_false_r.
        destruct (isDecimal ch) eqn:Hd;
          [apply (lexNumber_decimal lx lval ch nch l2 Hoff Hsrc Hin Hd)|].
        destruct ((ch =? 34) || (ch =? 39));
          [apply (lexString_guarded lx lval ch nch l2 Hoff Hsrc Hin Hch)|].
        rewrite andb_false_r.
        apply (lexOperator_guarded lx lval ch nch l2 Hoff Hsrc Hin).
Qed.

Lemma guarded_inside lx : guarded lx -> 0 <= offset lx < len (source lx).
Proof.
  intros [Ho Hi]. split; [exact Ho|]. apply from_length; [exact Ho|].
  intros E. rewrite E in Hi. destruct Hi.
Qed.

Lemma lexLoop_guarded : forall fuel lx lval,
  guarded lx -> len (source lx) - offset lx < Z.of_nat fuel ->
  if (offset lx =? 0) && dotDigit (source lx)
  then lexLoop fuel lx lval = Panicked SliceOutOfRange
  else returns (lexLoop fuel lx lval)
         (fun r => guarded (snd (fst r)) /\ source (snd (fst r)) = source lx).
Proof.
  induction fuel as [|fuel IH]; intros lx lval Hg Hf.
  { apply guarded_inside in Hg. lia. }
  cbn [lexLoop]. pose proof (lexOnce_guarded lx lval Hg) as H1.
  destruct ((offset lx =? 0) && dotDigit (source lx)); [now rewrite H1|].
  destruct (lexOnce lx lval) as [[lx'|tok lx' lval']| |] eqn:E;
    try (destruct H1; fail).
  - cbn [returns step_guarded] in H1.
    apply lexOnce_Continue in E as (Hs & _ & Ho & _).
    specialize (IH lx' lval H1). rewrite Hs in IH.
    destruct (Z.eqb_spec (offset lx') 0); [lia|]. cbn [andb] in IH.
    apply IH. lia.
  - cbn [returns fst snd]. split; [exact H1|].
    apply lexOnce_ok in E. apply E.
Qed.

Lemma Lex_sentinel (lx : gesLex) (lval : gesSymType) :
  guarded lx ->
  if (offset lx =? 0) && dotDigit (source lx)
  then Lex lx lval = Panicked SliceOutOfRange
  else returns (Lex lx lval)
         (fun r => guarded (snd (fst r)) /\ source (snd (fst r)) = source lx).
Proof.
  intros Hg. unfold Lex, lex.
  pose proof (lexLoop_guarded (S (List.length (source lx))) lx
                (set_parseType lval PARSED_UNDEFINED) Hg) as H.
  apply guarded_inside in Hg. unfold len in *.
  specialize (H ltac:(lia)).
  destruct ((offset lx =? 0) && dotDigit (source lx)); [now rewrite H|].
  destruct (lexLoop _ _ _) as [[[tok lx'] lval']| |]; try (destruct H; fail).
  cbn [returns fst snd bind] in *. destruct H as [H1 H2].
  split; [|destruct (regexValid lx); exact H2].
  eapply guarded_eq; [| |exact H1]; destruct (regexValid lx); reflexivity.
Qed.

(** X9: [Lex] on a scanner that stands inside its source, before the NUL
    that ends it: the call returns, and leaves the scanner so, unless the
    scanner stands at the very start of a source that begins with a point
    and a digit, where the call panics on the slice [source[-1:eso]]. *)
Theorem Lex_guarded (lx : gesLex) (lval : gesSymType) :
  guarded lx ->
  if (offset lx =? 0) && dotDigit (source lx)
  then Lex lx lval = Panicked SliceOutOfRange
  else returns (Lex lx lval)
         (fun r => guarded (snd (fst r)) /\ source (snd (fst r)) = source lx).
Proof. exact (Lex_sentinel lx lval). Qed.

Lemma newLexer_guarded src : guarded (newLexer src).
Proof.
  split; [cbn; lia|]. cbn [newLexer source offset]. unfold from. cbn [Z.ltb
    Z.compare Z.to_nat skipn]. apply in_or_app. right. now left.
Qed.

Lemma dotDigit_app l : dotDigit (l ++ [0]) = dotDigit l.
Proof.
  destruct l as [|c [|d l]]; try reflexivity.
  cbn. now rewrite andb_false_r.
Qed.

(** X10: scanning a source from its start: however many tokens are asked
    for, every call of [Lex] returns, unless the source begins with a point
    and a digit, on which the first call panics. *)
Theorem scanner_never_panics (src : string) :
  if dotDigit (bytesOf src)
  then forall lval, Lex (newLexer src) lval = Panicked SliceOutOfRange
  else forall n lval, exists tok lx lval',
         lexN n (newLexer src) lval = Some (tok, lx, lval')
         /\ guarded lx /\ source lx = bytesOf src ++ [0].
Proof.
  destruct (dotDigit (bytesOf src)) eqn:Ed.
  - intros lval. pose proof (Lex_sentinel _ lval (newLexer_guarded src)) as H.
    cbn [newLexer source offset Z.eqb andb] in H.
    now rewrite dotDigit_app, Ed in H.
  - induction n as [|n IH]; intros lval.
    + exists T0, (newLexer src), lval.
      split; [reflexivity|]. split; [apply newLexer_guarded | reflexivity].
    + destruct (IH lval) as (tok & lx & lval' & Hn & Hg & Hs).
      cbn [lexN]. rewrite Hn.
      pose proof (Lex_sentinel lx lval' Hg) as H.
      rewrite Hs, dotDigit_app, Ed, andb_false_r in H.
      destruct (Lex lx lval') as [[[tok1 lx1] lval1]| |];
        try (destruct H; fail).
      cbn [returns fst snd] in H. destruct H as [H1 H2].
      exists tok1, lx1, lval1. split; [reflexivity|]. split; [exact H1|].
      exact H2.
Qed.

End Sentinel.

(** ** What a call of [Lex] keeps *)

Section Frame.

Lemma skipBlock_line n : forall l off line r,
  (List.length l <= n)%nat ->
  skipBlock l off line = Done r -> line <= snd r.
Proof.
  induction n as [|n IH]; intros [|c t] off line r Hn; cbn [List.length] in Hn;
    cbn [skipBlock]; try discriminate; try lia.
  intros H. scan H; cbn [snd]; try lia;
    match goal with
    | H : skipBlock _ _ _ = Done _ |- _ =>
      apply IH in H; [lia | cbn [List.length] in *; lia]
    end.
Qed.

Lemma strLoop_line n : forall l qch eso line str r,
  (List.length l <= n)%nat ->
  strLoop l qch eso line str = Done r ->
  line <= match r with
          | Closed _ line' _ => line'
          | StrError line' _ => line'
          end.
Proof.
  induction n as [|n IH]; intros [|c t] qch eso line str r Hn;
    cbn [List.length] in Hn; cbn [strLoop]; try discriminate; try lia.
  intros H. scan H; try lia;
    match goal with
    | H : strLoop _ _ _ _ _ = Done _ |- _ =>
      apply IH in H; [lia | cbn [List.length] in *; lia]
    end.
Qed.

(** A solver for the frame of a pass that has returned. *)
Ltac framed :=
  cbn [step_frame ctx error lineNumber regexValid source offset
       set_offset set_lineNumber set_regexValid set_error];
  unfold payload_kept;
  cbn [payloadOf parseType identifier literal assignOp symCtx
       set_parseType set_identifier set_literal set_assignOp];
  repeat split; try reflexivity; try discriminate; try congruence;
  try lia.

Lemma keyword_plain tok :
  In tok (map token keywords) ->
  tok <> GTOK_ERROR /\ tok <> GTOK_REGEXP /\ tok <> GTOK_IDENTIFIER
  /\ tok <> GTOK_LITERAL /\ tok <> GTOK_ASSIGNOP /\ tok <> T0
  /\ payloadOf tok = PARSED_UNDEFINED.
Proof.
  cbn [keywords map token]. intros H.
  repeat (destruct H as [<-|H]; [repeat split; discriminate|]).
  destruct H.
Qed.

Lemma lexWord_frame lx lval s :
  lexWord lx lval = Done s -> step_frame lx lval s.
Proof.
  unfold lexWord. intros H.
  destruct (identEnd _ _) as [eso| |]; unbind H; try discriminate.
  destruct (slice _ _ _) as [text| |]; unbind H; try discriminate.
  destruct (lookupKeyword _ _ _) as [tok|] eqn:Ek.
  - apply lookupKeyword_In, keyword_plain in Ek.
    destruct Ek as (H1 & H2 & H3 & H4 & H5 & _ & H6). inv H.
    cbn [step_frame]. unfold payload_kept. rewrite H6.
    repeat split; try reflexivity; try congruence; destruct tok;
      reflexivity || lia.
  - inv H. framed.
Qed.

Lemma lexNumber_frame lx lval ch nch s :
  lexNumber lx lval ch nch = Done s -> step_frame lx lval s.
Proof.
  unfold lexNumber, literalToken. intros H.
  match type of H with
  | bind ?m _ = _ => destruct m as [[[lx1 ch1] radix]| |] eqn:E0
  end; unbind H; try discriminate.
  assert (Hs : ctx lx1 = ctx lx /\ error lx1 = error lx
               /\ lineNumber lx1 = lineNumber lx).
  { scan E0; cbn; auto. }
  destruct Hs as (Hc & He & Hl).
  scan H; framed.
Qed.

Lemma lexString_frame lx lval ch s :
  lexString lx lval ch = Done s -> step_frame lx lval s.
Proof.
  unfold lexString, literalToken. intros H.
  destruct (strLoop _ _ _ _ _) as [r| |] eqn:Es; unbind H;
    try discriminate.
  apply (strLoop_line _ _ _ _ _ _ _ (Nat.le_refl _)) in Es.
  destruct r; inv H; framed.
Qed.

Lemma lexRegex_frame lx lval s :
  regexValid lx = true -> lexRegex lx lval = Done s -> step_frame lx lval s.
Proof.
  unfold lexRegex. intros Hv H.
  destruct (regexLoop _ _) as [[]| |]; unbind H; inv H; framed.
Qed.

Lemma lexOperator_frame lx lval ch nch s :
  lexOperator lx lval ch nch = Done s -> step_frame lx lval s.
Proof.
  unfold lexOperator. intros H.
  scan H; framed.
Qed.

Lemma lineComment_frame lx lval s :
  lineComment lx = Done s -> step_frame lx lval s.
Proof.
  unfold lineComment. intros H.
  destruct (skipLine _ _) as [off| |]; unbind H; try discriminate.
  destruct (idx _ _) as [c| |]; unbind H; try discriminate.
  match type of H with
  | match ?m with _ => _ end = _ => destruct m as [lx1| |] eqn:E0
  end; try discriminate.
  assert (Hs : ctx lx1 = ctx lx /\ error lx1 = error lx
               /\ lineNumber lx1 = lineNumber lx).
  { scan E0; cbn; auto. }
  destruct Hs as (Hc & He & Hl).
  scan H; framed.
Qed.

Lemma blockComment_frame lx lval s :
  blockComment lx lval = Done s -> step_frame lx lval s.
Proof.
  unfold blockComment. intros H.
  destruct (skipBlock _ _ _) as [[off line]| |] eqn:Es; unbind H;
    try discriminate.
  apply (skipBlock_line _ _ _ _ _ (Nat.le_refl _)) in Es. cbn [snd] in Es.
  cbn [lineNumber set_offset] in Es.
  scan H; framed.
Qed.

Lemma lexOnce_frame lx lval s :
  lexOnce lx lval = Done s -> step_frame lx lval s.
Proof.
  unfold lexOnce. intros H.
  destruct (idx (source lx) (offset lx)) as [ch| |]; unbind H;
    try discriminate.
  destruct (ch =? 0); [inv H; framed|].
  destruct (idx (source lx) (offset lx + 1)) as [nch| |]; unbind H;
    try discriminate.
  destruct ((ch =? 32) || (ch =? 9)); [inv H; framed|].
  assert (Hgo : forall lx1 ch1,
            ctx lx1 = ctx lx -> error lx1 = error lx ->
            lineNumber lx1 = lineNumber lx ->
            regexValid lx1 = regexValid lx ->
            (if (ch1 =? 13) || (ch1 =? 10)
             then Done (Continue (set_offset (set_lineNumber lx1
                            (lineNumber lx1 + 1)) (offset lx1 + 1)))
             else if (ch1 =? 47) && (nch =? 47) then lineComment lx1
             else if (ch1 =? 47) && (nch =? 42) then blockComment lx1 lval
             else if (ch1 >=? 97) && (ch1 <=? 122)
                     || (ch1 >=? 65) && (ch1 <=? 90)
                     || (ch1 =? 36) || (ch1 =? 95)
             then lexWord lx1 lval
             else if isDecimal ch1 || (ch1 =? 46) && isDecimal nch
             then lexNumber lx1 lval ch1 nch
             else if (ch1 =? 34) || (ch1 =? 39) then lexString lx1 lval ch1
             else if regexValid lx1 && (ch1 =? 47) then lexRegex lx1 lval
             else lexOperator lx1 lval ch1 nch) = Done s ->
            step_frame lx lval s).
  { intros lx1 ch1 Hc He Hl Hr Hx.
    assert (Hmove : step_frame lx1 lval s -> step_frame lx lval s).
    { destruct s; cbn [step_frame]; rewrite ?Hc, ?He, ?Hl, ?Hr; auto. }
    destruct ((ch1 =? 13) || (ch1 =? 10)).
    { inv Hx. cbn [step_frame ctx error lineNumber set_offset
        set_lineNumber]. repeat split; auto; lia. }
    destruct ((ch1 =? 47) && (nch =? 47));
      [now apply Hmove, lineComment_frame|].
    destruct ((ch1 =? 47) && (nch =? 42));
      [now apply Hmove, blockComment_frame|].
    destruct (_ || _ || (ch1 =? 36) || (ch1 =? 95));
      [now apply Hmove, lexWord_frame|].
    destruct (isDecimal ch1 || (ch1 =? 46) && isDecimal nch);
      [now apply Hmove, (lexNumber_frame _ _ _ _ _ Hx)|].
    destruct ((ch1 =? 34) || (ch1 =? 39));
      [now apply Hmove, (lexString_frame _ _ _ _ Hx)|].
    destruct (regexValid lx1) eqn:Hv; cbn [andb] in Hx.
    - destruct (ch1 =? 47).
      + now apply Hmove, lexRegex_frame.
      + now apply Hmove, (lexOperator_frame _ _ _ _ _ Hx).
    - now apply Hmove, (lexOperator_frame _ _ _ _ _ Hx). }
  destruct ((ch =? 13) && (nch =? 10)).
  - cbn [bind source offset set_offset] in H.
    destruct (idx (source lx) (offset lx + 1)) as [ch1| |];
      unbind H; try discriminate.
    apply (Hgo (set_offset lx (offset lx + 1)) ch1); auto.
  - unbind H. apply (Hgo lx ch); auto.
Qed.

Lemma lexLoop_frame : forall fuel lx lval tok lx' lval',
  lexLoop fuel lx lval = Done (tok, lx', lval') ->
  step_frame lx lval (Return tok lx' lval').
Proof.
  induction fuel as [|fuel IH]; intros lx lval tok lx' lval'; cbn [lexLoop];
    [discriminate|].
  destruct (lexOnce lx lval) as [[lx1|tok1 lx1 lval1]| |] eqn:E;
    try discriminate.
  - pose proof (lexOnce_frame _ _ _ E) as (Hc & He & Hl).
    apply lexOnce_ok in E as (_ & Hr & _). intros H. apply IH in H.
    cbn [step_frame] in *. rewrite <- Hc, <- He, <- Hr.
    destruct H as (H1 & H2 & H3). repeat split; auto; try apply H3. lia.
  - intros [= <- <- <-]. now apply lexOnce_frame.
Qed.

(** X11: [Lex] keeps the source and the parsing context, never moves the
    line counter back, and writes the error slot only when it returns the
    error token. *)
Theorem Lex_frame (lx lx' : gesLex) (lval lval' : gesSymType) (tok : Token) :
  Lex lx lval = Done (tok, lx', lval') ->
  source lx' = source lx /\ ctx lx' = ctx lx
  /\ lineNumber lx <= lineNumber lx'
  /\ (tok <> GTOK_ERROR -> error lx' = error lx).
Proof.
  unfold Lex, lex.
  destruct (lexLoop _ _ _) as [[[tok1 lx1] lval1]| |] eqn:E; cbn [bind];
    try discriminate.
  pose proof (lexLoop_flag _ _ _ _ _ _ E) as [Hs _].
  apply lexLoop_frame in E as (Hc & Hl & He & _).
  intros [= <- <- <-].
  destruct (regexValid lx); cbn [source ctx lineNumber error set_regexValid];
    auto.
Qed.

(** X12: what [Lex] leaves in the semantic value: the payload kind of the
    token it returns, the scanner's parsing context, a literal value with a
    literal token; the identifier, literal and operator fields keep what
    they held unless the token is of their kind. *)
Theorem Lex_payload (lx lx' : gesLex) (lval lval' : gesSymType)
  (tok : Token) :
  Lex lx lval = Done (tok, lx', lval') ->
  parseType lval' = payloadOf tok
  /\ symCtx lval' = Some (ctx lx)
  /\ (tok = GTOK_LITERAL -> literal lval' <> None)
  /\ (tok <> GTOK_IDENTIFIER -> identifier lval' = identifier lval)
  /\ (tok <> GTOK_LITERAL -> literal lval' = literal lval)
  /\ (tok <> GTOK_ASSIGNOP -> assignOp lval' = assignOp lval).
Proof.
  unfold Lex, lex.
  destruct (lexLoop _ _ _) as [[[tok1 lx1] lval1]| |] eqn:E; cbn [bind];
    try discriminate.
  apply lexLoop_frame in E as (Hc & _ & _ & _ & Hp).
  destruct Hp as (Hi & Hl & Ha & Hv & _ & Hk).
  cbn [parseType identifier literal assignOp set_parseType] in *.
  intros [= <- <- <-].
  cbn [parseType identifier literal assignOp symCtx set_symCtx].
  repeat split; auto.
  - rewrite Hk. destruct (payloadOf tok1); reflexivity.
  - destruct (regexValid lx); cbn [ctx set_regexValid]; congruence.
Qed.

(** X13: [Lex] returns a regex token only when the regex-valid flag was
    set, and leaves the flag clear with it. *)
Theorem Lex_regexp_flag (lx lx' : gesLex) (lval lval' : gesSymType) :
  Lex lx lval = Done (GTOK_REGEXP, lx', lval') ->
  regexValid lx = true /\ regexValid lx' = false.
Proof.
  intros H. pose proof (Lex_regexValid _ _ _ _ _ H) as Hr.
  unfold Lex, lex in H.
  destruct (lexLoop _ _ _) as [[[tok1 lx1] lval1]| |] eqn:E; cbn [bind] in H;
    try discriminate.
  apply lexLoop_frame in E as (_ & _ & _ & Hv & _).
  injection H as -> _ _. split; [now apply Hv | exact Hr].
Qed.

End Frame.

(** ** Every token consumes input *)

Section Progress.

Lemma identEnd_le l : forall eso eso',
  identEnd l eso = Done eso' -> eso <= eso'.
Proof.
  induction l as [|c t IH]; intros eso eso'; cbn [identEnd];
    [discriminate|].
  destruct (c =? 0); [intros [= <-]; lia|].
  destruct (identStop c); [intros [= <-]; lia|].
  intros H. apply IH in H. lia.
Qed.

Lemma floatRun_le l : forall c0 eso eso',
  floatRun l c0 eso = Done eso' -> eso <= eso'.
Proof.
  induction l as [|c t IH]; intros c0 eso eso'; cbn [floatRun];
    (destruct (floatChar c0); [|intros [= <-]; lia]); [discriminate|].
  intros H. apply IH in H. lia.
Qed.

Lemma floatRun_lt l c0 eso eso' :
  floatChar c0 = true -> floatRun l c0 eso = Done eso' -> eso < eso'.
Proof.
  intros Hf. destruct l as [|c t]; cbn [floatRun]; rewrite Hf;
    [discriminate|].
  intros H. apply floatRun_le in H. lia.
Qed.

Lemma strLoop_le n : forall l qch eso line str eso' line' str',
  (List.length l <= n)%nat ->
  strLoop l qch eso line str = Done (Closed eso' line' str') -> eso <= eso'.
Proof.
  induction n as [|n IH]; intros [|c t] qch eso line str eso' line' str' Hn;
    cbn [List.length] in Hn; cbn [strLoop]; try discriminate; try lia.
  intros H. scan H; try lia;
    match goal with
    | H : strLoop _ _ _ _ _ = Done _ |- _ =>
      apply IH in H; [lia | cbn [List.length] in *; lia]
    end.
Qed.

Lemma regexLoop_le n : forall l eso eso',
  (List.length l <= n)%nat ->
  regexLoop l eso = Done (Some eso') -> eso <= eso'.
Proof.
  induction n as [|n IH]; intros [|c t] eso eso' Hn;
    cbn [List.length] in Hn; cbn [regexLoop]; try discriminate; try lia.
  intros H. scan H; try lia;
    match goal with
    | H : regexLoop _ _ = Done _ |- _ =>
      apply IH in H; [lia | cbn [List.length] in *; lia]
    end.
Qed.

Lemma idx_from (s : list Z) i c :
  idx s i = Done c -> 0 <= i /\ exists t, from s i = c :: t.
Proof.
  intros H. apply idx_Done in H as [Hi H]. split; [lia|].
  unfold from. destruct (Z.ltb_spec i 0); [lia|].
  revert H. generalize (Z.to_nat i). intros n. revert s.
  induction n as [|n IH]; intros [|a s]; cbn; try discriminate.
  - intros [= ->]. eauto.
  - apply IH.
Qed.

Lemma lexWord_moved lx lval c0 s :
  idx (source lx) (offset lx) = Done c0 ->
  (c0 >=? 97) && (c0 <=? 122) || (c0 >=? 65) && (c0 <=? 90)
    || (c0 =? 36) || (c0 =? 95) = true ->
  lexWord lx lval = Done s -> moved lx s.
Proof.
  intros Hi Hw. apply idx_from in Hi as [Ho [t Hf]].
  assert (H0 : (c0 =? 0) = false /\ identStop c0 = false).
  { unfold identStop. rewrite !Z.geb_leb in Hw. rewrite !Z.gtb_ltb.
    repeat match goal with
    | _ : context [?a <=? ?b] |- _ => destruct (Z.leb_spec a b)
    | |- context [?a <? ?b] => destruct (Z.ltb_spec a b); try lia
    | _ : context [?a =? ?b] |- _ => destruct (Z.eqb_spec a b)
    | |- context [?a =? ?b] => destruct (Z.eqb_spec a b); try lia
    end; cbn in *; try discriminate; try lia; auto. }
  destruct H0 as [H0 Hs].
  unfold lexWord. rewrite Hf. cbn [identEnd]. rewrite H0, Hs. intros H.
  destruct (identEnd _ _) as [eso| |] eqn:Ee; unbind H; try discriminate.
  apply identEnd_le in Ee.
  destruct (slice _ _ _) as [text| |]; unbind H; try discriminate.
  destruct (lookupKeyword _ _ _) as [tok|]; inv H; cbn [moved]; intros _.
  - destruct tok; cbn [offset set_offset set_regexValid]; lia.
  - cbn [offset set_offset]. lia.
Qed.

Lemma lexString_moved lx lval c0 s :
  lexString lx lval c0 = Done s -> moved lx s.
Proof.
  unfold lexString, literalToken. intros H.
  destruct (strLoop _ _ _ _ _) as [[eso line str|line msg]| |] eqn:Es;
    unbind H; try discriminate; inv H; cbn [moved].
  - apply (strLoop_le _ _ _ _ _ _ _ _ _ (Nat.le_refl _)) in Es.
    intros _. cbn [offset set_offset set_lineNumber]. lia.
  - congruence.
Qed.

Lemma lexRegex_moved lx lval s :
  lexRegex lx lval = Done s -> moved lx s.
Proof.
  unfold lexRegex. intros H.
  destruct (regexLoop _ _) as [[eso|]| |] eqn:Es; unbind H;
    try discriminate; inv H; cbn [moved].
  - apply (regexLoop_le _ _ _ _ (Nat.le_refl _)) in Es.
    cbn [offset set_offset] in *. intros _. lia.
  - congruence.
Qed.

Lemma lexOperator_moved lx lval c0 c1 s :
  lexOperator lx lval c0 c1 = Done s -> moved lx s.
Proof.
  unfold lexOperator. intros H.
  scan H; cbn [moved offset set_offset set_regexValid]; intros;
    try congruence; lia.
Qed.

Lemma lexNumber_moved lx lval c0 c1 s :
  isDecimal c0 = true \/ c0 = 46 ->
  lexNumber lx lval c0 c1 = Done s -> moved lx s.
Proof.
  intros Hc. unfold lexNumber, literalToken. intros H.
  match type of H with
  | bind ?m _ = _ => destruct m as [[[lxA chA] radix]| |] eqn:E0
  end; unbind H; try discriminate.
  assert (HA : source lxA = source lx /\ offset lx <= offset lxA
               /\ (radix = 16 -> offset lxA = offset lx + 2)
               /\ (offset lxA = offset lx -> radix = 10 /\ chA = c0)).
  { scan E0; cbn [source offset set_offset]; repeat split; intros;
      try discriminate; try lia. }
  destruct HA as (HsA & HoA & H16 & H10).
  destruct (digitRun _ _ _ _ _) as [[[eso ival] ch']| |] eqn:Ed;
    unbind H; try discriminate.
  pose proof (digitRun_le _ _ _ _ _ _ Ed) as Hle. cbn [fst] in Hle.
  destruct (Z.eqb_spec eso (offset lxA)) as [He|He].
  - destruct (Z.eqb_spec radix 16) as [Hr|Hr].
    + specialize (H16 Hr). cbn [Z.eqb Pos.eqb orb negb andb] in H.
      scan H; cbn [moved offset set_offset]; intros; try congruence; lia.
    + destruct (Z.eq_dec (offset lxA) (offset lx)) as [E|E].
      * destruct (H10 E) as [-> ->]. destruct Hc as [Hd|Hd].
        -- apply digitRun_decimal in Ed; [|exact Hd | reflexivity].
           cbn [fst] in Ed. lia.
        -- subst c0. rewrite digitRun_stop in Ed by reflexivity.
           injection Ed as _ _ <-.
           cbn [Z.eqb Pos.eqb orb negb andb offset source set_offset] in H.
           destruct (floatRun _ _ _) as [eso2| |] eqn:Ef; unbind H;
             try discriminate.
           apply floatRun_lt in Ef; [|reflexivity].
           scan H; cbn [moved offset set_offset]; intros; try congruence;
             lia.
      * destruct ((radix =? 8) || (radix =? 16));
          [inv H; cbn [moved offset set_offset]; intros; lia|].
        destruct (negb (ch' =? 46) && negb (ch' =? 101) && negb (ch' =? 69)).
        -- scan H; cbn [moved offset set_offset]; intros; try congruence;
             lia.
        -- destruct (floatRun _ _ _) as [eso2| |] eqn:Ef; unbind H;
             try discriminate.
           apply floatRun_le in Ef.
           scan H; cbn [moved offset set_offset] in *; intros;
             try congruence; lia.
  - destruct ((radix =? 8) || (radix =? 16));
      [inv H; cbn [moved offset set_offset]; intros; lia|].
    destruct (negb (ch' =? 46) && negb (ch' =? 101) && negb (ch' =? 69)).
    + scan H; cbn [moved offset set_offset]; intros; try congruence; lia.
    + destruct (floatRun _ _ _) as [eso2| |] eqn:Ef; unbind H;
        try discriminate.
      apply floatRun_le in Ef.
      scan H; cbn [moved offset set_offset]; intros; try congruence; lia.
Qed.

Lemma lexOnce_moved lx lval s :
  lexOnce lx lval = Done s ->
  match s with
  | Continue lx' => offset lx < offset lx'
  | Return tok lx' _ =>
    tok <> T0 -> tok <> GTOK_ERROR -> offset lx < offset lx'
  end.
Proof.
  intros H. pose proof (lexOnce_ok _ _ _ H) as Hok.
  destruct s as [lx'|tok lx' lval']; [apply Hok|]. clear Hok.
  unfold lexOnce in H.
  destruct (idx (source lx) (offset lx)) as [ch| |] eqn:Ei; unbind H;
    try discriminate.
  destruct (ch =? 0); [inv H; congruence|].
  destruct (idx (source lx) (offset lx + 1)) as [nch| |] eqn:Ei1; unbind H;
    try discriminate.
  destruct ((ch =? 32) || (ch =? 9)); [discriminate|].
  intros _.
  assert (Hgo : forall lx1 ch1,
            offset lx <= offset lx1 ->
            idx (source lx1) (offset lx1) = Done ch1 ->
            (if (ch1 =? 13) || (ch1 =? 10)
             then Done (Continue (set_offset (set_lineNumber lx1
                            (lineNumber lx1 + 1)) (offset lx1 + 1)))
             else if (ch1 =? 47) && (nch =? 47) then lineComment lx1
             else if (ch1 =? 47) && (nch =? 42) then blockComment lx1 lval
             else if (ch1 >=? 97) && (ch1 <=? 122)
                     || (ch1 >=? 65) && (ch1 <=? 90)
                     || (ch1 =? 36) || (ch1 =? 95)
             then lexWord lx1 lval
             else if isDecimal ch1 || (ch1 =? 46) && isDecimal nch
             then lexNumber lx1 lval ch1 nch
             else if (ch1 =? 34) || (ch1 =? 39) then lexString lx1 lval ch1
             else if regexValid lx1 && (ch1 =? 47) then lexRegex lx1 lval
             else lexOperator lx1 lval ch1 nch)
            = Done (Return tok lx' lval') ->
            tok <> GTOK_ERROR -> offset lx < offset lx').
  { intros lx1 ch1 Ho Hi Hx Herr.
    assert (Hmove : moved lx1 (Return tok lx' lval') ->
                    offset lx < offset lx').
    { cbn [moved]. intros Hm. specialize (Hm Herr). lia. }
    destruct ((ch1 =? 13) || (ch1 =? 10)); [discriminate|].
    destruct ((ch1 =? 47) && (nch =? 47)).
    { exfalso. unfold lineComment in Hx. scan Hx. }
    destruct ((ch1 =? 47) && (nch =? 42)).
    { exfalso. apply Herr. unfold blockComment in Hx. scan Hx.
      reflexivity. }
    destruct (_ || _ || (ch1 =? 36) || (ch1 =? 95)) eqn:Hw;
      [now apply Hmove, (lexWord_moved _ _ _ _ Hi Hw Hx)|].
    destruct (isDecimal ch1 || (ch1 =? 46) && isDecimal nch) eqn:Hn.
    { apply Hmove, (lexNumber_moved lx1 lval ch1 nch); [|exact Hx].
      destruct (isDecimal ch1); [now left|]. right.
      cbn [orb] in Hn. apply andb_prop in Hn as [Hn _].
      now apply Z.eqb_eq in Hn. }
    destruct ((ch1 =? 34) || (ch1 =? 39));
      [now apply Hmove, (lexString_moved _ _ _ _ Hx)|].
    destruct (regexValid lx1 && (ch1 =? 47)).
    - now apply Hmove, (lexRegex_moved _ _ _ Hx).
    - now apply Hmove, (lexOperator_moved _ _ _ _ _ Hx). }
  destruct ((ch =? 13) && (nch =? 10)).
  - cbn [bind source offset set_offset] in H.
    rewrite Ei1 in H. unbind H.
    apply (Hgo (set_offset lx (offset lx + 1)) nch);
      [cbn [offset set_offset]; lia | exact Ei1 | exact H].
  - unbind H. apply (Hgo lx ch); [lia | exact Ei | exact H].
Qed.

Lemma lexLoop_moved : forall fuel lx lval tok lx' lval',
  lexLoop fuel lx lval = Done (tok, lx', lval') ->
  tok <> T0 -> tok <> GTOK_ERROR -> offset lx < offset lx'.
Proof.
  induction fuel as [|fuel IH]; intros lx lval tok lx' lval'; cbn [lexLoop];
    [discriminate|].
  destruct (lexOnce lx lval) as [[lx1|tok1 lx1 lval1]| |] eqn:E;
    try discriminate.
  - apply lexOnce_moved in E. intros H H0 He.
    specialize (IH _ _ _ _ _ H H0 He). lia.
  - apply lexOnce_moved in E. intros [= <- <- <-]. exact E.
Qed.

Lemma Lex_moved (lx lx' : gesLex) (lval lval' : gesSymType)
  (tok : Token) :
  Lex lx lval = Done (tok, lx', lval') ->
  tok <> T0 -> tok <> GTOK_ERROR -> offset lx < offset lx'.
Proof.
  unfold Lex, lex.
  destruct (lexLoop _ _ _) as [[[tok1 lx1] lval1]| |] eqn:E; cbn [bind];
    try discriminate.
  intros [= <- <- <-] H0 He.
  apply lexLoop_moved in E; [|exact H0 | exact He].
  destruct (regexValid lx); exact E.
Qed.

(** X14: every token but the end of input and the error token consumes
    input: [Lex] leaves the scanner at a greater offset. *)
Theorem Lex_advances (lx lx' : gesLex) (lval lval' : gesSymType)
  (tok : Token) :
  Lex lx lval = Done (tok, lx', lval') ->
  tok <> T0 -> tok <> GTOK_ERROR -> offset lx < offset lx'.
Proof. exact (Lex_moved lx lx' lval lval' tok). Qed.

Lemma lexN_front : forall n lx lval tok lx1 lval1,
  Lex lx lval = Done (tok, lx1, lval1) -> (0 < n)%nat ->
  lexN (S n) lx lval = lexN n lx1 lval1.
Proof.
  induction n as [|n IH]; intros lx lval tok lx1 lval1 H Hn; [lia|].
  destruct n as [|n].
  - cbn [lexN]. rewrite H. reflexivity.
  - change (lexN (S (S (S n))) lx lval)
      with (match lexN (S (S n)) lx lval with
            | Some (_, lx0, lval0) =>
              match Lex lx0 lval0 with
              | Done r => Some r
              | _ => None
              end
            | None => None
            end).
    rewrite (IH _ _ _ _ _ H) by lia. reflexivity.
Qed.

Lemma scan_ends : forall k lx lval,
  guarded lx -> (offset lx =? 0) && dotDigit (source lx) = false ->
  len (source lx) - offset lx <= Z.of_nat k ->
  exists n tok lx' lval',
    (1 <= n <= k)%nat
    /\ lexN n lx lval = Some (tok, lx', lval')
    /\ (tok = T0 \/ tok = GTOK_ERROR).
Proof.
  induction k as [|k IH]; intros lx lval Hg Hc Hk.
  { apply guarded_inside in Hg. lia. }
  pose proof (Lex_sentinel lx lval Hg) as HL. rewrite Hc in HL.
  destruct (Lex lx lval) as [[[tok lx1] lval1]| |] eqn:E;
    try (destruct HL; fail).
  cbn [returns fst snd] in HL. destruct HL as [Hg1 Hs1].
  assert (Hend : {tok = T0 \/ tok = GTOK_ERROR}
                 + {tok <> T0 /\ tok <> GTOK_ERROR}).
  { destruct tok; (left; auto; fail) || (right; split; discriminate). }
  destruct Hend as [Hend|[H0 He]].
  - exists 1%nat, tok, lx1, lval1. split; [lia|]. split; [|exact Hend].
    cbn [lexN]. rewrite E. reflexivity.
  - pose proof (Lex_moved _ _ _ _ _ E H0 He) as Hadv.
    pose proof (guarded_inside _ Hg) as Hin.
    destruct (IH lx1 lval1 Hg1) as (n & tok' & lx' & lval' & Hn & HN & Hf).
    + destruct (Z.eqb_spec (offset lx1) 0); [lia | reflexivity].
    + rewrite Hs1. lia.
    + exists (S n), tok', lx', lval'. split; [lia|]. split; [|exact Hf].
      rewrite (lexN_front _ _ _ _ _ _ E) by lia. exact HN.
Qed.

(** X15: scanning a source from its start comes to the end of input or to
    an error token within as many calls of [Lex] as the source has bytes,
    and one more; a source that begins with a point and a digit apart. *)
Theorem scanner_ends (src : string) (lval : gesSymType) :
  dotDigit (bytesOf src) = false ->
  exists n tok lx lval',
    (1 <= n <= S (String.length src))%nat
    /\ lexN n (newLexer src) lval = Some (tok, lx, lval')
    /\ (tok = T0 \/ tok = GTOK_ERROR).
Proof.
  intros Hd. apply scan_ends.
  - apply newLexer_guarded.
  - cbn [newLexer source offset Z.eqb andb]. now rewrite dotDigit_app.
  - cbn [newLexer source offset]. unfold len. rewrite length_app.
    cbn [List.length].
    assert (Hl : List.length (bytesOf src) = String.length src).
    { clear. induction src; cbn; congruence. }
    rewrite Hl. lia.
Qed.

End Progress.

(** ** Tokens, wherever the scanner stands *)

Section Tokens.

Lemma Lex_one_pass lx lval tok lx1 lval1 :
  lexOnce lx (set_parseType lval PARSED_UNDEFINED)
    = Done (Return tok lx1 lval1) ->
  Lex lx lval = Done (lexed lx tok lx1 lval1).
Proof.
  intros H. unfold Lex, lex. cbn [lexLoop]. rewrite H. reflexivity.
Qed.

Lemma from_app_from s i w r :
  0 <= i -> from s i = w ++ r -> from s (i + len w) = r.
Proof.
  intros Hi H. unfold len.
  assert (Hr : reaches (from s i) i r (i + Z.of_nat (List.length w))).
  { exists (List.length w). split; [|reflexivity].
    rewrite H, skipn_app, skipn_all, Nat.sub_diag. reflexivity. }
  apply from_reaches in Hr; [|exact Hi]. now symmetry.
Qed.

Lemma from_app_slice s i w c r :
  0 <= i -> from s i = w ++ c :: r -> slice s i (i + len w) = Done w.
Proof.
  intros Hi H. unfold slice, len, from in *.
  destruct (Z.ltb_spec i 0); [lia|].
  assert (Hl : (Z.to_nat i + List.length w < List.length s)%nat).
  { apply (f_equal (@List.length Z)) in H.
    rewrite length_skipn, length_app in H. cbn [List.length] in H. lia. }
  destruct (Z.ltb_spec (i + Z.of_nat (List.length w)) i); [lia|].
  destruct (Z.ltb_spec (Z.of_nat (List.length s))
              (i + Z.of_nat (List.length w))); [lia|].
  cbn [orb]. rewrite H.
  replace (Z.to_nat (i + Z.of_nat (List.length w) - i))
    with (List.length w + 0)%nat by lia.
  rewrite firstn_app_2. cbn [firstn]. now rewrite app_nil_r.
Qed.

(** *** Identifiers and keywords *)

Lemma wordStart_tests a :
  wordStart a = true ->
  (a =? 0) = false /\ (a =? 32) || (a =? 9) = false
  /\ (a =? 13) = false /\ (a =? 10) = false /\ (a =? 47) = false
  /\ (a >=? 97) && (a <=? 122) || (a >=? 65) && (a <=? 90)
     || (a =? 36) || (a =? 95) = true
  /\ identByte a = true.
Proof.
  unfold wordStart, identByte. rewrite !Z.geb_leb. intros H.
  repeat match goal with
  | _ : context [?x <=? ?y] |- _ => destruct (Z.leb_spec x y)
  | _ : context [?x =? ?y] |- _ => destruct (Z.eqb_spec x y)
  end; cbn [andb orb] in H; try discriminate;
  repeat match goal with
  | |- context [?x =? ?y] => destruct (Z.eqb_spec x y); try lia
  | |- context [?x <=? ?y] => destruct (Z.leb_spec x y); try lia
  end; cbn [andb orb]; repeat split; reflexivity.
Qed.

Lemma identByte_0 c : identByte c = true -> (c =? 0) = false.
Proof.
  unfold identByte. intros H. destruct (Z.eqb_spec c 0) as [->|]; [|easy].
  discriminate.
Qed.

Lemma identEnd_word w : forall c rest eso,
  forallb identByte w = true -> identByte c = false ->
  identEnd (w ++ c :: rest) eso = Done (eso + len w).
Proof.
  induction w as [|a w IH]; intros c rest eso Hw Hc; cbn [app identEnd].
  - rewrite identStop_identByte, Hc. cbn [negb]. unfold len. cbn.
    rewrite Z.add_0_r. destruct (c =? 0); reflexivity.
  - cbn [forallb] in Hw. apply andb_prop in Hw as [Ha Hw].
    rewrite identStop_identByte, Ha, (identByte_0 _ Ha). cbn [negb].
    rewrite IH by assumption. unfold len. cbn [List.length].
    f_equal. lia.
Qed.

Lemma bytesEqual_eq a : forall b, bytesEqual a b = true <-> a = b.
Proof.
  induction a as [|x a IH]; intros [|y b]; cbn [bytesEqual];
    try (split; [discriminate | congruence]); [tauto|].
  rewrite andb_true_iff, Z.eqb_eq, IH.
  split; [intros [-> ->] | intros [= -> ->]]; auto.
Qed.

Lemma lookupKeyword_find kws w :
  lookupKeyword kws (len w) w
  = option_map token
      (find (fun k => if list_eq_dec Z.eq_dec (bytesOf (word k)) w
                      then true else false) kws).
Proof.
  induction kws as [|k kws IH]; cbn [lookupKeyword find]; [reflexivity|].
  destruct (list_eq_dec Z.eq_dec (bytesOf (word k)) w) as [E|E].
  - rewrite E, Z.eqb_refl. cbn [andb].
    destruct (bytesEqual w w) eqn:Eb; [reflexivity|].
    assert (bytesEqual w w = true) by now apply bytesEqual_eq.
    congruence.
  - destruct (bytesEqual w (bytesOf (word k))) eqn:Eb.
    + apply bytesEqual_eq in Eb. congruence.
    + rewrite andb_false_r. exact IH.
Qed.

(** X16: a word is scanned as a whole: the token spans the longest run of
    identifier bytes, it is a keyword's token when the run spells that
    keyword and an identifier with the run as its name otherwise. *)
Theorem Lex_word (lx : gesLex) (lval : gesSymType) (a c : Z)
  (w rest : list Z) :
  0 <= offset lx ->
  from (source lx) (offset lx) = (a :: w) ++ c :: rest ->
  wordStart a = true -> forallb identByte w = true -> identByte c = false ->
  exists lx' lval',
    Lex lx lval
      = Done (match keywordOf (a :: w) with
              | Some tok => tok
              | None => GTOK_IDENTIFIER
              end, lx', lval')
    /\ offset lx' = offset lx + len (a :: w)
    /\ (keywordOf (a :: w) = None ->
        parseType lval' = PARSED_IDENTIFIER
        /\ identifier lval' = stringOf (a :: w)).
Proof.
  intros Ho Hf Ha Hw Hc.
  destruct (wordStart_tests a Ha) as (H0 & Hws & H13 & H10 & H47 & Hword & Hi).
  assert (Hn : exists nch l2, from (source lx) (offset lx) = a :: nch :: l2).
  { rewrite Hf. destruct w; cbn [app]; eauto. }
  destruct Hn as (nch & l2 & Hf2).
  assert (Hone : exists lx1 lval1,
    lexOnce lx (set_parseType lval PARSED_UNDEFINED)
      = Done (Return (match keywordOf (a :: w) with
                      | Some tok => tok
                      | None => GTOK_IDENTIFIER
                      end) lx1 lval1)
    /\ offset lx1 = offset lx + len (a :: w)
    /\ (keywordOf (a :: w) = None ->
        parseType lval1 = PARSED_IDENTIFIER
        /\ identifier lval1 = stringOf (a :: w))).
  { unfold lexOnce. rewrite (idx_at0 _ _ _ _ Ho Hf2). cbn [bind].
    rewrite H0, (idx_at1 _ _ _ _ _ Ho Hf2). cbn [bind].
    rewrite Hws, H13. cbn [andb orb bind]. rewrite H13, H10, H47.
    cbn [andb orb]. rewrite Hword.
    unfold lexWord. rewrite Hf.
    rewrite identEnd_word by (cbn [forallb]; rewrite ?Hi; assumption).
    cbn [bind]. rewrite (from_app_slice _ _ _ _ _ Ho Hf). cbn [bind].
    replace (offset lx + len (a :: w) - offset lx) with (len (a :: w))
      by lia.
    rewrite lookupKeyword_find. fold (keywordOf (a :: w)).
    destruct (keywordOf (a :: w)) as [tok|].
    - do 2 eexists. split; [reflexivity|].
      split; [destruct tok; reflexivity | discriminate].
    - do 2 eexists. split; [reflexivity|]. split; [reflexivity|].
      intros _. split; reflexivity. }
  destruct Hone as (lx1 & lval1 & H1 & H2 & H3).
  rewrite (Lex_one_pass _ _ _ _ _ H1). unfold lexed.
  do 2 eexists. split; [reflexivity|].
  split; [destruct (regexValid lx); exact H2 | exact H3].
Qed.

(** *** Decimal literals *)

Lemma isDecimal_range c : isDecimal c = true <-> 48 <= c <= 57.
Proof.
  unfold isDecimal. rewrite Z.geb_leb, andb_true_iff, !Z.leb_le. tauto.
Qed.

Lemma isDecimal_isDigit c : Strconv.isDigit c = isDecimal c.
Proof. unfold Strconv.isDigit, isDecimal. now rewrite Z.geb_leb. Qed.

Lemma decAcc_le ds : forall n,
  forallb isDecimal ds = true -> 0 <= n ->
  n <= fold_left (fun acc c => 10 * acc + (c - 48)) ds n.
Proof.
  induction ds as [|d ds IH]; intros n Hds Hn; cbn [fold_left]; [lia|].
  cbn [forallb] in Hds. apply andb_prop in Hds as [Hd Hds].
  apply isDecimal_range in Hd.
  etransitivity; [|apply IH; [exact Hds | lia]]. lia.
Qed.

Lemma parseUintLoop_digits ds : forall n,
  forallb isDecimal ds = true -> 0 <= n <= Strconv.maxUint64 ->
  Strconv.parseUintLoop ds n
  = let v := fold_left (fun acc c => 10 * acc + (c - 48)) ds n in
    if v <=? Strconv.maxUint64 then inl v else inr ErrRange.
Proof.
  change Strconv.maxUint64 with 18446744073709551615.
  induction ds as [|d ds IH]; intros n Hds Hn;
    cbn [Strconv.parseUintLoop fold_left]; cbv zeta.
  - destruct (Z.leb_spec n 18446744073709551615); [reflexivity | lia].
  - cbn [forallb] in Hds. apply andb_prop in Hds as [Hd Hds].
    rewrite isDecimal_isDigit, Hd. apply isDecimal_range in Hd.
    pose proof (decAcc_le ds (10 * n + (d - 48)) Hds ltac:(lia)) as Hle.
    change Strconv.maxUint64 with 18446744073709551615.
    change (18446744073709551615 / 10 + 1) with 1844674407370955162.
    rewrite Z.geb_leb, Z.gtb_ltb.
    destruct (Z.leb_spec 1844674407370955162 n).
    { destruct (Z.leb_spec (fold_left (fun acc c => 10 * acc + (c - 48)) ds
                              (10 * n + (d - 48))) 18446744073709551615);
        [lia | reflexivity]. }
    replace (n * 10 + (d - 48)) with (10 * n + (d - 48)) by lia.
    destruct (Z.ltb_spec 18446744073709551615 (10 * n + (d - 48))).
    { destruct (Z.leb_spec (fold_left (fun acc c => 10 * acc + (c - 48)) ds
                              (10 * n + (d - 48))) 18446744073709551615);
        [lia | reflexivity]. }
    apply IH; [exact Hds | lia].
Qed.

Lemma decValue_nonneg ds : forallb isDecimal ds = true -> 0 <= decValue ds.
Proof. intros H. apply (decAcc_le ds 0 H). lia. Qed.

(** [strconv.ParseInt] on a run of decimal digits: its base-10 reading, or
    a range error from [2 ^ 63] on. *)
Lemma ParseInt_digits d ds :
  forallb isDecimal (d :: ds) = true ->
  Strconv.ParseInt (d :: ds)
  = if decValue (d :: ds) <? 2 ^ 63 then inl (decValue (d :: ds))
    else inr (Strconv.rangeError "ParseInt" (d :: ds)).
Proof.
  intros Hds. pose proof (decValue_nonneg _ Hds) as Hnn.
  unfold Strconv.ParseInt.
  assert (Hd : 48 <= d <= 57).
  { cbn [forallb] in Hds. apply andb_prop in Hds as [Hd _].
    now apply isDecimal_range. }
  destruct (Z.eqb_spec d 43); [lia|]. destruct (Z.eqb_spec d 45); [lia|].
  cbn [orb negb andb]. unfold Strconv.parseUint.
  rewrite parseUintLoop_digits;
    [|exact Hds | change Strconv.maxUint64 with 18446744073709551615; lia].
  cbv zeta. fold (decValue (d :: ds)).
  change Strconv.maxUint64 with 18446744073709551615.
  change (2 ^ 63) with 9223372036854775808 in *.
  destruct (Z.leb_spec (decValue (d :: ds)) 18446744073709551615);
    destruct (Z.ltb_spec (decValue (d :: ds)) 9223372036854775808);
    try lia; try reflexivity; rewrite Z.geb_leb;
    destruct (Z.leb_spec 9223372036854775808 (decValue (d :: ds)));
    try lia; reflexivity.
Qed.

Lemma isDecimal_isHex c : isDecimal c = true -> isHex c = true.
Proof. unfold isHex, isDecimal. now intros ->. Qed.

Lemma digitRun_digits ds : forall d0 c tl eso ival,
  isDecimal d0 = true -> forallb isDecimal ds = true ->
  isDecimal c = false ->
  digitRun 10 (ds ++ c :: tl) d0 eso ival = Done (eso + 1 + len ds, ival, c).
Proof.
  assert (Hstop : forall c tl eso ival, isDecimal c = false ->
            digitRun 10 tl c eso ival = Done (eso, ival, c)).
  { intros c tl eso ival Hc.
    assert (Hr : (c <? 48) || (c >? 57) = true).
    { unfold isDecimal in Hc. rewrite Z.geb_leb in Hc. rewrite Z.gtb_ltb.
      destruct (Z.leb_spec 48 c), (Z.leb_spec c 57); try discriminate;
        destruct (Z.ltb_spec c 48), (Z.ltb_spec 57 c); try lia; reflexivity. }
    destruct tl; cbn [digitRun]; rewrite Hr; cbn [Z.eqb Pos.eqb];
      destruct (isHex c); reflexivity. }
  assert (Hgo : forall d0 c1 tl eso ival, isDecimal d0 = true ->
            digitRun 10 (c1 :: tl) d0 eso ival
            = digitRun 10 tl c1 (eso + 1) ival).
  { intros d0 c1 tl eso ival Hd. cbn [digitRun].
    rewrite (isDecimal_isHex _ Hd). cbn [Z.eqb Pos.eqb].
    apply isDecimal_range in Hd. rewrite Z.gtb_ltb.
    destruct (Z.ltb_spec d0 48), (Z.ltb_spec 57 d0); try lia. reflexivity. }
  induction ds as [|d1 ds IH]; intros d0 c tl eso ival H0 Hds Hc; cbn [app].
  - rewrite Hgo, Hstop by assumption. unfold len. cbn [List.length].
    now rewrite Z.add_0_r.
  - cbn [forallb] in Hds. apply andb_prop in Hds as [H1 Hds].
    rewrite Hgo, IH by assumption. unfold len. cbn [List.length].
    do 2 f_equal. f_equal. lia.
Qed.

Lemma nonZeroDigit_tests a :
  nonZeroDigit a = true ->
  (a =? 0) = false /\ (a =? 32) || (a =? 9) = false
  /\ (a =? 13) = false /\ (a =? 10) = false /\ (a =? 47) = false
  /\ (a >=? 97) && (a <=? 122) || (a >=? 65) && (a <=? 90)
     || (a =? 36) || (a =? 95) = false
  /\ isDecimal a = true /\ (a =? 48) = false.
Proof.
  unfold nonZeroDigit, isDecimal. rewrite !Z.geb_leb. intros H.
  apply andb_prop in H as [H1 H2]. apply Z.leb_le in H1, H2.
  repeat match goal with
  | |- context [?x =? ?y] => destruct (Z.eqb_spec x y); try lia
  | |- context [?x <=? ?y] => destruct (Z.leb_spec x y); try lia
  end; cbn [andb orb]; repeat split; reflexivity.
Qed.

(** X17: a decimal literal that starts with a digit from [1] to [9] and is
    not followed by a point or an exponent: the token spans the whole run
    of digits; it is an Integer literal with the base-10 reading of the run
    when that is below [2 ^ 63], and the error token with a range error,
    the scanner not moved, from there on. *)
Theorem Lex_decimal (lx : gesLex) (lval : gesSymType) (d0 c : Z)
  (ds rest : list Z) :
  0 <= offset lx ->
  from (source lx) (offset lx) = (d0 :: ds) ++ c :: rest ->
  nonZeroDigit d0 = true -> forallb isDecimal ds = true ->
  isDecimal c = false -> c <> "."%c -> c <> "e"%c -> c <> "E"%c ->
  exists lx' lval',
    if decValue (d0 :: ds) <? 2 ^ 63
    then Lex lx lval = Done (GTOK_LITERAL, lx', lval')
         /\ parseType lval' = PARSED_LITERAL
         /\ literal lval' = Some (IntegerType (decValue (d0 :: ds)))
         /\ offset lx' = offset lx + len (d0 :: ds)
    else Lex lx lval = Done (GTOK_ERROR, lx', lval')
         /\ error lx'
            = Some (TextNumError "Invalid literal integer: "
                      (Strconv.rangeError "ParseInt" (d0 :: ds)))
         /\ offset lx' = offset lx.
Proof.
  intros Ho Hf Hd0 Hds Hc Hc1 Hc2 Hc3.
  destruct (nonZeroDigit_tests d0 Hd0)
    as (H0 & Hws & H13 & H10 & H47 & Hword & Hdec & H48).
  assert (Hn : exists nch l2,
            from (source lx) (offset lx) = d0 :: nch :: l2
            /\ nch :: l2 = ds ++ c :: rest).
  { rewrite Hf. destruct ds; cbn [app]; eauto. }
  destruct Hn as (nch & l2 & Hf2 & Hl2).
  assert (Hall : forallb isDecimal (d0 :: ds) = true)
    by (cbn [forallb]; now rewrite Hdec, Hds).
  assert (Hone :
    lexOnce lx (set_parseType lval PARSED_UNDEFINED)
    = match Strconv.ParseInt (d0 :: ds) with
      | inr err =>
        Done (Return GTOK_ERROR
                (set_error lx (TextNumError "Invalid literal integer: " err))
                (set_parseType lval PARSED_UNDEFINED))
      | inl ival =>
        Done (literalToken lx (set_parseType lval PARSED_UNDEFINED)
                (offset lx + len (d0 :: ds)) (IntegerType ival))
      end).
  { unfold lexOnce. rewrite (idx_at0 _ _ _ _ Ho Hf2). cbn [bind].
    rewrite H0, (idx_at1 _ _ _ _ _ Ho Hf2). cbn [bind].
    rewrite Hws, H13. cbn [andb orb bind]. rewrite H13, H10, H47.
    cbn [andb orb]. rewrite Hword, Hdec. cbn [orb].
    unfold lexNumber. rewrite H48. cbn [bind].
    rewrite (from_at1 _ _ _ _ Ho Hf2), Hl2.
    rewrite digitRun_digits by assumption. cbn [bind].
    assert (Hne : (offset lx + 1 + len ds =? offset lx) = false)
      by (apply Z.eqb_neq; unfold len; lia).
    rewrite Hne. cbn [Z.eqb Pos.eqb orb].
    apply Z.eqb_neq in Hc1, Hc2, Hc3. rewrite Hc1, Hc2, Hc3.
    cbn [negb andb].
    replace (offset lx + 1 + len ds) with (offset lx + len (d0 :: ds))
      by (unfold len; cbn [List.length]; lia).
    rewrite (from_app_slice _ _ _ _ _ Ho Hf). cbn [bind]. reflexivity. }
  rewrite (ParseInt_digits _ _ Hall) in Hone.
  destruct (decValue (d0 :: ds) <? 2 ^ 63).
  - rewrite (Lex_one_pass _ _ _ _ _ Hone). unfold lexed.
    do 2 eexists. split; [reflexivity|].
    repeat split; destruct (regexValid lx); reflexivity.
  - rewrite (Lex_one_pass _ _ _ _ _ Hone). unfold lexed.
    do 2 eexists. split; [reflexivity|].
    split; destruct (regexValid lx); reflexivity.
Qed.

(** *** Legacy octal literals *)

Lemma isOctal_range c : isOctal c = true <-> 48 <= c <= 55.
Proof.
  unfold isOctal. rewrite Z.geb_leb, andb_true_iff, !Z.leb_le. tauto.
Qed.

Lemma isOctal_isHex c : isOctal c = true -> isHex c = true.
Proof.
  intros H. apply isOctal_range in H. unfold isHex. rewrite !Z.geb_leb.
  destruct (Z.leb_spec 48 c), (Z.leb_spec c 57); try lia; reflexivity.
Qed.

(** One pass of the octal loop: the shift and the [|] amount to
    [8 * ival + digit] in 64-bit two's complement. *)
Lemma oct_step iv d :
  0 <= d < 8 -> Z.lor (shl64 iv 3) d = wrap64 (8 * iv + d).
Proof.
  intros Hd. unfold shl64. rewrite Z.shiftl_mul_pow2 by lia.
  change (2 ^ 3) with 8.
  pose proof (wrap64_range (iv * 8)) as Hr.
  pose proof (wrap64_mod (iv * 8)) as Hm.
  apply Z.mod_divide in Hm; [|lia]. destruct Hm as [k Hk].
  set (w := wrap64 (iv * 8)) in *.
  assert (Hw : w = 8 * (iv + k * 2 ^ 61)) by lia.
  assert (Hland : Z.land w d = 0).
  { replace d with (Z.land d (Z.ones 3))
      by (rewrite Z.land_ones by lia; apply Z.mod_small; simpl; lia).
    rewrite Z.land_assoc, (Z.land_comm w d), <- Z.land_assoc.
    rewrite (Z.land_ones w) by lia. rewrite Hw.
    change (2 ^ 3) with 8. rewrite Z.mul_comm, Z.mod_mul by lia.
    apply Z.land_0_r. }
  pose proof (Z.add_lor_land w d) as Hadd. rewrite Hland in Hadd.
  replace (Z.lor w d) with (w + d) by lia.
  symmetry. rewrite <- (wrap64_small (w + d)) by lia.
  apply wrap64_eqm. apply Z.mod_divide; [lia|]. exists (- k). lia.
Qed.

Lemma digitRun_octal os : forall o0 c tl eso ival a,
  isOctal o0 = true -> forallb isOctal os = true -> isOctal c = false ->
  ival = wrap64 a ->
  digitRun 8 (os ++ c :: tl) o0 eso ival
  = Done (eso + 1 + len os,
          wrap64 (fold_left (fun acc c => 8 * acc + (c - 48)) (o0 :: os) a),
          c).
Proof.
  assert (Hstop : forall c tl eso ival, isOctal c = false ->
            digitRun 8 tl c eso ival = Done (eso, ival, c)).
  { intros c tl eso ival Hc.
    destruct tl; cbn [digitRun]; rewrite Hc; cbn [Z.eqb Pos.eqb];
      destruct (isHex c); reflexivity. }
  assert (Hgo : forall o0 c1 tl eso ival a, isOctal o0 = true ->
            ival = wrap64 a ->
            digitRun 8 (c1 :: tl) o0 eso ival
            = digitRun 8 tl c1 (eso + 1) (wrap64 (8 * a + (o0 - 48)))).
  { intros o0 c1 tl eso ival a Ho ->. cbn [digitRun].
    rewrite (isOctal_isHex _ Ho), Ho. cbn [Z.eqb Pos.eqb].
    apply isOctal_range in Ho. rewrite oct_step by lia. f_equal.
    apply wrap64_eqm. pose proof (wrap64_mod a) as Hm.
    apply Z.mod_divide in Hm; [|lia]. destruct Hm as [k Hk].
    apply Z.mod_divide; [lia|]. exists (8 * k). lia. }
  induction os as [|o1 os IH]; intros o0 c tl eso ival a H0 Hos Hc Hiv;
    cbn [app].
  - rewrite (Hgo _ _ _ _ _ a) by assumption. rewrite Hstop by assumption.
    unfold len. cbn [List.length fold_left]. now rewrite Z.add_0_r.
  - cbn [forallb] in Hos. apply andb_prop in Hos as [H1 Hos].
    rewrite (Hgo _ _ _ _ _ a) by assumption.
    rewrite (IH _ _ _ _ _ (8 * a + (o0 - 48))) by (assumption || reflexivity).
    unfold len. cbn [List.length fold_left]. do 2 f_equal. f_equal. lia.
Qed.

(** X18: a legacy octal literal, [0] and at least one octal digit: the
    token spans the zero and the whole run of octal digits, whatever
    follows, and is an Integer literal with the base-8 reading of the run,
    reduced to 64-bit two's complement. *)
Theorem Lex_octal (lx : gesLex) (lval : gesSymType) (o0 c : Z)
  (os rest : list Z) :
  0 <= offset lx ->
  from (source lx) (offset lx) = "0"%c :: (o0 :: os) ++ c :: rest ->
  forallb isOctal (o0 :: os) = true -> isOctal c = false ->
  exists lx' lval',
    Lex lx lval = Done (GTOK_LITERAL, lx', lval')
    /\ parseType lval' = PARSED_LITERAL
    /\ literal lval' = Some (IntegerType (wrap64 (octValue (o0 :: os))))
    /\ offset lx' = offset lx + 1 + len (o0 :: os)
    /\ (octValue (o0 :: os) < 2 ^ 63 ->
        literal lval' = Some (IntegerType (octValue (o0 :: os)))).
Proof.
  intros Ho Hf Hos Hc. cbn [forallb] in Hos.
  apply andb_prop in Hos as [Ho0 Hos].
  pose proof Ho0 as Hr. apply isOctal_range in Hr.
  assert (Hx : (o0 =? 120) || (o0 =? 88) = false).
  { destruct (Z.eqb_spec o0 120), (Z.eqb_spec o0 88); try lia; reflexivity. }
  assert (Hd : isDecimal o0 = true) by (apply isDecimal_range; lia).
  cbn [app] in Hf.
  assert (Hone :
    lexOnce lx (set_parseType lval PARSED_UNDEFINED)
    = Done (literalToken (set_offset lx (offset lx + 1))
              (set_parseType lval PARSED_UNDEFINED)
              (offset lx + 1 + 1 + len os)
              (IntegerType (wrap64 (octValue (o0 :: os)))))).
  { unfold lexOnce. rewrite (idx_at0 _ _ _ _ Ho Hf). cbn [bind Z.eqb Pos.eqb].
    rewrite (idx_at1 _ _ _ _ _ Ho Hf).
    cbn [bind Z.eqb Pos.eqb orb andb Z.geb Z.leb Z.compare Pos.compare
         Pos.compare_cont isDecimal].
    unfold lexNumber. cbn [Z.eqb Pos.eqb offset source set_offset].
    rewrite (idx_at1 _ _ _ _ _ Ho Hf). cbn [bind]. rewrite Hx, Hd.
    cbn [bind offset source set_offset].
    rewrite (from_at2 _ _ _ _ _ Ho Hf).
    rewrite (digitRun_octal _ _ _ _ _ _ 0 Ho0 Hos Hc eq_refl).
    cbn [bind offset set_offset].
    assert (Hne : (offset lx + 1 + 1 + len os =? offset lx + 1) = false)
      by (apply Z.eqb_neq; unfold len; lia).
    rewrite Hne. cbn [Z.eqb Pos.eqb orb]. reflexivity. }
  unfold literalToken in Hone.
  rewrite (Lex_one_pass _ _ _ _ _ Hone). unfold lexed.
  assert (Hnn : 0 <= octValue (o0 :: os)).
  { unfold octValue.
    assert (H : forall l a, forallb isOctal l = true -> 0 <= a ->
                0 <= fold_left (fun acc c => 8 * acc + (c - 48)) l a).
    { induction l as [|x l IH]; intros a Hl Ha; cbn [fold_left]; [exact Ha|].
      cbn [forallb] in Hl. apply andb_prop in Hl as [Hx' Hl].
      apply isOctal_range in Hx'. apply IH; [exact Hl | lia]. }
    apply H; [cbn [forallb]; now rewrite Ho0, Hos | lia]. }
  do 2 eexists. split; [reflexivity|].
  split; [destruct (regexValid lx); reflexivity|].
  split; [destruct (regexValid lx); reflexivity|].
  split.
  - destruct (regexValid lx); cbn [offset set_offset set_regexValid];
      unfold len; cbn [List.length]; lia.
  - intros Hlt. cbn [literal set_symCtx set_literal].
    rewrite wrap64_small by lia. reflexivity.
Qed.

(** *** String literals without escapes *)

Lemma stringOf_bytesOf s : stringOf (bytesOf s) = s.
Proof.
  induction s as [|a s IH]; cbn [bytesOf stringOf]; [reflexivity|].
  now rewrite N2Z.id, ascii_N_embedding, IH.
Qed.

Lemma strLoop_plain body : forall t qch eso line str,
  forallb (plainByte qch) body = true ->
  strLoop (body ++ t) qch eso line str
  = strLoop t qch (eso + len body) line (str ++ body).
Proof.
  induction body as [|b body IH]; intros t qch eso line str Hb; cbn [app].
  - unfold len. cbn [List.length]. now rewrite Z.add_0_r, app_nil_r.
  - cbn [forallb] in Hb. apply andb_prop in Hb as [Hp Hb].
    unfold plainByte in Hp. apply andb_prop in Hp as [Hp H3].
    apply andb_prop in Hp as [H1 H2].
    apply negb_true_iff in H1, H2, H3.
    cbn [strLoop]. rewrite H1, H3, H2. rewrite IH by exact Hb.
    unfold len. cbn [List.length]. rewrite <- app_assoc. cbn [app].
    f_equal. lia.
Qed.

Lemma quoted_next (l body : list Z) (a t : Z) (rest : list Z) :
  l = a :: body ++ t :: rest -> exists nch l2, l = a :: nch :: l2.
Proof. intros ->. destruct body; cbn [app]; eauto. Qed.

Lemma lexOnce_quoted (lx : gesLex) (lval : gesSymType) (qch nch : Z)
  (l2 : list Z) :
  0 <= offset lx -> qch = DQUOTE \/ qch = "'"%c ->
  from (source lx) (offset lx) = qch :: nch :: l2 ->
  lexOnce lx lval = lexString lx lval qch.
Proof.
  intros Hoff Hq Hf2.
  unfold lexOnce. rewrite (idx_at0 _ _ _ _ Hoff Hf2). cbn [bind].
  rewrite (idx_at1 _ _ _ _ _ Hoff Hf2).
  destruct Hq as [-> | ->];
    cbn [bind Z.eqb Pos.eqb orb andb Z.geb Z.leb Z.compare Pos.compare
         Pos.compare_cont isDecimal]; reflexivity.
Qed.

Lemma lexString_plain (lx : gesLex) (lval : gesSymType) (qch t : Z)
  (body rest : list Z) :
  0 <= offset lx ->
  from (source lx) (offset lx) = qch :: body ++ t :: rest ->
  forallb (plainByte qch) body = true ->
  lexString lx lval qch
  = r <- strLoop (t :: rest) qch (offset lx + 1 + len body)
           (lineNumber lx) body ;;
    match r with
    | StrError line msg =>
      Done (Return GTOK_ERROR
              (set_error (set_lineNumber lx line) (Text msg)) lval)
    | Closed eso line str =>
      Done (literalToken (set_lineNumber lx line) lval (eso + 1)
              (StringType (stringOf str)))
    end.
Proof.
  intros Hoff Hsrc Hbody. unfold lexString.
  rewrite (from_at1 _ _ _ _ Hoff Hsrc). now rewrite strLoop_plain.
Qed.


(** X19: a string literal without escapes scans as the String of exactly
    the characters between its quotes, and leaves the scanner after the
    closing quote, on the same line. *)
Theorem Lex_string_plain (lx : gesLex) (lval : gesSymType) (qch : Z)
  (body : string) (rest : list Z) :
  0 <= offset lx ->
  qch = DQUOTE \/ qch = "'"%c ->
  from (source lx) (offset lx) = qch :: bytesOf body ++ qch :: rest ->
  forallb (plainByte qch) (bytesOf body) = true ->
  exists lx' lval',
    Lex lx lval = Done (GTOK_LITERAL, lx', lval')
    /\ parseType lval' = PARSED_LITERAL
    /\ literal lval' = Some (StringType body)
    /\ offset lx' = offset lx + len (bytesOf body) + 2
    /\ lineNumber lx' = lineNumber lx.
Proof.
  intros Ho Hq Hf Hb.
  assert (Hone :
    lexOnce lx (set_parseType lval PARSED_UNDEFINED)
    = Done (literalToken (set_lineNumber lx (lineNumber lx))
              (set_parseType lval PARSED_UNDEFINED)
              (offset lx + 1 + len (bytesOf body) + 1)
              (StringType (stringOf (bytesOf body))))).
  { destruct (quoted_next _ _ _ _ _ Hf) as (nch & l2 & Hf2).
    rewrite (lexOnce_quoted _ _ _ _ _ Ho Hq Hf2).
    rewrite (lexString_plain _ _ _ _ _ _ Ho Hf Hb).
    cbn [strLoop]. rewrite Z.eqb_refl. reflexivity. }
  unfold literalToken in Hone. rewrite stringOf_bytesOf in Hone.
  rewrite (Lex_one_pass _ _ _ _ _ Hone). unfold lexed.
  do 2 eexists. split; [reflexivity|].
  repeat split; destruct (regexValid lx);
    cbn [offset lineNumber set_offset set_lineNumber set_regexValid];
    reflexivity || lia.
Qed.

(** X20: a string literal that a line break or the end of the source cuts
    short: the error token, with its message, the scanner not moved. *)
Theorem Lex_string_unterminated (lx : gesLex) (lval : gesSymType)
  (qch brk : Z) (body : string) (rest : list Z) :
  0 <= offset lx ->
  qch = DQUOTE \/ qch = "'"%c ->
  from (source lx) (offset lx) = qch :: bytesOf body ++ brk :: rest ->
  forallb (plainByte qch) (bytesOf body) = true ->
  brk = CR \/ brk = LF \/ brk = NUL ->
  exists lx' lval',
    Lex lx lval = Done (GTOK_ERROR, lx', lval')
    /\ error lx' = Some (Text "Unterminated string literal")
    /\ offset lx' = offset lx
    /\ lineNumber lx' = lineNumber lx.
Proof.
  intros Ho Hq Hf Hb Hbrk.
  assert (Hone :
    lexOnce lx (set_parseType lval PARSED_UNDEFINED)
    = Done (Return GTOK_ERROR
              (set_error (set_lineNumber lx (lineNumber lx))
                 (Text "Unterminated string literal"))
              (set_parseType lval PARSED_UNDEFINED))).
  { destruct (quoted_next _ _ _ _ _ Hf) as (nch & l2 & Hf2).
    rewrite (lexOnce_quoted _ _ _ _ _ Ho Hq Hf2).
    rewrite (lexString_plain _ _ _ _ _ _ Ho Hf Hb).
    cbn [strLoop].
    destruct Hq as [-> | ->]; destruct Hbrk as [-> | [-> | ->]];
      reflexivity. }
  rewrite (Lex_one_pass _ _ _ _ _ Hone). unfold lexed.
  do 2 eexists. split; [reflexivity|].
  repeat split; destruct (regexValid lx); reflexivity.
Qed.

(** *** The slash: a regex literal or a division *)

Lemma regexLoop_plain body : forall t eso,
  forallb regexByte body = true ->
  regexLoop (body ++ t) eso = regexLoop t (eso + len body).
Proof.
  induction body as [|b body IH]; intros t eso Hb; cbn [app].
  - unfold len. cbn [List.length]. now rewrite Z.add_0_r.
  - cbn [forallb] in Hb. apply andb_prop in Hb as [Hp Hb].
    unfold regexByte in Hp. apply andb_prop in Hp as [Hp H3].
    apply andb_prop in Hp as [H1 H2].
    apply negb_true_iff in H1, H2, H3.
    cbn [regexLoop]. rewrite H1, H3, H2. rewrite IH by exact Hb.
    unfold len. cbn [List.length]. f_equal. lia.
Qed.

(** X21: the same bytes, a slash, a pattern and a slash, scan as a regex
    literal when the regex-valid flag is set and as a division sign when it
    is clear. *)
Theorem Lex_slash (lx : gesLex) (lval : gesSymType) (b0 : Z)
  (body rest : list Z) :
  0 <= offset lx ->
  from (source lx) (offset lx) = "/"%c :: (b0 :: body) ++ "/"%c :: rest ->
  forallb regexByte (b0 :: body) = true -> b0 <> "*"%c -> b0 <> "="%c ->
  exists lx' lval',
    Lex lx lval
      = Done (if regexValid lx then GTOK_REGEXP else GTOK_DIV, lx', lval')
    /\ offset lx'
       = (if regexValid lx then offset lx + len (b0 :: body) + 2
          else offset lx + 1)
    /\ parseType lval'
       = (if regexValid lx then PARSED_REGEXP else PARSED_UNDEFINED)
    /\ regexValid lx' = false.
Proof.
  intros Ho Hf Hb Hstar Heq. pose proof Hb as Hb0. cbn [forallb] in Hb0.
  apply andb_prop in Hb0 as [Hb0 _]. unfold regexByte in Hb0.
  apply andb_prop in Hb0 as [Hb0 _]. apply andb_prop in Hb0 as [Hsl _].
  apply negb_true_iff in Hsl. apply Z.eqb_neq in Hstar, Heq.
  cbn [app] in Hf.
  assert (Hone :
    lexOnce lx (set_parseType lval PARSED_UNDEFINED)
    = if regexValid lx
      then Done (Return GTOK_REGEXP
                   (set_offset (set_offset lx (offset lx + 1))
                      (offset lx + 1 + len (b0 :: body) + 1))
                   (set_parseType (set_parseType lval PARSED_UNDEFINED)
                      PARSED_REGEXP))
      else Done (Return GTOK_DIV (set_offset lx (offset lx + 1))
                   (set_parseType lval PARSED_UNDEFINED))).
  { unfold lexOnce. rewrite (idx_at0 _ _ _ _ Ho Hf). cbn [bind Z.eqb Pos.eqb].
    rewrite (idx_at1 _ _ _ _ _ Ho Hf).
    cbn [bind Z.eqb Pos.eqb orb andb Z.geb Z.leb Z.compare Pos.compare
         Pos.compare_cont isDecimal].
    rewrite Hsl, Hstar. destruct (regexValid lx) eqn:Hv; cbn [andb].
    - unfold lexRegex. cbn [offset source set_offset].
      rewrite (from_at1 _ _ _ _ Ho Hf).
      change (b0 :: body ++ 47 :: rest) with ((b0 :: body) ++ 47 :: rest).
      rewrite regexLoop_plain by exact Hb. cbn [regexLoop Z.eqb Pos.eqb bind].
      reflexivity.
    - unfold lexOperator. cbn [Z.eqb Pos.eqb]. rewrite Heq. reflexivity. }
  destruct (regexValid lx) eqn:Hv;
    rewrite (Lex_one_pass _ _ _ _ _ Hone); unfold lexed; rewrite Hv;
    do 2 eexists; (split; [reflexivity|]);
    cbn [offset regexValid parseType set_offset set_regexValid set_symCtx
         set_parseType]; repeat split; try lia; try reflexivity.
  exact Hv.
Qed.

(** X22: a regex literal that a line break or the end of the source cuts
    short: the error token, with its message, the scanner moved past the
    opening slash. *)
Theorem Lex_regex_unterminated (lx : gesLex) (lval : gesSymType)
  (body : list Z) (brk : Z) (rest : list Z) :
  0 <= offset lx -> regexValid lx = true ->
  from (source lx) (offset lx) = "/"%c :: body ++ brk :: rest ->
  forallb regexByte body = true ->
  match body with b0 :: _ => b0 <> "*"%c | [] => True end ->
  brk = CR \/ brk = LF \/ brk = NUL ->
  exists lx' lval',
    Lex lx lval = Done (GTOK_ERROR, lx', lval')
    /\ error lx' = Some (Text "Unterminated regex pattern")
    /\ offset lx' = offset lx + 1
    /\ regexValid lx' = false.
Proof.
  intros Ho Hv Hf Hb Hstar Hbrk.
  destruct (quoted_next _ _ _ _ _ Hf) as (nch & l2 & Hf2).
  assert (Hn : (nch =? 47) = false /\ (nch =? 42) = false).
  { rewrite Hf in Hf2. destruct body as [|b0 body'].
    - cbn [app] in Hf2. injection Hf2 as <- _.
      destruct Hbrk as [-> | [-> | ->]]; auto.
    - cbn [app] in Hf2. injection Hf2 as <- _. cbn [forallb] in Hb.
      apply andb_prop in Hb as [Hb0 _]. unfold regexByte in Hb0.
      apply andb_prop in Hb0 as [Hb0 _]. apply andb_prop in Hb0 as [Hsl _].
      apply negb_true_iff in Hsl. apply Z.eqb_neq in Hstar. auto. }
  destruct Hn as [Hsl Hst].
  assert (Hone :
    lexOnce lx (set_parseType lval PARSED_UNDEFINED)
    = Done (Return GTOK_ERROR
              (set_error (set_offset lx (offset lx + 1))
                 (Text "Unterminated regex pattern"))
              (set_parseType lval PARSED_UNDEFINED))).
  { unfold lexOnce. rewrite (idx_at0 _ _ _ _ Ho Hf2).
    cbn [bind Z.eqb Pos.eqb].
    rewrite (idx_at1 _ _ _ _ _ Ho Hf2).
    cbn [bind Z.eqb Pos.eqb orb andb Z.geb Z.leb Z.compare Pos.compare
         Pos.compare_cont isDecimal].
    rewrite Hsl, Hst, Hv. cbn [andb].
    unfold lexRegex. cbn [offset source set_offset].
    rewrite (from_at1 _ _ _ _ Ho Hf).
    rewrite regexLoop_plain by exact Hb. cbn [regexLoop].
    destruct Hbrk as [-> | [-> | ->]]; reflexivity. }
  rewrite (Lex_one_pass _ _ _ _ _ Hone). unfold lexed. rewrite Hv.
  do 2 eexists. split; [reflexivity|]. repeat split.
Qed.

(** *** A zero that starts no longer literal *)

(** X23: a [0] that is followed by neither an octal digit, [x], a point nor
    an exponent is the Integer literal 0 and spans the zero alone; so [08]
    is the literal 0 and then the literal 8. *)
Theorem Lex_zero (lx : gesLex) (lval : gesSymType) (c : Z) (rest : list Z) :
  0 <= offset lx ->
  from (source lx) (offset lx) = "0"%c :: c :: rest ->
  isOctal c = false ->
  c <> "x"%c -> c <> "X"%c -> c <> "."%c -> c <> "e"%c -> c <> "E"%c ->
  exists lx' lval',
    Lex lx lval = Done (GTOK_LITERAL, lx', lval')
    /\ parseType lval' = PARSED_LITERAL
    /\ literal lval' = Some (IntegerType 0)
    /\ offset lx' = offset lx + 1.
Proof.
  intros Ho Hf Hoct Hx1 Hx2 Hd He1 He2.
  apply Z.eqb_neq in Hx1, Hx2, Hd, He1, He2.
  assert (Hone :
    lexOnce lx (set_parseType lval PARSED_UNDEFINED)
    = Done (literalToken lx (set_parseType lval PARSED_UNDEFINED)
              (offset lx + 1) (IntegerType 0))).
  { unfold lexOnce. rewrite (idx_at0 _ _ _ _ Ho Hf). cbn [bind Z.eqb Pos.eqb].
    rewrite (idx_at1 _ _ _ _ _ Ho Hf).
    cbn [bind Z.eqb Pos.eqb orb andb Z.geb Z.leb Z.compare Pos.compare
         Pos.compare_cont isDecimal].
    unfold lexNumber. cbn [Z.eqb Pos.eqb offset source set_offset].
    rewrite (idx_at1 _ _ _ _ _ Ho Hf). cbn [bind]. rewrite Hx1, Hx2.
    cbn [orb].
    destruct (isDecimal c) eqn:Hdec; cbn [bind offset source set_offset].
    - (* an 8 or a 9: the octal loop takes no digit *)
      assert (Hstop : forall tl, digitRun 8 tl c (offset lx + 1) 0
                                 = Done (offset lx + 1, 0, c)).
      { intros tl. destruct tl; cbn [digitRun]; rewrite Hoct;
          cbn [Z.eqb Pos.eqb]; destruct (isHex c); reflexivity. }
      rewrite Hstop. cbn [bind offset set_offset]. rewrite Z.eqb_refl.
      cbn [Z.eqb Pos.eqb orb]. unfold literalToken.
      cbn [offset source set_offset]. reflexivity.
    - assert (Hr : (c <? 48) || (c >? 57) = true).
      { unfold isDecimal in Hdec. rewrite Z.geb_leb in Hdec.
        rewrite Z.gtb_ltb.
        destruct (Z.leb_spec 48 c), (Z.leb_spec c 57); try discriminate;
          destruct (Z.ltb_spec c 48), (Z.ltb_spec 57 c); try lia;
          reflexivity. }
      assert (Hstop : forall tl, digitRun 10 tl c (offset lx + 1) 0
                                 = Done (offset lx + 1, 0, c)).
      { intros tl. destruct tl; cbn [digitRun]; rewrite Hr;
          cbn [Z.eqb Pos.eqb]; destruct (isHex c); reflexivity. }
      rewrite Hstop. cbn [bind offset set_offset]. rewrite Z.eqb_refl.
      cbn [Z.eqb Pos.eqb orb]. rewrite Hd, He1, He2. cbn [negb andb].
      cbn [offset source set_offset].
      replace (offset lx + 1 - 1) with (offset lx) by lia.
      assert (Hsl : slice (source lx) (offset lx) (offset lx + 1)
                    = Done [48]).
      { apply (from_app_slice _ _ [48] c rest Ho Hf). }
      rewrite Hsl. cbn [bind]. unfold literalToken.
      cbn [offset source set_offset]. reflexivity. }
  unfold literalToken in Hone.
  rewrite (Lex_one_pass _ _ _ _ _ Hone). unfold lexed.
  do 2 eexists. split; [reflexivity|].
  repeat split; destruct (regexValid lx); reflexivity.
Qed.

(** *** Compound assignment operators *)

(** X24: each compound assignment operator scans as one assignment token
    that spans all its bytes and carries its operator in [assignOp]; [/=]
    only where no regex literal may start. *)
Theorem Lex_assign_op (lx : gesLex) (lval : gesSymType) (sp : string)
  (op : Token) (c : Z) (rest : list Z) :
  0 <= offset lx ->
  In (kw sp op) assignOps ->
  from (source lx) (offset lx) = bytesOf sp ++ c :: rest ->
  (regexValid lx = true -> sp <> "/="%string) ->
  exists lx' lval',
    Lex lx lval = Done (GTOK_ASSIGNOP, lx', lval')
    /\ assignOp lval' = op
    /\ parseType lval' = PARSED_UNDEFINED
    /\ offset lx' = offset lx + len (bytesOf sp).
Proof.
  intros Ho Hin Hf Hre.
  assert (Hone : exists lx1 lval1,
    lexOnce lx (set_parseType lval PARSED_UNDEFINED)
      = Done (Return GTOK_ASSIGNOP lx1 lval1)
    /\ assignOp lval1 = op
    /\ parseType lval1 = PARSED_UNDEFINED
    /\ offset lx1 = offset lx + len (bytesOf sp)).
  { assert (Hv : sp = "/="%string -> regexValid lx = false).
    { intros ->. destruct (regexValid lx); [now destruct Hre | reflexivity]. }
    cbn [assignOps In] in Hin.
    repeat (destruct Hin as [Hin|Hin];
            [injection Hin as <- <-|]); [..|destruct Hin];
      match type of Hf with
      | _ = bytesOf ?w ++ _ =>
        let b := eval vm_compute in (bytesOf w) in
        change (bytesOf w) with b in Hf |- *
      end;
      cbn [app] in Hf; unfold lexOnce;
      rewrite (idx_at0 _ _ _ _ Ho Hf); cbn [bind Z.eqb Pos.eqb];
      rewrite (idx_at1 _ _ _ _ _ Ho Hf);
      cbn [bind Z.eqb Pos.eqb orb andb Z.geb Z.leb Z.compare Pos.compare
           Pos.compare_cont isDecimal];
      rewrite ?andb_false_r, ?(Hv eq_refl); cbn [andb];
      unfold lexOperator; cbn [Z.eqb Pos.eqb];
      rewrite ?(idx_at2 _ _ _ _ _ _ Ho Hf); cbn [bind Z.eqb Pos.eqb];
      rewrite ?(idx_at3 _ _ _ _ _ _ _ Ho Hf); cbn [bind Z.eqb Pos.eqb];
      do 2 eexists; (split; [reflexivity|]);
      cbn [assignOp parseType offset set_assignOp set_parseType set_offset];
      unfold len; cbn [List.length]; repeat split; lia. }
  destruct Hone as (lx1 & lval1 & H1 & H2 & H3 & H4).
  rewrite (Lex_one_pass _ _ _ _ _ H1). unfold lexed.
  do 2 eexists. split; [reflexivity|].
  cbn [assignOp parseType set_symCtx].
  repeat split; try assumption. destruct (regexValid lx); exact H4.
Qed.

End Tokens.

(** ** Blanks, line breaks and comments *)

Section Skipping.

Lemma lexLoop_more : forall fuel lx lval,
  lexLoop fuel lx lval <> Starved ->
  lexLoop (S fuel) lx lval = lexLoop fuel lx lval.
Proof.
  induction fuel as [|fuel IH]; intros lx lval H; [now destruct H|].
  cbn [lexLoop] in *.
  destruct (lexOnce lx lval) as [[lx1|tok lx1 lval1]| |]; try reflexivity.
  apply IH in H. exact H.
Qed.

(** A pass of the loop of [lex] that starts over: the call goes on as a call
    on the scanner the pass has left. *)
Lemma Lex_continue lx lval lx1 :
  lexOnce lx (set_parseType lval PARSED_UNDEFINED) = Done (Continue lx1) ->
  Lex lx lval = Lex lx1 lval.
Proof.
  intros H. pose proof (lexOnce_Continue _ _ _ H) as (Hs & Hr & Ho & Hl).
  unfold Lex, lex. rewrite Hs, Hr.
  rewrite (lexLoop_more (List.length (source lx)) lx1).
  - cbn [lexLoop]. rewrite H. reflexivity.
  - apply lexLoop_not_starved; unfold len in *; rewrite ?Hs; lia.
Qed.

(** X25: blanks before a token are skipped: the call goes on after them. *)
Theorem Lex_skips_blanks (ws : list Z) :
  forall (lx : gesLex) (lval : gesSymType) (c : Z) (rest : list Z),
  0 <= offset lx ->
  from (source lx) (offset lx) = ws ++ c :: rest ->
  forallb blank ws = true ->
  Lex lx lval = Lex (set_offset lx (offset lx + len ws)) lval.
Proof.
  induction ws as [|w ws IH]; intros lx lval c rest Ho Hf Hw.
  - unfold len. cbn [List.length]. rewrite Z.add_0_r. now destruct lx.
  - cbn [forallb] in Hw. apply andb_prop in Hw as [Hb Hw]. cbn [app] in Hf.
    assert (Hn : exists nch l2,
              from (source lx) (offset lx) = w :: nch :: l2).
    { rewrite Hf. destruct ws; cbn [app]; eauto. }
    destruct Hn as (nch & l2 & Hf2).
    assert (H0 : (w =? 0) = false).
    { unfold blank in Hb. destruct (Z.eqb_spec w 0) as [->|]; [|reflexivity].
      discriminate. }
    rewrite (Lex_continue lx lval (set_offset lx (offset lx + 1))).
    + rewrite (IH _ lval c rest).
      * cbn [offset set_offset]. unfold len. cbn [List.length].
        replace (offset lx + Z.of_nat (S (List.length ws)))
          with (offset lx + 1 + Z.of_nat (List.length ws)) by lia.
        reflexivity.
      * cbn [offset set_offset]. lia.
      * cbn [offset source set_offset].
        now rewrite (from_at1 _ _ _ _ Ho Hf).
      * exact Hw.
    + unfold lexOnce. rewrite (idx_at0 _ _ _ _ Ho Hf2). cbn [bind].
      rewrite H0, (idx_at1 _ _ _ _ _ Ho Hf2). cbn [bind].
      unfold blank in Hb. rewrite Hb. reflexivity.
Qed.

Lemma lexOnce_LF (lx : gesLex) (lval : gesSymType) (c : Z) (rest : list Z) :
  0 <= offset lx ->
  from (source lx) (offset lx) = LF :: c :: rest ->
  lexOnce lx lval
  = Done (Continue (set_offset (set_lineNumber lx (lineNumber lx + 1))
                      (offset lx + 1))).
Proof.
  intros Ho Hf. unfold lexOnce.
  rewrite (idx_at0 _ _ _ _ Ho Hf). cbn [bind Z.eqb Pos.eqb].
  rewrite (idx_at1 _ _ _ _ _ Ho Hf). reflexivity.
Qed.

Lemma lexOnce_CRLF (lx : gesLex) (lval : gesSymType) (rest : list Z) :
  0 <= offset lx ->
  from (source lx) (offset lx) = CR :: LF :: rest ->
  lexOnce lx lval
  = Done (Continue (set_offset (set_lineNumber lx (lineNumber lx + 1))
                      (offset lx + 1 + 1))).
Proof.
  intros Ho Hf. unfold lexOnce.
  rewrite (idx_at0 _ _ _ _ Ho Hf). cbn [bind Z.eqb Pos.eqb].
  rewrite (idx_at1 _ _ _ _ _ Ho Hf).
  cbn [bind Z.eqb Pos.eqb orb andb offset source set_offset].
  rewrite (idx_at1 _ _ _ _ _ Ho Hf). reflexivity.
Qed.

Lemma lexOnce_CR (lx : gesLex) (lval : gesSymType) (c : Z) (rest : list Z) :
  0 <= offset lx ->
  from (source lx) (offset lx) = CR :: c :: rest -> c <> LF ->
  lexOnce lx lval
  = Done (Continue (set_offset (set_lineNumber lx (lineNumber lx + 1))
                      (offset lx + 1))).
Proof.
  intros Ho Hf Hc. unfold lexOnce.
  rewrite (idx_at0 _ _ _ _ Ho Hf). cbn [bind Z.eqb Pos.eqb].
  rewrite (idx_at1 _ _ _ _ _ Ho Hf).
  cbn [bind Z.eqb Pos.eqb orb andb]. apply Z.eqb_neq in Hc. rewrite Hc.
  reflexivity.
Qed.

Lemma lexOnce_line_break (lx : gesLex) (lval : gesSymType) (brk : list Z)
  (c : Z) (rest : list Z) :
  0 <= offset lx ->
  from (source lx) (offset lx) = brk ++ c :: rest ->
  brk = [LF] \/ brk = [CR; LF] \/ (brk = [CR] /\ c <> LF) ->
  lexOnce lx lval
  = Done (Continue (set_offset (set_lineNumber lx (lineNumber lx + 1))
                      (offset lx + len brk))).
Proof.
  intros Ho Hf [-> | [-> | [-> Hc]]]; cbn [app] in Hf; unfold len;
    cbn [List.length].
  - now rewrite (lexOnce_LF _ _ _ _ Ho Hf).
  - rewrite (lexOnce_CRLF _ _ _ Ho Hf).
    replace (offset lx + Z.of_nat 2) with (offset lx + 1 + 1) by lia.
    reflexivity.
  - now rewrite (lexOnce_CR _ _ _ _ Ho Hf Hc).
Qed.

(** X26: a line break, in each of its three forms, is skipped and counts
    one line. *)
Theorem Lex_line_break (lx : gesLex) (lval : gesSymType) (brk : list Z)
  (c : Z) (rest : list Z) :
  0 <= offset lx ->
  from (source lx) (offset lx) = brk ++ c :: rest ->
  brk = [LF] \/ brk = [CR; LF] \/ (brk = [CR] /\ c <> LF) ->
  Lex lx lval
  = Lex (set_offset (set_lineNumber lx (lineNumber lx + 1))
           (offset lx + len brk)) lval.
Proof.
  intros Ho Hf Hb. apply Lex_continue.
  exact (lexOnce_line_break _ _ _ _ _ Ho Hf Hb).
Qed.

Lemma skipLine_plain body : forall t rest off,
  forallb commentByte body = true -> commentByte t = false ->
  skipLine (body ++ t :: rest) off = Done (off + len body).
Proof.
  induction body as [|b body IH]; intros t rest off Hb Ht; cbn [app skipLine].
  - unfold commentByte in Ht. apply negb_false_iff in Ht. rewrite Ht.
    unfold len. cbn [List.length]. now rewrite Z.add_0_r.
  - cbn [forallb] in Hb. apply andb_prop in Hb as [Hp Hb].
    unfold commentByte in Hp. apply negb_true_iff in Hp. rewrite Hp.
    rewrite IH by assumption. unfold len. cbn [List.length]. f_equal. lia.
Qed.

(** X27: a line comment is skipped: the call goes on at the line break, or
    at the NUL, that ends the comment. *)
Theorem Lex_line_comment (lx : gesLex) (lval : gesSymType)
  (body : list Z) (t : Z) (rest : list Z) :
  0 <= offset lx ->
  from (source lx) (offset lx) = "/"%c :: "/"%c :: body ++ t :: rest ->
  forallb commentByte body = true -> commentByte t = false ->
  t = NUL \/ rest <> [] ->
  Lex lx lval = Lex (set_offset lx (offset lx + 2 + len body)) lval.
Proof.
  intros Ho Hf Hb Ht Hr.
  assert (Hf' : from (source lx) (offset lx + 2 + len body) = t :: rest).
  { replace (offset lx + 2 + len body)
      with (offset lx + len (47 :: 47 :: body))
      by (unfold len; cbn [List.length]; lia).
    apply from_app_from; [exact Ho | exact Hf]. }
  assert (Ho' : 0 <= offset lx + 2 + len body) by (unfold len; lia).
  assert (Hcom : lexOnce lx (set_parseType lval PARSED_UNDEFINED)
                 = lineComment lx).
  { unfold lexOnce. rewrite (idx_at0 _ _ _ _ Ho Hf). cbn [bind Z.eqb Pos.eqb].
    rewrite (idx_at1 _ _ _ _ _ Ho Hf). reflexivity. }
  assert (Hskip : skipLine (from (source lx) (offset lx + 2)) (offset lx + 2)
                  = Done (offset lx + 2 + len body)).
  { replace (offset lx + 2) with (offset lx + 1 + 1) by lia.
    rewrite (from_at2 _ _ _ _ _ Ho Hf). now apply skipLine_plain. }
  set (lx0 := set_offset lx (offset lx + 2 + len body)).
  assert (Hbrk : t = 0 \/ t = 10 \/ t = 13).
  { unfold commentByte in Ht. apply negb_false_iff in Ht.
    destruct (Z.eqb_spec t 0), (Z.eqb_spec t 13), (Z.eqb_spec t 10);
      try discriminate; auto. }
  destruct Hbrk as [-> | Hbrk].
  - (* the end of the source *)
    apply Lex_continue. rewrite Hcom. unfold lineComment.
    cbn [offset source set_offset]. rewrite Hskip. cbn [bind].
    cbn [offset source set_offset].
    rewrite (idx_at0 _ _ _ _ Ho' Hf'). cbn [bind Z.eqb offset source
      set_offset].
    rewrite (idx_at0 _ _ _ _ Ho' Hf'). cbn [bind Z.eqb negb]. reflexivity.
  - destruct Hr as [-> | Hr]; [destruct Hbrk; discriminate|].
    destruct rest as [|n rest']; [congruence|]. clear Hr.
    assert (Hgo : forall lxA,
      lineComment lx = Done (Continue lxA) ->
      lexOnce lx0 (set_parseType lval PARSED_UNDEFINED)
        = Done (Continue lxA) ->
      Lex lx lval = Lex lx0 lval).
    { intros lxA H1 H2. rewrite (Lex_continue lx0 lval _ H2).
      apply Lex_continue. now rewrite Hcom. }
    assert (Hlc : lineComment lx
      = c <- Done t ;;
        lx1 <- (if c =? 13
                then n1 <- Done n ;;
                     if n1 =? 10
                     then Done (set_offset lx0 (offset lx0 + 1))
                     else Done lx0
                else Done lx0) ;;
        c1 <- idx (source lx1) (offset lx1) ;;
        if negb (c1 =? 0)
        then Done (Continue (set_offset
                     (set_lineNumber lx1 (lineNumber lx1 + 1))
                     (offset lx1 + 1)))
        else Done (Continue lx1)).
    { unfold lineComment. cbn [offset source set_offset]. rewrite Hskip.
      cbn [bind offset source set_offset].
      rewrite (idx_at0 _ _ _ _ Ho' Hf'), (idx_at1 _ _ _ _ _ Ho' Hf').
      reflexivity. }
    cbn [bind] in Hlc. subst lx0.
    destruct Hbrk as [-> | ->].
    + eapply Hgo; [|apply (lexOnce_LF _ _ n rest'); assumption].
      rewrite Hlc. cbn [Z.eqb Pos.eqb bind offset source set_offset].
      rewrite (idx_at0 _ _ _ _ Ho' Hf'). reflexivity.
    + destruct (Z.eq_dec n 10) as [->|Hn].
      * eapply Hgo; [|apply (lexOnce_CRLF _ _ rest'); assumption].
        rewrite Hlc. cbn [Z.eqb Pos.eqb bind offset source set_offset].
        rewrite (idx_at1 _ _ _ _ _ Ho' Hf'). reflexivity.
      * eapply Hgo; [|apply (lexOnce_CR _ _ n rest'); assumption].
        rewrite Hlc. apply Z.eqb_neq in Hn.
        cbn [Z.eqb Pos.eqb bind]. rewrite Hn.
        cbn [bind offset source set_offset].
        rewrite (idx_at0 _ _ _ _ Ho' Hf'). reflexivity.
Qed.

(** The scan through the text of a block comment comes to the first byte
    of what ends it, with the line breaks of the text counted. *)
Lemma skipBlock_plain n : forall body e rest off line,
  (List.length body <= n)%nat ->
  closes body = false ->
  (e = NUL \/ exists r, e = "*"%c /\ rest = "/"%c :: r) ->
  skipBlock (body ++ e :: rest) off line
  = Done (off + len body, line + lineBreaks body).
Proof.
  induction n as [|n IH]; intros body e rest off line Hn Hc He.
  { destruct body; [|cbn [List.length] in Hn; lia].
    cbn [app skipBlock lineBreaks]. unfold len. cbn [List.length].
    rewrite !Z.add_0_r.
    destruct He as [-> | (r & -> & ->)]; reflexivity. }
  destruct body as [|c body].
  { cbn [app skipBlock lineBreaks]. unfold len. cbn [List.length].
    rewrite !Z.add_0_r.
    destruct He as [-> | (r & -> & ->)]; reflexivity. }
  cbn [List.length] in Hn. cbn [closes] in Hc.
  apply orb_false_iff in Hc as [Hc Hcl]. apply orb_false_iff in Hc as [H0 Hst].
  cbn [app skipBlock]. rewrite H0.
  assert (Hlen : forall k, off + 1 + len body + k = off + len (c :: body) + k)
    by (intros; unfold len; cbn [List.length]; lia).
  destruct (Z.eqb_spec c 42) as [->|H42].
  { cbn [andb] in Hst.
    destruct body as [|d body'].
    - cbn [app]. unfold len. cbn [List.length lineBreaks Z.eqb Pos.eqb].
      destruct He as [-> | (r & -> & ->)]; cbn [Z.eqb Pos.eqb skipBlock];
        f_equal; f_equal; lia.
    - cbn [app]. rewrite Hst.
      change (d :: body' ++ e :: rest) with ((d :: body') ++ e :: rest).
      rewrite IH by (assumption || cbn [List.length] in *; lia).
      change (lineBreaks (42 :: d :: body')) with (lineBreaks (d :: body')).
      f_equal. f_equal. unfold len. cbn [List.length]. lia. }
  destruct (Z.eqb_spec c 13) as [->|H13].
  { destruct body as [|d body'].
    - cbn [app].
      assert (He' : (e =? 10) = false)
        by (destruct He as [-> | (r & -> & ->)]; reflexivity).
      rewrite He'.
      rewrite (IH [] e rest) by (auto; cbn [List.length]; lia).
      cbn [lineBreaks Z.eqb Pos.eqb]. unfold len. cbn [List.length].
      f_equal. f_equal; lia.
    - cbn [app].
      change (lineBreaks (13 :: d :: body'))
        with (if d =? 10 then 1 + lineBreaks body'
              else 1 + lineBreaks (d :: body')).
      destruct (Z.eqb_spec d 10) as [->|H10].
      + cbn [closes] in Hcl. cbn [Z.eqb Pos.eqb orb andb] in Hcl.
        rewrite IH by (assumption || cbn [List.length] in *; lia).
        f_equal. f_equal; unfold len; cbn [List.length]; lia.
      + change (d :: body' ++ e :: rest) with ((d :: body') ++ e :: rest).
        rewrite IH by (assumption || cbn [List.length] in *; lia).
        f_equal. f_equal; unfold len; cbn [List.length]; lia. }
  rewrite IH by (assumption || lia).
  change (lineBreaks (c :: body))
    with (if c =? 13
          then match body with
               | d :: t' =>
                 if d =? 10 then 1 + lineBreaks t' else 1 + lineBreaks body
               | [] => 1
               end
          else if c =? 10 then 1 + lineBreaks body else lineBreaks body).
  apply Z.eqb_neq in H13. rewrite H13.
  f_equal. f_equal; [unfold len; cbn [List.length]; lia|].
  destruct (c =? 10); lia.
Qed.

Lemma lexOnce_block (lx : gesLex) (lval : gesSymType) (l2 : list Z) :
  0 <= offset lx ->
  from (source lx) (offset lx) = "/"%c :: "*"%c :: l2 ->
  lexOnce lx lval = blockComment lx lval.
Proof.
  intros Ho Hf. unfold lexOnce.
  rewrite (idx_at0 _ _ _ _ Ho Hf). cbn [bind Z.eqb Pos.eqb].
  rewrite (idx_at1 _ _ _ _ _ Ho Hf). reflexivity.
Qed.

(** X28: a block comment is skipped, and its line breaks are counted: the
    call goes on after the closing star and slash. *)
Theorem Lex_block_comment (lx : gesLex) (lval : gesSymType)
  (body rest : list Z) :
  0 <= offset lx ->
  from (source lx) (offset lx)
    = "/"%c :: "*"%c :: body ++ "*"%c :: "/"%c :: rest ->
  closes body = false ->
  Lex lx lval
  = Lex (set_offset (set_lineNumber lx (lineNumber lx + lineBreaks body))
           (offset lx + len body + 4)) lval.
Proof.
  intros Ho Hf Hc. apply Lex_continue.
  rewrite (lexOnce_block _ _ _ Ho Hf). unfold blockComment.
  cbn [offset source set_offset lineNumber].
  replace (offset lx + 2) with (offset lx + 1 + 1) by lia.
  rewrite (from_at2 _ _ _ _ _ Ho Hf).
  rewrite (skipBlock_plain _ _ _ _ _ _ (Nat.le_refl _) Hc)
    by (right; eauto).
  cbn [bind offset source set_offset set_lineNumber].
  assert (Hf' : from (source lx) (offset lx + 1 + 1 + len body)
                = 42 :: 47 :: rest).
  { replace (offset lx + 1 + 1 + len body)
      with (offset lx + len (47 :: 42 :: body))
      by (unfold len; cbn [List.length]; lia).
    apply from_app_from; [exact Ho | exact Hf]. }
  assert (Ho' : 0 <= offset lx + 1 + 1 + len body) by (unfold len; lia).
  rewrite (idx_at0 _ _ _ _ Ho' Hf').
  cbn [bind Z.eqb Pos.eqb].
  replace (offset lx + 1 + 1 + len body + 2) with (offset lx + len body + 4)
    by lia.
  reflexivity.
Qed.

(** X29: a block comment that the source ends in: the error token, with its
    message, the scanner on the NUL and the line breaks counted. *)
Theorem Lex_block_comment_unterminated (lx : gesLex) (lval : gesSymType)
  (body rest : list Z) :
  0 <= offset lx ->
  from (source lx) (offset lx) = "/"%c :: "*"%c :: body ++ NUL :: rest ->
  closes body = false ->
  exists lx' lval',
    Lex lx lval = Done (GTOK_ERROR, lx', lval')
    /\ error lx' = Some (Text "Unterminated multi-line comment")
    /\ offset lx' = offset lx + 2 + len body
    /\ lineNumber lx' = lineNumber lx + lineBreaks body.
Proof.
  intros Ho Hf Hc.
  assert (Hone :
    lexOnce lx (set_parseType lval PARSED_UNDEFINED)
    = Done (Return GTOK_ERROR
              (set_error
                 (set_lineNumber
                    (set_offset lx (offset lx + 1 + 1 + len body))
                    (lineNumber lx + lineBreaks body))
                 (Text "Unterminated multi-line comment"))
              (set_parseType lval PARSED_UNDEFINED))).
  { rewrite (lexOnce_block _ _ _ Ho Hf). unfold blockComment.
    cbn [offset source set_offset lineNumber].
    replace (offset lx + 2) with (offset lx + 1 + 1) by lia.
    rewrite (from_at2 _ _ _ _ _ Ho Hf).
    rewrite (skipBlock_plain _ _ _ _ _ _ (Nat.le_refl _) Hc) by (now left).
    cbn [bind offset source set_offset set_lineNumber].
    assert (Hf' : from (source lx) (offset lx + 1 + 1 + len body)
                  = 0 :: rest).
    { replace (offset lx + 1 + 1 + len body)
        with (offset lx + len (47 :: 42 :: body))
        by (unfold len; cbn [List.length]; lia).
      apply from_app_from; [exact Ho | exact Hf]. }
    assert (Ho' : 0 <= offset lx + 1 + 1 + len body) by (unfold len; lia).
  rewrite (idx_at0 _ _ _ _ Ho' Hf').
    reflexivity. }
  rewrite (Lex_one_pass _ _ _ _ _ Hone). unfold lexed.
  do 2 eexists. split; [reflexivity|].
  repeat split; destruct (regexValid lx);
    cbn [offset set_offset set_lineNumber set_error set_regexValid];
    reflexivity || lia.
Qed.

End Skipping.

Section Witnesses.

(** C2 at [case /a/ x]: the flag is clear before [case], set after it, and
    clear again after the regex literal. *)
Lemma C2_witness :
  exists t0 lx0 l0 t1 lx1 l1,
    scanned "case /a/ x" 0 = Some (t0, lx0, l0)
    /\ scanned "case /a/ x" 1 = Some (t1, lx1, l1)
    /\ regexValid lx1 = rearms t1 && negb (regexValid lx0)
    /\ (regexValid lx0 = true -> regexValid lx1 = false).
Proof.
  do 6 eexists. split; [reflexivity|]. split; [vm_compute; reflexivity|].
  eapply (C2_regex_flag_one_token "case /a/ x" 0 T0 GTOK_CASE);
    vm_compute; reflexivity.
Defined.

(** C4 with Integer 2 on top of Integer 1. *)
Lemma C4_witness :
  exists p1 p2 prc',
    pop twoOnStack = Done (p1, Some (IntegerType 2), None)
    /\ pop p1 = Done (p2, Some (IntegerType 1), None)
    /\ AdditionOperation twoOnStack addOp = Done (prc', None)
    /\ sp prc' = sp twoOnStack - 1
    /\ nth_error (stack prc') (Z.to_nat (sp twoOnStack - 2))
       = Some (Some (sumOf (IntegerType 2) (IntegerType 1)))
    /\ (forall m, m <> Z.to_nat (sp twoOnStack - 2) ->
          nth_error (stack prc') m = nth_error (stack twoOnStack) m)
    /\ pc prc' = pc twoOnStack /\ body prc' = body twoOnStack.
Proof.
  apply (C4_addition twoOnStack addOp (IntegerType 2) (IntegerType 1)).
  - unfold len. simpl. lia.
  - reflexivity.
  - reflexivity.
Defined.

(** C5 on two Integer pushes and an addition. *)
Lemma C5_witness :
  exists v,
    ExecTrace (program [pushOp (IntegerType 1); pushOp (IntegerType 2); addOp])
      newProcess
      = (counters 3, Done (Some v, None))
    /\ topOrUndefined
         {| body := Some (program [pushOp (IntegerType 1);
                                   pushOp (IntegerType 2); addOp]);
            pc := 3;
            stack := Some (IntegerType 3) :: Some (IntegerType 2)
                     :: repeat None 14;
            sp := 1 |} v
    /\ (Code (program [pushOp (IntegerType 1); pushOp (IntegerType 2); addOp])
        = [] -> v = Undefined).
Proof.
  apply (C5_exec_runs_all
           (program [pushOp (IntegerType 1); pushOp (IntegerType 2); addOp])
           newProcess).
  eapply runs_cons; [reflexivity|].
  eapply runs_cons; [reflexivity|].
  eapply runs_cons; [reflexivity|].
  apply runs_nil.
Defined.

(** C6 on a push, a behaviour that fails, and a push that is never run. *)
Lemma C6_witness :
  ExecTrace (program [pushOp (IntegerType 1); failOp "boom";
                      pushOp (IntegerType 2)]) newProcess
  = (counters 2, Done (None, Some (Text "boom"))).
Proof.
  eapply (C6_exec_aborts
            (program [pushOp (IntegerType 1); failOp "boom";
                      pushOp (IntegerType 2)])
            newProcess _ _ [pushOp (IntegerType 1)] [pushOp (IntegerType 2)]
            (failOp "boom")).
  - reflexivity.
  - eapply runs_cons; [reflexivity | apply runs_nil].
  - reflexivity.
Defined.

(** C8 on [0xyz]. *)
Lemma C8_witness :
  exists lx1 l1 lx2 l2,
    Lex (newLexer "0xyz") zeroSym = Done (GTOK_LITERAL, lx1, l1)
    /\ parseType l1 = PARSED_LITERAL
    /\ literal l1 = Some (IntegerType 0)
    /\ offset lx1 = 1
    /\ Lex lx1 l1 = Done (GTOK_IDENTIFIER, lx2, l2)
    /\ parseType l2 = PARSED_IDENTIFIER
    /\ identifier l2 = String "x" (stringOf (identRun (bytesOf "yz")))
    /\ offset lx2 = 2 + len (identRun (bytesOf "yz")).
Proof.
  apply (C8_hex_prefix_rollback "x" "yz" zeroSym).
  - left. reflexivity.
  - reflexivity.
Defined.

(** C9 on [0x0aBc]. *)
Lemma C9_witness :
  exists lx' l',
    Lex (newLexer "0x0aBc") zeroSym = Done (GTOK_LITERAL, lx', l')
    /\ parseType l' = PARSED_LITERAL
    /\ literal l' = Some (IntegerType (wrap64 (hexValue (bytesOf "0aBc"))))
    /\ offset lx' = 2 + len (bytesOf "0aBc")
    /\ (hexValue (bytesOf "0aBc") < 2 ^ 63 ->
        literal l' = Some (IntegerType (hexValue (bytesOf "0aBc")))).
Proof.
  apply (C9_hex_value "x" "0aBc" "" zeroSym).
  - left. reflexivity.
  - discriminate.
  - reflexivity.
  - reflexivity.
Defined.

End Witnesses.

(** ** The further properties, each at an input *)

Section FurtherWitnesses.

(** X1 on the process with two values on its stack. *)
Lemma push_then_pop_witness :
  exists p1,
    push twoOnStack (Some (IntegerType 7)) = Done (p1, None)
    /\ sp p1 = sp twoOnStack + 1
    /\ peek p1 = Done (p1, Some (IntegerType 7), None)
    /\ pop p1 = Done (set_sp p1 (sp twoOnStack), Some (IntegerType 7), None)
    /\ forall m, m <> Z.to_nat (sp twoOnStack) ->
         nth_error (stack p1) m = nth_error (stack twoOnStack) m.
Proof.
  apply (push_then_pop twoOnStack (Some (IntegerType 7))).
  unfold len. simpl. lia.
Defined.

(** X4 on the process as [Script.Run] makes it. *)
Lemma AdditionOperation_underflow_witness :
  AdditionOperation newProcess addOp = Panicked IndexOutOfRange.
Proof.
  apply (AdditionOperation_underflow newProcess addOp). reflexivity.
Defined.


(** X6 on a Function of one push. *)
Lemma Exec_value_runs_witness :
  exists p',
    runs (Code (program [pushOp (IntegerType 1)]))
      (start (program [pushOp (IntegerType 1)]) newProcess) p'
    /\ topOrUndefined p' (IntegerType 1)
    /\ fst (ExecTrace (program [pushOp (IntegerType 1)]) newProcess)
       = counters (List.length (Code (program [pushOp (IntegerType 1)]))).
Proof.
  apply (Exec_value_runs (program [pushOp (IntegerType 1)]) newProcess
           (IntegerType 1)).
  reflexivity.
Defined.

(** X7 with a parser that reports an error through the scanner's [Error]. *)
Lemma Run_composes_witness :
  Gescript.Run (fun lx => Done (1, Error lx "syntax error")) "x"
  = Done (None, Some (Text "syntax error")).
Proof.
  apply (Run_composes (fun lx => Done (1, Error lx "syntax error")) "x" 1
           (Error (newLexer "x") "syntax error")).
  reflexivity.
Defined.


(** X9 on the source [.5], at its start. *)
Lemma Lex_guarded_witness :
  Lex (newLexer ".5") zeroSym = Panicked SliceOutOfRange.
Proof.
  apply (Lex_guarded (newLexer ".5") zeroSym).
  split; [simpl; lia | simpl; tauto].
Defined.

(** X11 on the first token of [x = 1]. *)
Lemma Lex_frame_witness :
  exists tok lx' lval',
    Lex (newLexer "x = 1") zeroSym = Done (tok, lx', lval')
    /\ source lx' = source (newLexer "x = 1")
    /\ ctx lx' = ctx (newLexer "x = 1")
    /\ lineNumber (newLexer "x = 1") <= lineNumber lx'
    /\ (tok <> GTOK_ERROR -> error lx' = error (newLexer "x = 1")).
Proof.
  do 3 eexists. split; [vm_compute; reflexivity|].
  eapply (Lex_frame (newLexer "x = 1") _ zeroSym _ _).
  vm_compute. reflexivity.
Defined.

(** X12 on the first token of [x = 1]. *)
Lemma Lex_payload_witness :
  exists tok lx' lval',
    Lex (newLexer "x = 1") zeroSym = Done (tok, lx', lval')
    /\ parseType lval' = payloadOf tok
    /\ symCtx lval' = Some (ctx (newLexer "x = 1"))
    /\ (tok = GTOK_LITERAL -> literal lval' <> None)
    /\ (tok <> GTOK_IDENTIFIER -> identifier lval' = identifier zeroSym)
    /\ (tok <> GTOK_LITERAL -> literal lval' = literal zeroSym)
    /\ (tok <> GTOK_ASSIGNOP -> assignOp lval' = assignOp zeroSym).
Proof.
  do 3 eexists. split; [vm_compute; reflexivity|].
  eapply (Lex_payload (newLexer "x = 1") _ zeroSym _ _).
  vm_compute. reflexivity.
Defined.

(** X13 on [/a/] with the flag set. *)
Lemma Lex_regexp_flag_witness :
  exists lx' lval',
    Lex (set_regexValid (newLexer "/a/") true) zeroSym
      = Done (GTOK_REGEXP, lx', lval')
    /\ regexValid (set_regexValid (newLexer "/a/") true) = true
    /\ regexValid lx' = false.
Proof.
  do 2 eexists. split; [vm_compute; reflexivity|].
  eapply (Lex_regexp_flag (set_regexValid (newLexer "/a/") true) _ zeroSym _).
  vm_compute. reflexivity.
Defined.

(** X14 on the first token of [x = 1]. *)
Lemma Lex_advances_witness :
  exists lx' lval',
    Lex (newLexer "x = 1") zeroSym = Done (GTOK_IDENTIFIER, lx', lval')
    /\ offset (newLexer "x = 1") < offset lx'.
Proof.
  do 2 eexists. split; [vm_compute; reflexivity|].
  eapply (Lex_advances (newLexer "x = 1") _ zeroSym _ GTOK_IDENTIFIER);
    [vm_compute; reflexivity | discriminate | discriminate].
Defined.

(** X15 on [x = 1]. *)
Lemma scanner_ends_witness :
  exists n tok lx lval',
    (1 <= n <= S (String.length "x = 1"))%nat
    /\ lexN n (newLexer "x = 1") zeroSym = Some (tok, lx, lval')
    /\ (tok = T0 \/ tok = GTOK_ERROR).
Proof.
  apply (scanner_ends "x = 1" zeroSym). reflexivity.
Defined.

(** X16 on [iffy], which begins like a keyword and is none. *)
Lemma Lex_word_witness :
  exists lx' lval',
    Lex (newLexer "iffy") zeroSym = Done (GTOK_IDENTIFIER, lx', lval')
    /\ offset lx' = offset (newLexer "iffy") + len (bytesOf "iffy")
    /\ (keywordOf (bytesOf "iffy") = None ->
        parseType lval' = PARSED_IDENTIFIER
        /\ identifier lval' = stringOf (bytesOf "iffy")).
Proof.
  apply (Lex_word (newLexer "iffy") zeroSym "i"%c NUL (bytesOf "ffy") []);
    [simpl; lia | reflexivity | reflexivity | reflexivity | reflexivity].
Defined.

(** X17 on [42;]. *)
Lemma Lex_decimal_witness :
  exists lx' lval',
    Lex (newLexer "42;") zeroSym = Done (GTOK_LITERAL, lx', lval')
    /\ parseType lval' = PARSED_LITERAL
    /\ literal lval' = Some (IntegerType (decValue (bytesOf "42")))
    /\ offset lx' = offset (newLexer "42;") + len (bytesOf "42").
Proof.
  apply (Lex_decimal (newLexer "42;") zeroSym "4"%c ";"%c (bytesOf "2")
           [NUL]);
    [simpl; lia | reflexivity | reflexivity | reflexivity | reflexivity
    | discriminate | discriminate | discriminate].
Defined.

(** X18 on [017;]. *)
Lemma Lex_octal_witness :
  exists lx' lval',
    Lex (newLexer "017;") zeroSym = Done (GTOK_LITERAL, lx', lval')
    /\ parseType lval' = PARSED_LITERAL
    /\ literal lval'
       = Some (IntegerType (wrap64 (octValue (bytesOf "17"))))
    /\ offset lx' = offset (newLexer "017;") + 1 + len (bytesOf "17")
    /\ (octValue (bytesOf "17") < 2 ^ 63 ->
        literal lval' = Some (IntegerType (octValue (bytesOf "17")))).
Proof.
  apply (Lex_octal (newLexer "017;") zeroSym "1"%c ";"%c (bytesOf "7")
           [NUL]);
    [simpl; lia | reflexivity | reflexivity | reflexivity].
Defined.

(** X19 on ['ab' x]. *)
Lemma Lex_string_plain_witness :
  exists lx' lval',
    Lex (newLexer "'ab' x") zeroSym = Done (GTOK_LITERAL, lx', lval')
    /\ parseType lval' = PARSED_LITERAL
    /\ literal lval' = Some (StringType "ab")
    /\ offset lx' = offset (newLexer "'ab' x") + len (bytesOf "ab") + 2
    /\ lineNumber lx' = lineNumber (newLexer "'ab' x").
Proof.
  apply (Lex_string_plain (newLexer "'ab' x") zeroSym "'"%c "ab"
           (bytesOf " x" ++ [NUL]));
    [simpl; lia | right; reflexivity | reflexivity | reflexivity].
Defined.

(** X20 on ['ab], which the source ends in. *)
Lemma Lex_string_unterminated_witness :
  exists lx' lval',
    Lex (newLexer "'ab") zeroSym = Done (GTOK_ERROR, lx', lval')
    /\ error lx' = Some (Text "Unterminated string literal")
    /\ offset lx' = offset (newLexer "'ab")
    /\ lineNumber lx' = lineNumber (newLexer "'ab").
Proof.
  apply (Lex_string_unterminated (newLexer "'ab") zeroSym "'"%c NUL "ab" []);
    [simpl; lia | right; reflexivity | reflexivity | reflexivity
    | right; right; reflexivity].
Defined.

(** X21 on [/a/ x] with the flag clear: a division sign. *)
Lemma Lex_slash_witness :
  exists lx' lval',
    Lex (newLexer "/a/ x") zeroSym = Done (GTOK_DIV, lx', lval')
    /\ offset lx' = offset (newLexer "/a/ x") + 1
    /\ parseType lval' = PARSED_UNDEFINED
    /\ regexValid lx' = false.
Proof.
  apply (Lex_slash (newLexer "/a/ x") zeroSym "a"%c [] (bytesOf " x" ++ [NUL]));
    [simpl; lia | reflexivity | reflexivity | discriminate | discriminate].
Defined.

(** X22 on [/a], which the source ends in, with the flag set. *)
Lemma Lex_regex_unterminated_witness :
  exists lx' lval',
    Lex (set_regexValid (newLexer "/a") true) zeroSym
      = Done (GTOK_ERROR, lx', lval')
    /\ error lx' = Some (Text "Unterminated regex pattern")
    /\ offset lx' = offset (set_regexValid (newLexer "/a") true) + 1
    /\ regexValid lx' = false.
Proof.
  apply (Lex_regex_unterminated (set_regexValid (newLexer "/a") true)
           zeroSym (bytesOf "a") NUL []);
    [simpl; lia | reflexivity | reflexivity | reflexivity | discriminate
    | right; right; reflexivity].
Defined.

(** X23 on [08]. *)
Lemma Lex_zero_witness :
  exists lx' lval',
    Lex (newLexer "08") zeroSym = Done (GTOK_LITERAL, lx', lval')
    /\ parseType lval' = PARSED_LITERAL
    /\ literal lval' = Some (IntegerType 0)
    /\ offset lx' = offset (newLexer "08") + 1.
Proof.
  apply (Lex_zero (newLexer "08") zeroSym "8"%c [NUL]);
    [simpl; lia | reflexivity | reflexivity | discriminate | discriminate
    | discriminate | discriminate | discriminate].
Defined.

(** X24 on [>>>= 1]. *)
Lemma Lex_assign_op_witness :
  exists lx' lval',
    Lex (newLexer ">>>= 1") zeroSym = Done (GTOK_ASSIGNOP, lx', lval')
    /\ assignOp lval' = GTOK_GTGTGT
    /\ parseType lval' = PARSED_UNDEFINED
    /\ offset lx' = offset (newLexer ">>>= 1") + len (bytesOf ">>>=").
Proof.
  apply (Lex_assign_op (newLexer ">>>= 1") zeroSym ">>>=" GTOK_GTGTGT " "%c
           (bytesOf "1" ++ [NUL]));
    [simpl; lia | simpl; tauto | reflexivity | discriminate].
Defined.

(** X25 on two blanks before a word. *)
Lemma Lex_skips_blanks_witness :
  Lex (newLexer "  x") zeroSym
  = Lex (set_offset (newLexer "  x")
           (offset (newLexer "  x") + len (bytesOf "  "))) zeroSym.
Proof.
  apply (Lex_skips_blanks (bytesOf "  ") (newLexer "  x") zeroSym "x"%c [NUL]);
    [simpl; lia | reflexivity | reflexivity].
Defined.

(** X26 on a carriage return and a line feed before a word. *)
Lemma Lex_line_break_witness :
  Lex (newLexer (cr ++ lf ++ "x")) zeroSym
  = Lex (set_offset
           (set_lineNumber (newLexer (cr ++ lf ++ "x"))
              (lineNumber (newLexer (cr ++ lf ++ "x")) + 1))
           (offset (newLexer (cr ++ lf ++ "x")) + len [CR; LF])) zeroSym.
Proof.
  apply (Lex_line_break (newLexer (cr ++ lf ++ "x")) zeroSym [CR; LF] "x"%c
           [NUL]);
    [simpl; lia | reflexivity | right; left; reflexivity].
Defined.

(** X27 on a line comment, a line feed and a word. *)
Lemma Lex_line_comment_witness :
  Lex (newLexer ("// c" ++ lf ++ "x")) zeroSym
  = Lex (set_offset (newLexer ("// c" ++ lf ++ "x"))
           (offset (newLexer ("// c" ++ lf ++ "x")) + 2 + len (bytesOf " c")))
      zeroSym.
Proof.
  apply (Lex_line_comment (newLexer ("// c" ++ lf ++ "x")) zeroSym
           (bytesOf " c") LF (bytesOf "x" ++ [NUL]));
    [simpl; lia | reflexivity | reflexivity | reflexivity
    | right; discriminate].
Defined.

(** X28 on a block comment over two lines and a word. *)
Lemma Lex_block_comment_witness :
  Lex (newLexer ("/* a" ++ lf ++ " */ x")) zeroSym
  = Lex (set_offset
           (set_lineNumber (newLexer ("/* a" ++ lf ++ " */ x"))
              (lineNumber (newLexer ("/* a" ++ lf ++ " */ x"))
               + lineBreaks (bytesOf (" a" ++ lf ++ " "))))
           (offset (newLexer ("/* a" ++ lf ++ " */ x"))
            + len (bytesOf (" a" ++ lf ++ " ")) + 4)) zeroSym.
Proof.
  apply (Lex_block_comment (newLexer ("/* a" ++ lf ++ " */ x")) zeroSym
           (bytesOf (" a" ++ lf ++ " ")) (bytesOf " x" ++ [NUL]));
    [simpl; lia | reflexivity | reflexivity].
Defined.

(** X29 on a block comment that is not closed. *)
Lemma Lex_block_comment_unterminated_witness :
  exists lx' lval',
    Lex (newLexer "/* a") zeroSym = Done (GTOK_ERROR, lx', lval')
    /\ error lx' = Some (Text "Unterminated multi-line comment")
    /\ offset lx' = offset (newLexer "/* a") + 2 + len (bytesOf " a")
    /\ lineNumber lx'
       = lineNumber (newLexer "/* a") + lineBreaks (bytesOf " a").
Proof.
  apply (Lex_block_comment_unterminated (newLexer "/* a") zeroSym
           (bytesOf " a") []);
    [simpl; lia | reflexivity | reflexivity].
Defined.

End FurtherWitnesses.
